(** * agent-sessions: schema fingerprints, baseline diff, severity and
    tool-event clustering

    A shallow embedding of the algorithmic core of [scripts/agent_watch.py]
    and [scripts/scan_tool_formats.py], and the properties of it that the
    specification states.

    Conventions of the embedding.
    - A Python [dict] with string keys is a [gmap string _]; a Python [set]
      of strings is a [gset string]; [sorted(s)] of a set is the list
      [sorted s], ordered by code point.
    - Python [str] is [string], and the text that the scanners walk through
      is the list of its characters.  Text is taken to be ASCII; the
      scanners compare characters with ASCII characters only.
    - A function that mutates a dict it was handed returns the new dict.
    - [json.loads] and the file system stay outside: a line or a file enters
      a function as what reading and decoding it gave (a failure, or a
      decoded value).  Numbers are integers. *)

From Stdlib Require Import ZArith Ascii String.
From stdpp Require Import gmap strings list sorting.

Local Open Scope string_scope.
Local Open Scope list_scope.

(** ** Python helpers *)

Module Py.

(** [a <= b] on [str]: lexicographic on code points. *)
Definition str_le (a b : string) : Prop := String.leb a b = true.

#[global] Instance str_le_dec : RelDecision str_le.
Proof. intros a b. unfold str_le. apply _. Defined.

#[global] Instance str_le_total : Total str_le.
Proof. intros a b. apply String.leb_total. Qed.

#[global] Instance str_le_antisym : AntiSymm (=) str_le.
Proof. intros a b. apply String.leb_antisym. Qed.

(** [sorted(s)] for a set of strings. *)
Definition sorted (s : gset string) : list string :=
  merge_sort str_le (elements s).

(** [set(l)] for a list of strings. *)
Definition set_of (l : list string) : gset string := list_to_set l.

(** Truth value of a list: [not l] is [is_nil l]. *)
Definition is_nil {A} (l : list A) : bool :=
  match l with [] => true | _ :: _ => false end.

(** Truth value of a dict: [not d] holds for the empty dict only. *)
Definition is_empty_dict {V} (d : gmap string V) : bool :=
  bool_decide (size d = 0).

(** [d.get(k, [])]. *)
Definition get_list (d : gmap string (list string)) (k : string) : list string :=
  default [] (d !! k).

End Py.

(** ** Decoded JSON *)

#[local] Unset Elimination Schemes.

(** What [json.loads] returns.  [JNull] is Python's [None]; an object keeps
    its members in the order of the text. *)
Inductive Json :=
  | JNull
  | JBool (b : bool)
  | JNum (n : Z)
  | JStr (s : string)
  | JArr (items : list Json)
  | JObj (members : list (string * Json)).

#[local] Set Elimination Schemes.

(** [obj.get(k)] on a decoded object: the last member named [k] wins, and a
    missing member reads as [None]. *)
Definition obj_get (members : list (string * Json)) (k : string) : Json :=
  match find (λ kv, String.eqb kv.1 k) (reverse members) with
  | Some (_, v) => v
  | None => JNull
  end.

(** [obj.keys()], as a list. *)
Definition obj_keys (members : list (string * Json)) : list string := members.*1.

(** [v if isinstance(v, str) and v else None]. *)
Definition nonempty_str (v : Json) : option string :=
  match v with
  | JStr s => if String.eqb s "" then None else Some s
  | _ => None
  end.

(** ** [agent_watch.py]: baseline diff *)

Module AgentWatch.

Import Py.

Record SchemaDiff := {
  unknown_types : list string;
  missing_types : list string;
  unknown_keys : gmap string (list string);
  missing_keys : gmap string (list string);
  unknown_only_is_empty : bool;
  is_empty : bool;
}.

(** Body of the loop [for t in sorted(observed_types | baseline_types)],
    acting on the pair [(unknown_keys, missing_keys)]. *)
Definition diff_step (observed baseline : gmap string (list string))
    (acc : gmap string (list string) * gmap string (list string))
    (t : string) : gmap string (list string) * gmap string (list string) :=
  let o := set_of (get_list observed t) in
  let b := set_of (get_list baseline t) in
  let extra := sorted (o ∖ b) in
  let miss := sorted (b ∖ o) in
  let uk := if is_nil extra then acc.1 else <[t := extra]> acc.1 in
  let mk := if is_nil miss then acc.2 else <[t := miss]> acc.2 in
  (uk, mk).

Definition _schema_diff (observed_type_keys baseline_type_keys : gmap string (list string))
    : SchemaDiff :=
  let observed_types : gset string := dom observed_type_keys in
  let baseline_types : gset string := dom baseline_type_keys in
  let unknown_types := sorted (observed_types ∖ baseline_types) in
  let missing_types := sorted (baseline_types ∖ observed_types) in
  let keys := foldl (diff_step observed_type_keys baseline_type_keys) (∅, ∅)
                (sorted (observed_types ∪ baseline_types)) in
  let unknown_keys := keys.1 in
  let missing_keys := keys.2 in
  let unknown_only_is_empty := is_nil unknown_types && is_empty_dict unknown_keys in
  {| unknown_types := unknown_types;
     missing_types := missing_types;
     unknown_keys := unknown_keys;
     missing_keys := missing_keys;
     unknown_only_is_empty := unknown_only_is_empty;
     is_empty := is_nil unknown_types && is_nil missing_types
                 && is_empty_dict unknown_keys && is_empty_dict missing_keys |}.

(** The drift verdict: [main] reads it as
    [schema_matches_baseline = bool(diff["unknown_only_is_empty"])], so the
    diff reports drift exactly when [unknown_only_is_empty] is false. *)
Definition drift (d : SchemaDiff) : bool := negb (unknown_only_is_empty d).

(** ** [agent_watch.py]: severity and recommendation *)

(** [_pick_severity]: the keyword-only arguments in the order of the source;
    the result is the pair of strings the source returns. *)
Definition _pick_severity
    (upstream_newer_than_verified installed_newer_than_verified monitoring_failed : bool)
    (schema_hits usage_hits : list string)
    (probe_failed probe_failed_but_upstream_degraded : bool) : string * string :=
  if monitoring_failed then ("high", "prepare_hotfix")
  else if probe_failed && negb probe_failed_but_upstream_degraded then
    ("high", "prepare_hotfix")
  else if probe_failed && probe_failed_but_upstream_degraded then
    ("medium", "monitor")
  else if installed_newer_than_verified then ("medium", "run_weekly_now")
  else if negb upstream_newer_than_verified && negb installed_newer_than_verified then
    ("none", "ignore")
  else if negb (is_nil schema_hits) || negb (is_nil usage_hits) then
    ("medium", "run_weekly_now")
  else ("low", "monitor").

Inductive Mode := daily | weekly.

Definition is_weekly (m : Mode) : bool :=
  match m with weekly => true | daily => false end.

(** [main], weekly branch: the value of [schema_matches_baseline].  It stays
    [None] in daily mode, when no local evidence file was fingerprinted
    ([local_type_keys = None]) and when the baseline is empty; otherwise it
    is [bool(schema_diff["unknown_only_is_empty"])]. *)
Definition schema_matches_baseline (mode : Mode)
    (local_type_keys : option (gmap string (list string)))
    (baseline_type_keys : gmap string (list string)) : option bool :=
  if is_weekly mode then
    match local_type_keys with
    | Some observed =>
        if is_empty_dict baseline_type_keys then None
        else Some (unknown_only_is_empty (_schema_diff observed baseline_type_keys))
    | None => None
    end
  else None.

(** [x is True] for an optional bool. *)
Definition is_True (x : option bool) : bool :=
  match x with Some true => true | _ => false end.

(** [main]: the decision for one agent, that is the call of [_pick_severity]
    followed by the downgrade of an installed-newer finding on concrete
    schema evidence. *)
Definition main_decision (mode : Mode)
    (upstream_newer_than_verified installed_newer_than_verified monitoring_failed : bool)
    (schema_hits usage_hits : list string)
    (probe_failed probe_failed_but_upstream_degraded : bool)
    (matches_baseline : option bool) : string * string :=
  let '(severity, recommendation) :=
    _pick_severity upstream_newer_than_verified installed_newer_than_verified
      monitoring_failed schema_hits usage_hits probe_failed
      probe_failed_but_upstream_degraded in
  if is_weekly mode
     && bool_decide (severity ∈ ["medium"; "low"])
     && installed_newer_than_verified
     && is_True matches_baseline
     && negb probe_failed
  then ("low", "bump_verified_version")
  else (severity, recommendation).

(** Position of a severity on the scale none < low < medium < high. *)
Definition severity_rank (severity : string) : nat :=
  if String.eqb severity "none" then 0
  else if String.eqb severity "low" then 1
  else if String.eqb severity "medium" then 2
  else 3.

(** *** The rule list of the specification *)

Record SeverityInputs := {
  in_monitoring_failed : bool;
  in_probe_failed : bool;
  in_probe_failed_but_upstream_degraded : bool;
  in_upstream_newer_than_verified : bool;
  in_installed_newer_than_verified : bool;
  in_schema_or_usage_keyword_hits : bool;
}.

(** Rules 1 to 7, each a guard and the decision it yields. *)
Definition severity_rules : list ((SeverityInputs → bool) * (string * string)) :=
  [ (in_monitoring_failed, ("high", "prepare_hotfix"));
    (λ i, in_probe_failed i && negb (in_probe_failed_but_upstream_degraded i),
      ("high", "prepare_hotfix"));
    (λ i, in_probe_failed i && in_probe_failed_but_upstream_degraded i,
      ("medium", "monitor"));
    (in_installed_newer_than_verified, ("medium", "run_weekly_now"));
    (λ i, negb (in_upstream_newer_than_verified i)
          && negb (in_installed_newer_than_verified i),
      ("none", "ignore"));
    (in_schema_or_usage_keyword_hits, ("medium", "run_weekly_now"));
    (λ _, true, ("low", "monitor")) ].

(** First match wins. *)
Fixpoint first_match {I R} (rules : list ((I → bool) * R)) (i : I) : option R :=
  match rules with
  | [] => None
  | (guard, r) :: rest => if guard i then Some r else first_match rest i
  end.

(** ** [agent_watch.py]: fingerprints *)

(** A line of a JSONL file as the scan meets it. *)
Inductive Line :=
  | BlankLine                (* [line.strip()] is empty *)
  | BadLine                  (* [json.loads] raises [JSONDecodeError] *)
  | JsonLine (v : Json).

Definition is_blank (l : Line) : bool :=
  match l with BlankLine => true | _ => false end.

(** The dicts [type_keys] and [type_counts] of a scan. *)
Record Buckets := {
  b_type_keys : gmap string (gset string);
  b_type_counts : gmap string nat;
}.

Definition no_buckets : Buckets := {| b_type_keys := ∅; b_type_counts := ∅ |}.

(** Counting one object under [event_type] and adding its keys to the
    bucket of that type ([setdefault] then [add]); the nested [_add] of the
    Gemini and OpenCode scans, written inline in the JSONL scan. *)
Definition _add (event_type : string) (obj : list (string * Json)) (b : Buckets) : Buckets :=
  {| b_type_counts :=
       <[event_type := S (default 0 (b_type_counts b !! event_type))]> (b_type_counts b);
     b_type_keys :=
       <[event_type := default ∅ (b_type_keys b !! event_type) ∪ set_of (obj_keys obj)]>
         (b_type_keys b) |}.

(** [{k: sorted(list(type_keys[k])) for k in sorted(type_keys)}]. *)
Definition sorted_type_keys (tk : gmap string (gset string)) : gmap string (list string) :=
  sorted <$> tk.

Record ScanState := {
  buckets : Buckets;
  total_lines : nat;
  errors : nat;
}.

Definition scan_start : ScanState :=
  {| buckets := no_buckets; total_lines := 0; errors := 0 |}.

(** Body of [for raw in lines] in [_jsonl_schema_fingerprint]. *)
Definition ingest_line (st : ScanState) (raw : Line) : ScanState :=
  let total := S (total_lines st) in
  match raw with
  | JsonLine (JObj obj) =>
      let event_type := default "<missing-type>" (nonempty_str (obj_get obj "type")) in
      {| buckets := _add event_type obj (buckets st);
         total_lines := total; errors := errors st |}
  | JsonLine _ =>
      {| buckets := buckets st; total_lines := total; errors := errors st |}
  | BadLine | BlankLine =>
      {| buckets := buckets st; total_lines := total; errors := S (errors st) |}
  end.

(** Body of the reading loop: blank lines are skipped, the others appended,
    and the oldest line dropped once more than [max_lines] are held. *)
Definition keep_line (max_lines : Z) (lines : list Line) (line : Line) : list Line :=
  if is_blank line then lines
  else
    let lines := lines ++ [line] in
    if (Z.of_nat (length lines) >? max_lines)%Z then tail lines else lines.

Record Fingerprint := {
  file : string;
  type_counts : gmap string nat;
  type_keys : gmap string (list string);
  parsed_lines : nat;
  parse_errors : nat;
}.

(** What a scan state is reported as. *)
Definition report (path : string) (st : ScanState) : Fingerprint :=
  {| file := path;
     type_counts := b_type_counts (buckets st);
     type_keys := sorted_type_keys (b_type_keys (buckets st));
     parsed_lines := total_lines st;
     parse_errors := errors st |}.

(** The fold of [_jsonl_schema_fingerprint] over the lines it kept. *)
Definition fold_lines (lines : list Line) : ScanState :=
  foldl ingest_line scan_start lines.

Definition _jsonl_schema_fingerprint (path : string) (content : list Line)
    (max_lines : Z) : Fingerprint :=
  let lines := foldl (keep_line max_lines) [] content in
  report path (fold_lines lines).

(** Body of [for t, keys in tk.items()] in [_merge_type_keys]. *)
Definition merge_bucket (merged : gmap string (gset string))
    (item : string * list string) : gmap string (gset string) :=
  <[item.1 := default ∅ (merged !! item.1) ∪ set_of item.2]> merged.

(** Body of [for fp in fingerprints]. *)
Definition merge_fingerprint (merged : gmap string (gset string))
    (fp : Fingerprint) : gmap string (gset string) :=
  foldl merge_bucket merged (map_to_list (type_keys fp)).

Definition _merge_type_keys (fingerprints : list Fingerprint) : gmap string (list string) :=
  sorted_type_keys (foldl merge_fingerprint ∅ fingerprints).

(** ** [agent_watch.py]: the OpenCode session tree *)

(** Reading and decoding one JSON file. *)
Inductive FileRead :=
  | ReadFails                (* [read_text] or [json.loads] raises *)
  | ReadJson (v : Json).

(** What [exists()] and the sorted listing give for a directory that is
    not reported absent. *)
Inductive Dir :=
  | ExistsRaises                    (* [exists()] raises [OSError] *)
  | DirFiles (files : list FileRead).

(** The storage root next to a session file: the message files of each
    session id ([message/<id>/msg_*.json], sorted by name) and the part
    files of each message id ([part/<id>/*.json], sorted by name).  A
    missing key is a directory for which [exists()] answers [False]. *)
Record Storage := {
  message_dirs : gmap string Dir;
  part_dirs : gmap string Dir;
}.

Record TreeFingerprint := {
  tree_file : string;
  tree_type_counts : gmap string nat;
  tree_type_keys : gmap string (list string);
  message_files_parsed : nat;
  part_files_parsed : nat;
  tree_parse_errors : nat;
  warning : option string;
}.

Record TreeState := {
  tree_buckets : Buckets;
  tree_errors : nat;
  messages_parsed : nat;
  parts_parsed : nat;
  total_parts_budget : Z;
}.

Definition tree_report (path : string) (st : TreeState) (messages parts : nat)
    (warn : option string) : TreeFingerprint :=
  {| tree_file := path;
     tree_type_counts := b_type_counts (tree_buckets st);
     tree_type_keys := sorted_type_keys (b_type_keys (tree_buckets st));
     message_files_parsed := messages;
     part_files_parsed := parts;
     tree_parse_errors := tree_errors st;
     warning := warn |}.

(** [f"{prefix}.{v}" if isinstance(v, str) and v else prefix]. *)
Definition dotted (prefix : string) (v : Json) : string :=
  match nonempty_str v with
  | Some s => String.append prefix (String.append "." s)
  | None => prefix
  end.

(** [for part_file in part_files], with its [break] on an exhausted budget. *)
Fixpoint scan_parts (part_files : list FileRead) (st : TreeState) : TreeState :=
  match part_files with
  | [] => st
  | part_file :: rest =>
      if (total_parts_budget st <=? 0)%Z then st
      else
        let budget := (total_parts_budget st - 1)%Z in
        match part_file with
        | ReadFails =>
            scan_parts rest
              {| tree_buckets := tree_buckets st; tree_errors := S (tree_errors st);
                 messages_parsed := messages_parsed st; parts_parsed := parts_parsed st;
                 total_parts_budget := budget |}
        | ReadJson (JObj part_obj) =>
            scan_parts rest
              {| tree_buckets :=
                   _add (dotted "part" (obj_get part_obj "type")) part_obj (tree_buckets st);
                 tree_errors := tree_errors st;
                 messages_parsed := messages_parsed st;
                 parts_parsed := S (parts_parsed st);
                 total_parts_budget := budget |}
        | ReadJson _ =>
            scan_parts rest
              {| tree_buckets := tree_buckets st; tree_errors := tree_errors st;
                 messages_parsed := messages_parsed st; parts_parsed := parts_parsed st;
                 total_parts_budget := budget |}
        end
  end.

(** Body of [for msg_file in sorted(msg_dir.glob("msg_*.json"))[:msg_budget]].
    The result is [None] when [part_dir.exists()] raises: the error is not
    caught and ends the scan. *)
Definition scan_message (storage : Storage) (st : TreeState) (msg_file : FileRead)
    : option TreeState :=
  match msg_file with
  | ReadFails =>
      Some
        {| tree_buckets := tree_buckets st; tree_errors := S (tree_errors st);
           messages_parsed := messages_parsed st; parts_parsed := parts_parsed st;
           total_parts_budget := total_parts_budget st |}
  | ReadJson (JObj msg_obj) =>
      let st :=
        {| tree_buckets :=
             _add (dotted "message" (obj_get msg_obj "role")) msg_obj (tree_buckets st);
           tree_errors := tree_errors st;
           messages_parsed := S (messages_parsed st);
           parts_parsed := parts_parsed st;
           total_parts_budget := total_parts_budget st |} in
      match nonempty_str (obj_get msg_obj "id") with
      | None => Some st
      | Some mid =>
          match part_dirs storage !! mid with
          | None => Some st
          | Some ExistsRaises => None
          | Some (DirFiles part_files) =>
              if (total_parts_budget st <=? 0)%Z then Some st
              else Some (scan_parts part_files st)
          end
      end
  | ReadJson _ => Some st
  end.

(** The loop over the message files: an error in one pass ends it. *)
Definition scan_messages (storage : Storage) (st : TreeState) (msg_files : list FileRead)
    : option TreeState :=
  foldl (λ acc msg_file, acc ≫= λ st, scan_message storage st msg_file) (Some st)
    msg_files.

(** [session_file] is what reading [session_path] gives, and [storage_root]
    what [_opencode_storage_root_for_session_file] finds for it.  The result
    is [None] when the function raises, which it does when [msg_dir.exists()]
    or [part_dir.exists()] raises [OSError]. *)
Definition _opencode_storage_session_tree_schema_fingerprint
    (session_path : string) (session_file : FileRead) (storage_root : option Storage)
    (max_messages max_parts : Z) : option TreeFingerprint :=
  let start (b : Buckets) :=
    {| tree_buckets := b; tree_errors := 0; messages_parsed := 0; parts_parsed := 0;
       total_parts_budget := Z.max 0 max_parts |} in
  match session_file with
  | ReadFails =>
      Some
        {| tree_file := session_path; tree_type_counts := ∅; tree_type_keys := ∅;
           message_files_parsed := 0; part_files_parsed := 0; tree_parse_errors := 1;
           warning := None |}
  | ReadJson session_obj =>
      let b :=
        match session_obj with
        | JObj members => _add "session" members no_buckets
        | _ => no_buckets
        end in
      let session_id :=
        match session_obj with
        | JObj members => nonempty_str (obj_get members "id")
        | _ => None
        end in
      match session_id with
      | None => Some (tree_report session_path (start b) 0 0 None)
      | Some session_id =>
          match storage_root with
          | None =>
              Some (tree_report session_path (start b) 0 0 (Some "storage_root_not_found"))
          | Some storage =>
              match message_dirs storage !! session_id with
              | None =>
                  Some (tree_report session_path (start b) 0 0
                          (Some "message_dir_not_found"))
              | Some ExistsRaises => None
              | Some (DirFiles msg_files) =>
                  let msg_budget := Z.to_nat (Z.max 0 max_messages) in
                  st ← scan_messages storage (start b) (take msg_budget msg_files);
                  Some (tree_report session_path st (messages_parsed st)
                          (parts_parsed st) None)
              end
          end
      end
  end.

(** ** [agent_watch.py]: looking for a type, and the Gemini session *)

(** The loop of [_jsonl_contains_any_type], entered with the current value
    of [lines_seen]. *)
Fixpoint contains_type_loop (lines : list Line) (required_types : gset string)
    (max_lines lines_seen : Z) : bool :=
  match lines with
  | [] => false
  | line :: rest =>
      if is_blank line then contains_type_loop rest required_types max_lines lines_seen
      else
        let lines_seen := (lines_seen + 1)%Z in
        if (lines_seen >? max_lines)%Z then false
        else
          match line with
          | JsonLine (JObj obj) =>
              match obj_get obj "type" with
              | JStr t =>
                  if bool_decide (t ∈ required_types) then true
                  else contains_type_loop rest required_types max_lines lines_seen
              | _ => contains_type_loop rest required_types max_lines lines_seen
              end
          | _ => contains_type_loop rest required_types max_lines lines_seen
          end
  end.

(** [content] is [None] when opening or reading the file raises [OSError]. *)
Definition _jsonl_contains_any_type (content : option (list Line))
    (required_types : gset string) (max_lines : Z) : bool :=
  match content with
  | Some lines => contains_type_loop lines required_types max_lines 0
  | None => false
  end.

Record GeminiFingerprint := {
  gemini_file : string;
  gemini_type_counts : gmap string nat;
  gemini_type_keys : gmap string (list string);
  parsed_messages : nat;
  gemini_parse_errors : nat;
}.

(** Body of [for item in ...[: max(0, int(max_messages))]], on the buckets
    and [parsed_messages]. *)
Definition gemini_item (acc : Buckets * nat) (item : Json) : Buckets * nat :=
  match item with
  | JObj members =>
      let event_type := default "<missing-type>" (nonempty_str (obj_get members "type")) in
      (_add event_type members acc.1, S acc.2)
  | _ => acc
  end.

Definition _gemini_session_json_schema_fingerprint (path : string) (file : FileRead)
    (max_messages : Z) : GeminiFingerprint :=
  let result (acc : Buckets * nat) (errors : nat) :=
    {| gemini_file := path;
       gemini_type_counts := b_type_counts acc.1;
       gemini_type_keys := sorted_type_keys (b_type_keys acc.1);
       parsed_messages := acc.2;
       gemini_parse_errors := errors |} in
  let budget := Z.to_nat (Z.max 0 max_messages) in
  match file with
  | ReadFails =>
      {| gemini_file := path; gemini_type_counts := ∅; gemini_type_keys := ∅;
         parsed_messages := 0; gemini_parse_errors := 1 |}
  | ReadJson (JObj root) =>
      let b := _add "root" root no_buckets in
      match obj_get root "messages" with
      | JArr messages => result (foldl gemini_item (b, 0) (take budget messages)) 0
      | _ => result (b, 0) 0
      end
  | ReadJson (JArr root) => result (foldl gemini_item (no_buckets, 0) (take budget root)) 0
  | ReadJson _ => result (no_buckets, 0) 0
  end.

(** ** [agent_watch.py]: what is reported *)

(** [main]: whether the finding on one agent is reported, from the mode and
    the final severity. *)
Definition actionable (mode : Mode) (severity : string) : bool :=
  if is_weekly mode then negb (String.eqb severity "none")
  else bool_decide (severity ∈ ["medium"; "high"]).

(** ** [agent_watch.py]: keyword hits and versions *)

(** [needle in hay] on strings. *)
Definition is_substring (needle hay : string) : bool :=
  match String.index 0 needle hay with Some _ => true | None => false end.

Section keyword_hits.

(** [str.lower], which Python defines on Unicode text. *)
Variable lower : string → string.

Definition _keyword_hits (text : string) (keywords : list string) : list string :=
  if String.eqb text "" then []
  else
    let lower_text := lower text in
    foldl (λ hits k, if is_substring (lower k) lower_text then hits ++ [k] else hits)
      [] keywords.

End keyword_hits.

(** The dataclass [Semver]; [order=True] compares the fields as a tuple. *)
Record Semver := { major : Z; minor : Z; patch : Z }.

Definition semver_lt (a b : Semver) : bool :=
  (major a <? major b)%Z
  || (major a =? major b)%Z
     && ((minor a <? minor b)%Z
         || (minor a =? minor b)%Z && (patch a <? patch b)%Z).

Section compare_semver.

(** [Semver.parse]: the search of the pattern in the text is outside the
    model. *)
Variable parse : string → option Semver.

Definition _compare_semver (a b : option string) : option Z :=
  match a, b with
  | Some a, Some b =>
      if String.eqb a "" || String.eqb b "" then None
      else
        match parse a, parse b with
        | Some va, Some vb =>
            if semver_lt va vb then Some (-1)%Z
            else if semver_lt vb va then Some 1%Z
            else Some 0%Z
        | _, _ => None
        end
  | _, _ => None
  end.

(** [main]: [upstream_newer_than_verified] and
    [installed_newer_than_verified], from the version found and the
    verified one. *)
Definition newer_than_verified (found verified_semver : option string) : bool :=
  match verified_semver, found with
  | Some v, Some f =>
      if String.eqb v "" || String.eqb f "" then false
      else bool_decide (_compare_semver (Some f) (Some v) = Some 1%Z)
  | _, _ => false
  end.

End compare_semver.

End AgentWatch.


(** ** [scan_tool_formats.py]: balanced braces *)

Module ScanToolFormats.

Import Py.

(** Text as the sequence of its characters; [text[i]] is [text !! i]. *)
Abbreviation text := (list ascii).

Definition dquote : ascii := "034"%char.
Definition backslash : ascii := "092"%char.
Definition lbrace : ascii := "{"%char.
Definition rbrace : ascii := "}"%char.

(** [text[a:b]] for [0 <= a]. *)
Definition slice (t : text) (a b : nat) : text := take (b - a) (drop a t).

(** The loop [for i in range(start, len(text))] of
    [extract_balanced_braces], entered at index [i] with [rest = text[i:]]
    and the current values of [in_string], [escape] and [depth]. *)
Fixpoint scan_braces (t : text) (start i : nat) (rest : text)
    (in_string escape : bool) (depth : Z) : option text :=
  match rest with
  | [] => None
  | ch :: rest =>
      if in_string then
        if escape then scan_braces t start (S i) rest in_string false depth
        else if Ascii.eqb ch backslash then scan_braces t start (S i) rest in_string true depth
        else if Ascii.eqb ch dquote then scan_braces t start (S i) rest false escape depth
        else scan_braces t start (S i) rest in_string escape depth
      else if Ascii.eqb ch dquote then scan_braces t start (S i) rest true escape depth
      else if Ascii.eqb ch lbrace then
        scan_braces t start (S i) rest in_string escape (depth + 1)
      else if Ascii.eqb ch rbrace then
        let depth := (depth - 1)%Z in
        if (depth =? 0)%Z then Some (slice t start (i + 1))
        else scan_braces t start (S i) rest in_string escape depth
      else scan_braces t start (S i) rest in_string escape depth
  end.

(** [start] is an offset into [text], as [extract_text_tool_blocks] computes
    it (a line offset plus the result of a successful [find]). *)
Definition extract_balanced_braces (t : text) (start : nat) : option text :=
  scan_braces t start start (drop start t) false false 0.

(** [text.find(ch)]: the first index of [ch], if any. *)
Definition find_char (ch : ascii) (t : text) : option nat :=
  fst <$> list_find (λ c, c = ch) t.

(** *** The brace depth of the specification *)

(** Where a reader of JSON text stands: outside string literals, inside
    one, or inside one right after a backslash. *)
Inductive Lex := Outside | InString | Escaped.

Definition lex_next (st : Lex) (ch : ascii) : Lex :=
  match st with
  | Outside => if Ascii.eqb ch dquote then InString else Outside
  | InString =>
      if Ascii.eqb ch backslash then Escaped
      else if Ascii.eqb ch dquote then Outside
      else InString
  | Escaped => InString
  end.

(** The characters of [s] that stand outside string literals (the quotes
    that delimit a literal belong to it), reading from state [st]. *)
Fixpoint structural (st : Lex) (s : text) : text :=
  match s with
  | [] => []
  | ch :: s =>
      match st with
      | Outside =>
          if Ascii.eqb ch dquote then structural InString s
          else ch :: structural Outside s
      | _ => structural (lex_next st ch) s
      end
  end.

Definition count_char (ch : ascii) (s : text) : Z :=
  Z.of_nat (length (filter (λ c, c = ch) s)).

(** Opening minus closing braces among the structural characters. *)
Definition depth_from (st : Lex) (s : text) : Z :=
  (count_char lbrace (structural st s) - count_char rbrace (structural st s))%Z.

Definition brace_depth (s : text) : Z := depth_from Outside s.

(** The depth is back at zero once [text[start .. i]] has been read. *)
Definition closes_at (t : text) (start i : nat) : Prop :=
  start ≤ i < length t ∧ brace_depth (slice t start (i + 1)) = 0%Z.

(** ** [scan_tool_formats.py]: names *)

Definition code (c : ascii) : nat := nat_of_ascii c.

Definition in_range (lo hi : nat) (c : ascii) : bool :=
  (lo <=? code c)%nat && (code c <=? hi)%nat.

Definition is_lower : ascii → bool := in_range 97 122.
Definition is_upper : ascii → bool := in_range 65 90.
Definition is_digit : ascii → bool := in_range 48 57.

(** [str.isspace] on ASCII. *)
Definition is_space (c : ascii) : bool :=
  in_range 9 13 c || in_range 28 32 c.

Definition underscore : ascii := "_"%char.

Definition to_lower (c : ascii) : ascii :=
  if is_upper c then ascii_of_nat (code c + 32) else c.

Fixpoint lstrip (p : ascii → bool) (s : text) : text :=
  match s with
  | c :: rest => if p c then lstrip p rest else s
  | [] => []
  end.

(** [s.strip()] and [s.strip(chars)]. *)
Definition strip (p : ascii → bool) (s : text) : text :=
  reverse (lstrip p (reverse (lstrip p s))).

(** [re.sub(r"([a-z0-9])([A-Z])", r"\1_\2", s)]. *)
Fixpoint camel_to_snake (s : text) : text :=
  match s with
  | a :: ((b :: rest) as tail) =>
      if (is_lower a || is_digit a) && is_upper b
      then a :: underscore :: b :: camel_to_snake rest
      else a :: camel_to_snake tail
  | _ => s
  end.

(** The four [replace] calls. *)
Definition unify_delimiter (c : ascii) : ascii :=
  if Ascii.eqb c "-" || Ascii.eqb c " " || Ascii.eqb c "." || Ascii.eqb c "/"
  then underscore else c.

(** [re.sub(r"_+", "_", s)]. *)
Fixpoint squeeze_underscores (s : text) : text :=
  match s with
  | a :: ((b :: _) as tail) =>
      if Ascii.eqb a underscore && Ascii.eqb b underscore
      then squeeze_underscores tail
      else a :: squeeze_underscores tail
  | _ => s
  end.

Definition is_token_char (c : ascii) : bool :=
  is_lower c || is_digit c || Ascii.eqb c underscore.

Definition normalize_token (value : string) : string :=
  let s := strip is_space (list_ascii_of_string value) in
  if is_nil s then ""
  else
    let s := camel_to_snake s in
    let s := unify_delimiter <$> s in
    let s := to_lower <$> s in
    let s := List.filter is_token_char s in
    let s := strip (λ c, Ascii.eqb c underscore) (squeeze_underscores s) in
    string_of_list_ascii s.

(** [x or y] on strings. *)
Definition str_or (x y : string) : string := if String.eqb x "" then y else x.

Definition normalize_tool_name (name : option string) : string :=
  match name with
  | None => "unknown"
  | Some name =>
      if String.eqb name "" then "unknown"
      else str_or (normalize_token name) "unknown"
  end.

Definition normalize_field_name (name : string) : string :=
  str_or (normalize_token name)
    (string_of_list_ascii (to_lower <$> strip is_space (list_ascii_of_string name))).

(** ** [scan_tool_formats.py]: groups and shapes *)

Definition MAX_TEXT_EVENT_LEN : nat := 2000.
Definition MAX_EXAMPLE_CHARS : nat := 800.

Record Example := {
  ex_agent_family : string;
  ex_source_file : string;
  ex_event_index : option nat;
  ex_direction : string;
  ex_tool_name : option string;
  ex_shape_signature : string;
  ex_field_path : option string;
  raw_event : string;
  raw_payload : option string;
  parsed_payload : Json;
  parse_error : option string;
}.

Record GroupStats := {
  agent_family : string;
  tool_name_normalized : string;
  shape_signature : string;
  direction : string;
  count : nat;
  parse_success : nat;
  tool_name_variants : gset string;
  fields_seen : gset string;
  field_variants : gmap string (gset string);
  examples : list Example;
}.

Record ShapeStats := {
  sh_shape_signature : string;
  sh_count : nat;
  agents : gset string;
  directions : gmap string nat;
  sh_examples : list Example;
}.

(** The key of a group: agent family, normalized tool name, shape
    signature and direction. *)
Abbreviation GroupKey := (string * string * string * string)%type.

Definition example_is_too_large (example : Example) : bool :=
  (MAX_EXAMPLE_CHARS <? String.length (raw_event example))%nat
  || match raw_payload example with
     | Some p => (MAX_EXAMPLE_CHARS <? String.length p)%nat
     | None => false
     end.

(** The bounded append shared by [add_group_example] and
    [add_shape_example]. *)
Definition add_example (held : list Example) (example : Example) (max_examples : Z)
    : list Example :=
  if (max_examples <=? Z.of_nat (length held))%Z then held
  else if example_is_too_large example then held
  else held ++ [example].

Definition add_group_example (group : GroupStats) (example : Example) (max_examples : Z)
    : GroupStats :=
  {| agent_family := agent_family group;
     tool_name_normalized := tool_name_normalized group;
     shape_signature := shape_signature group;
     direction := direction group;
     count := count group;
     parse_success := parse_success group;
     tool_name_variants := tool_name_variants group;
     fields_seen := fields_seen group;
     field_variants := field_variants group;
     examples := add_example (examples group) example max_examples |}.

Definition add_shape_example (shape : ShapeStats) (example : Example) (max_examples : Z)
    : ShapeStats :=
  {| sh_shape_signature := sh_shape_signature shape;
     sh_count := sh_count shape;
     agents := agents shape;
     directions := directions shape;
     sh_examples := add_example (sh_examples shape) example max_examples |}.

(** Body of [for field_name in fields] in [record_fields], on the pair
    [(fields_seen, field_variants)]. *)
Definition record_field (acc : gset string * gmap string (gset string))
    (field_name : string) : gset string * gmap string (gset string) :=
  if String.eqb field_name "" then acc
  else
    let norm := normalize_field_name field_name in
    ({[ norm ]} ∪ acc.1,
     <[norm := default ∅ (acc.2 !! norm) ∪ {[ field_name ]}]> acc.2).

Definition record_fields (group : GroupStats) (fields : list string) : GroupStats :=
  let acc := foldl record_field (fields_seen group, field_variants group) fields in
  {| agent_family := agent_family group;
     tool_name_normalized := tool_name_normalized group;
     shape_signature := shape_signature group;
     direction := direction group;
     count := count group;
     parse_success := parse_success group;
     tool_name_variants := tool_name_variants group;
     fields_seen := acc.1;
     field_variants := acc.2;
     examples := examples group |}.

Definition is_none_json (v : Json) : bool :=
  match v with JNull => true | _ => false end.

Definition add_tool_block
    (groups : gmap GroupKey GroupStats) (shapes : gmap string ShapeStats)
    (agent : string) (tool_name : option string) (direction shape_signature : string)
    (raw_event : string) (raw_payload : option string) (parsed_payload : Json)
    (parse_error field_path : option string) (fields : list string)
    (source_file : string) (event_index : option nat)
    (max_examples_per_group max_examples_per_shape : Z)
    : gmap GroupKey GroupStats * gmap string ShapeStats :=
  let tool_norm := normalize_tool_name tool_name in
  let key : GroupKey := (agent, tool_norm, shape_signature, direction) in
  let group :=
    match groups !! key with
    | Some group => group
    | None =>
        {| agent_family := agent; tool_name_normalized := tool_norm;
           shape_signature := shape_signature; direction := direction;
           count := 0; parse_success := 0; tool_name_variants := ∅;
           fields_seen := ∅; field_variants := ∅; examples := [] |}
    end in
  let group :=
    {| agent_family := agent_family group;
       tool_name_normalized := tool_name_normalized group;
       shape_signature := ScanToolFormats.shape_signature group;
       direction := ScanToolFormats.direction group;
       count := S (count group);
       parse_success :=
         if is_none_json parsed_payload then parse_success group
         else S (parse_success group);
       tool_name_variants :=
         match tool_name with
         | Some n => if String.eqb n "" then tool_name_variants group
                     else {[ n ]} ∪ tool_name_variants group
         | None => tool_name_variants group
         end;
       fields_seen := fields_seen group;
       field_variants := field_variants group;
       examples := examples group |} in
  let group := record_fields group fields in
  let example :=
    {| ex_agent_family := agent; ex_source_file := source_file;
       ex_event_index := event_index; ex_direction := direction;
       ex_tool_name := tool_name; ex_shape_signature := shape_signature;
       ex_field_path := field_path; raw_event := raw_event;
       raw_payload := raw_payload; parsed_payload := parsed_payload;
       parse_error := parse_error |} in
  let group := add_group_example group example max_examples_per_group in
  let groups := <[key := group]> groups in
  let shape :=
    match shapes !! shape_signature with
    | Some shape => shape
    | None =>
        {| sh_shape_signature := shape_signature; sh_count := 0; agents := ∅;
           directions := ∅; sh_examples := [] |}
    end in
  let shape :=
    {| sh_shape_signature := sh_shape_signature shape;
       sh_count := S (sh_count shape);
       agents := {[ agent ]} ∪ agents shape;
       directions :=
         <[direction := S (default 0 (directions shape !! direction))]> (directions shape);
       sh_examples := sh_examples shape |} in
  let shape := add_shape_example shape example max_examples_per_shape in
  (groups, <[shape_signature := shape]> shapes).

(** ** [scan_tool_formats.py]: scanning a file *)

(** A block as the per-agent extractors return it: direction, tool name,
    payload, shape, fields and field path. *)
Abbreviation ToolBlock :=
  (string * option string * Json * string * list string * option string)%type.

(** The record-level helpers that [scan_jsonl_file] calls.  They decode and
    encode JSON and match text; the scan uses them as functions of their
    arguments. *)
Class RecordHelpers := {
  codex_tool_blocks : Json → string → list ToolBlock;
  claude_tool_blocks : Json → string → list ToolBlock;
  copilot_tool_blocks : Json → string → list ToolBlock;
  droid_tool_blocks : Json → string → list ToolBlock;
  parse_payload : Json → option string * Json * option string * list string;
  text_candidates : Json → list (string * string);
  extract_text_tool_blocks : string → string → list (string * string * string);
  infer_direction_from_payload : Json → string;
}.

Abbreviation Catalog := (gmap GroupKey GroupStats * gmap string ShapeStats)%type.

Section scan.
Context `{RecordHelpers}.

(** The per-agent dispatch at the head of the loop body. *)
Definition agent_tool_blocks (agent : string) (obj : Json) (raw : string) : list ToolBlock :=
  if String.eqb agent "codex" then codex_tool_blocks obj raw
  else if String.eqb agent "claude" then claude_tool_blocks obj raw
  else if String.eqb agent "copilot" then copilot_tool_blocks obj raw
  else if String.eqb agent "droid" then droid_tool_blocks obj raw
  else [].

(** Body of [for direction, tool_name, payload, shape, fields, field_path in blocks]. *)
Definition scan_block (agent path : string) (idx : nat) (raw : string)
    (max_examples_per_group max_examples_per_shape : Z)
    (cat : Catalog) (block : ToolBlock) : Catalog :=
  let '(direction, tool_name, payload, shape, fields, field_path) := block in
  let '(raw_payload, parsed_payload, parse_error, payload_fields) := parse_payload payload in
  let use_fields := if is_nil fields then payload_fields else fields in
  add_tool_block cat.1 cat.2 agent tool_name direction shape raw raw_payload
    parsed_payload parse_error field_path use_fields path (Some idx)
    max_examples_per_group max_examples_per_shape.

(** Body of [for tool_name, raw_json, shape in extract_text_tool_blocks(...)]. *)
Definition scan_text_block (agent path : string) (idx : nat) (field_path text : string)
    (max_examples_per_group max_examples_per_shape : Z)
    (cat : Catalog) (found : string * string * string) : Catalog :=
  let '(tool_name, raw_json, shape) := found in
  let '(raw_payload, parsed_payload, parse_error, payload_fields) :=
    parse_payload (JStr raw_json) in
  let direction := infer_direction_from_payload parsed_payload in
  add_tool_block cat.1 cat.2 agent (Some tool_name) direction shape text raw_payload
    parsed_payload parse_error (Some field_path) payload_fields path (Some idx)
    max_examples_per_group max_examples_per_shape.

(** Body of [for field_path, text in text_candidates(obj)]. *)
Definition scan_text (agent path : string) (idx : nat)
    (max_examples_per_group max_examples_per_shape : Z)
    (cat : Catalog) (candidate : string * string) : Catalog :=
  let '(field_path, text) := candidate in
  if (MAX_TEXT_EVENT_LEN <? String.length text)%nat then cat
  else
    foldl (scan_text_block agent path idx field_path text
             max_examples_per_group max_examples_per_shape)
      cat (extract_text_tool_blocks text field_path).

(** Body of [for idx, obj, raw in iter_jsonl_with_raw(path)]. *)
Definition scan_record (agent path : string)
    (max_examples_per_group max_examples_per_shape : Z)
    (cat : Catalog) (record : nat * Json * string) : Catalog :=
  let '(idx, obj, raw) := record in
  let cat :=
    foldl (scan_block agent path idx raw max_examples_per_group max_examples_per_shape)
      cat (agent_tool_blocks agent obj raw) in
  foldl (scan_text agent path idx max_examples_per_group max_examples_per_shape)
    cat (text_candidates obj).

(** [records] are the triples that [iter_jsonl_with_raw(path)] yields. *)
Definition scan_jsonl_file (agent path : string) (records : list (nat * Json * string))
    (groups : gmap GroupKey GroupStats) (shapes : gmap string ShapeStats)
    (max_examples_per_group max_examples_per_shape : Z) : Catalog :=
  foldl (scan_record agent path max_examples_per_group max_examples_per_shape)
    (groups, shapes) records.

(** [main]: the loop over the JSONL files of one agent, each file given by
    its path and its records. *)
Definition scan_files (agent : string)
    (files : list (string * list (nat * Json * string)))
    (max_examples_per_group max_examples_per_shape : Z) (cat : Catalog) : Catalog :=
  foldl (λ cat file,
           scan_jsonl_file agent file.1 file.2 cat.1 cat.2
             max_examples_per_group max_examples_per_shape)
    cat files.

(** The keys of the groups with their counts. *)
Definition group_counts (cat : Catalog) : gmap GroupKey nat := count <$> cat.1.

End scan.

(** ** [scan_tool_formats.py]: the direction of a payload *)

(** The function that [scan_jsonl_file] receives as the helper of the same
    name. *)
Module Payload.

Definition output_keys : gset string :=
  list_to_set ["stdout"; "stderr"; "output"; "result"; "exitcode"; "exit_code"; "exit";
               "exitstatus"; "is_error"; "error"].

Definition input_keys : gset string :=
  list_to_set ["command"; "commands"; "args"; "arguments"; "input"; "parameters";
               "query"; "path"; "paths"; "cwd"; "directory"].

Definition infer_direction_from_payload (parsed_payload : Json) : string :=
  match parsed_payload with
  | JObj members =>
      let keys : gset string := list_to_set (normalize_field_name <$> obj_keys members) in
      if bool_decide (keys ∩ output_keys ≠ ∅) then "output"
      else if bool_decide (keys ∩ input_keys ≠ ∅) then "input"
      else "unknown"
  | _ => "unknown"
  end.

End Payload.

(** ** [scan_tool_formats.py]: the items of an array in JSON text *)

Definition lbracket : ascii := "["%char.
Definition rbracket : ascii := "]"%char.
Definition comma : ascii := ","%char.

(** The loop [for i in range(start_index, len(text))] of
    [split_json_array_items], entered at index [i] with [rest = text[i:]]
    and the current values of the local variables. *)
Fixpoint split_items (t : text) (i : nat) (rest : text) (in_string escape : bool)
    (depth : Z) (item_start : option nat) (items : list text) : list text :=
  match rest with
  | [] => items
  | ch :: rest =>
      if in_string then
        if escape then split_items t (S i) rest in_string false depth item_start items
        else if Ascii.eqb ch backslash then
          split_items t (S i) rest in_string true depth item_start items
        else if Ascii.eqb ch dquote then
          split_items t (S i) rest false escape depth item_start items
        else split_items t (S i) rest in_string escape depth item_start items
      else if Ascii.eqb ch dquote then
        split_items t (S i) rest true escape depth item_start items
      else
        let depth := if Ascii.eqb ch lbracket then (depth + 1)%Z else depth in
        if Ascii.eqb ch lbracket && (depth =? 1)%Z then
          split_items t (S i) rest in_string escape depth item_start items
        else
          match Ascii.eqb ch rbracket && (depth =? 1)%Z, item_start with
          | true, Some s => items ++ [strip is_space (slice t s i)]
          | _, _ =>
              let depth := if Ascii.eqb ch rbracket then (depth - 1)%Z else depth in
              if (depth =? 1)%Z then
                if Ascii.eqb ch comma then
                  match item_start with
                  | Some s =>
                      split_items t (S i) rest in_string escape depth None
                        (items ++ [strip is_space (slice t s i)])
                  | None => split_items t (S i) rest in_string escape depth item_start items
                  end
                else if negb (is_space ch) then
                  match item_start with
                  | None => split_items t (S i) rest in_string escape depth (Some i) items
                  | Some _ =>
                      split_items t (S i) rest in_string escape depth item_start items
                  end
                else split_items t (S i) rest in_string escape depth item_start items
              else split_items t (S i) rest in_string escape depth item_start items
          end
  end.

Definition split_json_array_items (t : text) (start_index : nat) : list text :=
  split_items t start_index (drop start_index t) false false 0 None [].

End ScanToolFormats.


(** * Vocabulary of the statements *)

Import Py AgentWatch ScanToolFormats.

(** Keys of [t] seen in [x] and not in [y], as the loop computes them. *)
Definition extra_keys (x y : gmap string (list string)) (t : string) : list string :=
  sorted (set_of (get_list x t) ∖ set_of (get_list y t)).

Definition baseline_example : gmap string (list string) :=
  {[ "message.user" := ["content"; "role"] ]}.

Definition observed_example : gmap string (list string) :=
  {[ "message.user" := ["attachments"; "content"; "role"] ]}.

(** The inputs of the specification's rule list, read off the arguments of
    [_pick_severity]. *)
Definition severity_inputs
    (upstream_newer_than_verified installed_newer_than_verified monitoring_failed : bool)
    (schema_hits usage_hits : list string)
    (probe_failed probe_failed_but_upstream_degraded : bool) : SeverityInputs :=
  {| in_monitoring_failed := monitoring_failed;
     in_probe_failed := probe_failed;
     in_probe_failed_but_upstream_degraded := probe_failed_but_upstream_degraded;
     in_upstream_newer_than_verified := upstream_newer_than_verified;
     in_installed_newer_than_verified := installed_newer_than_verified;
     in_schema_or_usage_keyword_hits :=
       negb (is_nil schema_hits) || negb (is_nil usage_hits) |}.

Definition severities : list string := ["none"; "low"; "medium"; "high"].

Definition recommendations : list string :=
  ["ignore"; "monitor"; "run_weekly_now"; "bump_verified_version"; "prepare_hotfix"].

(** The keys a line adds: the bucket of its type and the keys of its object. *)
Definition line_keys (tk : gmap string (gset string)) (raw : Line)
    : gmap string (gset string) :=
  match raw with
  | JsonLine (JObj obj) =>
      let t := default "<missing-type>" (nonempty_str (obj_get obj "type")) in
      <[t := default ∅ (tk !! t) ∪ set_of (obj_keys obj)]> tk
  | _ => tk
  end.

Definition user_line : Line :=
  JsonLine (JObj [("type", JStr "user"); ("text", JStr "hi")]).

Definition tool_line : Line :=
  JsonLine (JObj [("type", JStr "tool_call"); ("name", JStr "ls")]).





Definition session_example : list (string * Json) :=
  [("id", JStr "ses_42"); ("title", JStr "notes")].

(** The text [tool_name {"a": "b{c}", "d": 1}]. *)
Definition tool_text : text :=
  list_ascii_of_string "tool_name {" ++ [dquote] ++ list_ascii_of_string "a"
  ++ [dquote] ++ list_ascii_of_string ": " ++ [dquote]
  ++ list_ascii_of_string "b{c}" ++ [dquote] ++ list_ascii_of_string ", "
  ++ [dquote] ++ list_ascii_of_string "d" ++ [dquote]
  ++ list_ascii_of_string ": 1}".

(** The object [{"a": "b{c}", "d": 1}]. *)
Definition tool_object : text :=
  [lbrace; dquote] ++ list_ascii_of_string "a" ++ [dquote]
  ++ list_ascii_of_string ": " ++ [dquote] ++ list_ascii_of_string "b{c}"
  ++ [dquote] ++ list_ascii_of_string ", " ++ [dquote]
  ++ list_ascii_of_string "d" ++ [dquote] ++ list_ascii_of_string ": 1}".

(** What a match cut at the first [}] of the text would be: the object up
    to and including the [}] of its first string value. *)
Definition truncated_object : text :=
  [lbrace; dquote] ++ list_ascii_of_string "a" ++ [dquote]
  ++ list_ascii_of_string ": " ++ [dquote] ++ list_ascii_of_string "b{c}".

(** The change of depth a character causes in state [st]. *)
Definition delta (st : Lex) (ch : ascii) : Z :=
  match st with
  | Outside =>
      if Ascii.eqb ch dquote then 0
      else if Ascii.eqb ch lbrace then 1
      else if Ascii.eqb ch rbrace then -1
      else 0
  | _ => 0
  end%Z.

(** The state of the specification that the flags of the loop stand for. *)
Definition lex_of (in_string escape : bool) : Lex :=
  if in_string then (if escape then Escaped else InString) else Outside.

(** Counting one more block under key [k]. *)
Definition bump (m : gmap GroupKey nat) (k : GroupKey) : gmap GroupKey nat :=
  <[k := S (default 0 (m !! k))]> m.

(** The key under which a structured block is counted. *)
Definition block_key (agent : string) (block : ToolBlock) : GroupKey :=
  let '(direction, tool_name, _, shape, _, _) := block in
  (agent, normalize_tool_name tool_name, shape, direction).

Section keys.
Context `{RecordHelpers}.

(** The key under which a block found in text is counted. *)
Definition text_block_key (agent : string) (found : string * string * string) : GroupKey :=
  let '(tool_name, raw_json, shape) := found in
  (agent, normalize_tool_name (Some tool_name), shape,
   infer_direction_from_payload (parse_payload (JStr raw_json)).1.1.2).

Definition text_keys (agent : string) (candidate : string * string) : list GroupKey :=
  if (MAX_TEXT_EVENT_LEN <? String.length candidate.2)%nat then []
  else text_block_key agent <$> extract_text_tool_blocks candidate.2 candidate.1.

(** The keys one record is counted under: a function of the agent, the
    decoded object and the raw line only. *)
Definition record_keys (agent : string) (content : Json * string) : list GroupKey :=
  (block_key agent <$> agent_tool_blocks agent content.1 content.2)
  ++ (text_candidates content.1 ≫= text_keys agent).

End keys.

Definition content_of (record : nat * Json * string) : Json * string :=
  (record.1.2, record.2).

(** All records of a list of files, without their positions. *)
Definition contents_of (files : list (string * list (nat * Json * string)))
    : list (Json * string) :=
  files ≫= (λ file, content_of <$> file.2).

(** *** An instance of the helpers: Droid records *)

(** Truth value of a decoded value. *)
Definition truthy (v : Json) : bool :=
  match v with
  | JNull => false
  | JBool b => b
  | JNum n => negb (n =? 0)%Z
  | JStr s => negb (String.eqb s "")
  | JArr items => negb (is_nil items)
  | JObj members => negb (is_nil members)
  end.

(** [a or b]. *)
Definition py_or (a b : Json) : Json := if truthy a then a else b.

(** [(v or "").lower()] where [v] is a string or falsy. *)
Definition lower_or_empty (v : Json) : string :=
  match py_or v (JStr "") with
  | JStr s => string_of_list_ascii (to_lower <$> list_ascii_of_string s)
  | _ => ""
  end.

(** A tool name that is a string, as [add_tool_block] expects it. *)
Definition name_of (v : Json) : option string :=
  match v with JStr s => Some s | _ => None end.

(** Body of [for item in content] in [droid_tool_blocks]. *)
Definition droid_content_item (item : Json) : list ToolBlock :=
  match item with
  | JObj members =>
      let item_type := lower_or_empty (obj_get members "type") in
      if String.eqb item_type "tool_use" || String.eqb item_type "tool_call" then
        [("input", name_of (py_or (obj_get members "name") (obj_get members "tool")),
          obj_get members "input", "jsonl:message.content[].type=tool_use",
          obj_keys members, Some "message.content[]")]
      else if String.eqb item_type "tool_result" then
        [("output", None, obj_get members "content",
          "jsonl:message.content[].type=tool_result",
          obj_keys members, Some "message.content[]")]
      else []
  | _ => []
  end.

(** [droid_tool_blocks] on records whose [type] and tool names are strings
    or absent (on others the source raises). *)
Definition droid_events (obj : Json) (raw : string) : list ToolBlock :=
  match obj with
  | JObj members =>
      let t := lower_or_empty (obj_get members "type") in
      let tool_name :=
        name_of (py_or (obj_get members "toolName") (obj_get members "tool")) in
      (if String.eqb t "tool_call" then
         [("input", tool_name,
           py_or (obj_get members "parameters") (obj_get members "input"),
           "jsonl:type=tool_call", obj_keys members, Some "type")]
       else [])
      ++ (if String.eqb t "tool_result" then
            [("output", tool_name,
              py_or (py_or (obj_get members "value") (obj_get members "result"))
                (obj_get members "output"),
              "jsonl:type=tool_result", obj_keys members, Some "type")]
          else [])
      ++ match obj_get members "message" with
         | JObj msg =>
             match obj_get msg "content" with
             | JArr content => content ≫= droid_content_item
             | _ => []
             end
         | _ => []
         end
  | _ => []
  end.

(** The Droid extractor, payloads kept as they are decoded, and no tool
    blocks in free text. *)
#[local] Instance droid_helpers : RecordHelpers := {|
  codex_tool_blocks := λ _ _, [];
  claude_tool_blocks := λ _ _, [];
  copilot_tool_blocks := λ _ _, [];
  droid_tool_blocks := droid_events;
  parse_payload := λ payload, (None, payload, None, []);
  text_candidates := λ _, [];
  extract_text_tool_blocks := λ _ _, [];
  infer_direction_from_payload := λ _, "unknown";
|}.

Definition call_record (idx : nat) (tool : string) : nat * Json * string :=
  (idx, JObj [("type", JStr "tool_call"); ("toolName", JStr tool)], "").

Definition result_record (idx : nat) (tool : string) : nat * Json * string :=
  (idx, JObj [("type", JStr "tool_result"); ("toolName", JStr tool)], "").

(** An assistant message with a [tool_use] content item. *)
Definition message_record (idx : nat) (tool : string) : nat * Json * string :=
  (idx,
   JObj [("type", JStr "message");
         ("message",
          JObj [("content",
                 JArr [JObj [("type", JStr "text"); ("text", JStr "ok")];
                       JObj [("type", JStr "tool_use"); ("name", JStr tool);
                             ("input", JObj [("command", JStr "ls")])]])])],
   "").

Definition droid_files : list (string * list (nat * Json * string)) :=
  [ ("a.jsonl", [call_record 0 "readFile"; result_record 1 "readFile"]);
    ("b.jsonl", [call_record 0 "read-file"; message_record 1 "Bash";
                 call_record 2 "Bash"]) ].

(** A storage root with one session of two messages, the first with
    three part files (one of them undecodable). *)
Definition storage_example : Storage :=
  {| message_dirs :=
       {[ "ses_42" :=
            DirFiles
              [ ReadJson (JObj [("id", JStr "msg_1"); ("role", JStr "user")]);
                ReadJson (JObj [("id", JStr "msg_2"); ("role", JStr "assistant");
                                ("tokens", JNum 12)]) ] ]};
     part_dirs :=
       {[ "msg_1" :=
            DirFiles
              [ ReadJson (JObj [("type", JStr "text"); ("text", JStr "hi")]);
                ReadFails;
                ReadJson (JObj [("type", JStr "tool"); ("tool", JStr "bash")]) ] ]} |}.

(** An object whose string value holds an escaped quote and a closing
    brace, followed by the word tail. *)
Definition escaped_text : text :=
  [lbrace; dquote] ++ list_ascii_of_string "a" ++ [dquote]
  ++ list_ascii_of_string ": " ++ [dquote] ++ list_ascii_of_string "x"
  ++ [backslash; dquote; rbrace; dquote; rbrace] ++ list_ascii_of_string " tail".

(** *** Measures and invariants *)

Section measures.
Local Open Scope nat_scope.

(** The non-blank lines of a file. *)
Definition non_blank (content : list Line) : list Line :=
  filter (λ l, is_blank l = false) content.

(** The last [n] elements of a list. *)
Definition last_n {A} (n : nat) (l : list A) : list A := drop (length l - n) l.

(** The sum of the counts of a dict. *)
Definition sum_counts `{Countable K} (m : gmap K nat) : nat :=
  map_fold (λ _ n acc, n + acc) 0 m.

Definition is_object_line (l : Line) : bool :=
  match l with JsonLine (JObj _) => true | _ => false end.

Definition is_error_line (l : Line) : bool :=
  match l with BadLine | BlankLine => true | _ => false end.

(** What every scan keeps true of its buckets: the two dicts have the same
    types, and every count is at least one. *)
Definition buckets_ok (b : Buckets) : Prop :=
  dom (b_type_counts b) = dom (b_type_keys b)
  ∧ ∀ t n, b_type_counts b !! t = Some n → 1 ≤ n.

(** The object lines with a string [type] among the required ones. *)
Definition has_required_type (required_types : gset string) (line : Line) : Prop :=
  ∃ obj t, line = JsonLine (JObj obj) ∧ obj_get obj "type" = JStr t ∧ t ∈ required_types.

Definition is_object (v : Json) : bool :=
  match v with JObj _ => true | _ => false end.

(** One when the file decoded to an object, zero otherwise. *)
Definition object_read (file : FileRead) : nat :=
  match file with
  | ReadJson (JObj _) => 1
  | _ => 0
  end.

(** What the scan of messages and parts keeps true, [n] message files and a
    budget of [parts] part files into it. *)
Definition tree_within (n : nat) (parts : Z) (base : nat) (st : TreeState) : Prop :=
  (0 ≤ total_parts_budget st)%Z
  ∧ messages_parsed st ≤ n
  ∧ (Z.of_nat (parts_parsed st) + total_parts_budget st ≤ parts)%Z
  ∧ (Z.of_nat (messages_parsed st + parts_parsed st + tree_errors st)
     + total_parts_budget st ≤ Z.of_nat n + parts)%Z
  ∧ buckets_ok (tree_buckets st)
  ∧ sum_counts (b_type_counts (tree_buckets st))
    = base + messages_parsed st + parts_parsed st.

(** No check of the existence of a directory of the storage raises. *)
Definition checks_answer (storage : Storage) : Prop :=
  ∀ name, message_dirs storage !! name ≠ Some ExistsRaises
          ∧ part_dirs storage !! name ≠ Some ExistsRaises.

(** The shape of a normalized token: characters of [[a-z0-9_]], no
    underscore at either end, no two underscores in a row. *)
Definition token_shaped (s : text) : Prop :=
  Forall (λ c, is_token_char c = true) s
  ∧ head s ≠ Some underscore
  ∧ last s ≠ Some underscore
  ∧ ∀ a b, s ≠ a ++ [underscore; underscore] ++ b.

(** An example a group under [key] may hold: not oversized, and taken from
    a block counted under [key]. *)
Definition example_fits (key : GroupKey) (e : Example) : Prop :=
  example_is_too_large e = false
  ∧ (ex_agent_family e, normalize_tool_name (ex_tool_name e), ex_shape_signature e,
     ex_direction e) = key.

(** What holds of a group kept under [key], also before its first block is
    counted. *)
Definition group_wf (max_examples : Z) (key : GroupKey) (g : GroupStats) : Prop :=
  (agent_family g, tool_name_normalized g, shape_signature g, direction g) = key
  ∧ (parse_success g ≤ count g)%nat
  ∧ fields_seen g = dom (field_variants g)
  ∧ (∀ norm variants, field_variants g !! norm = Some variants →
       variants ≠ ∅ ∧ ∀ f, f ∈ variants → f ≠ "" ∧ normalize_field_name f = norm)
  ∧ (∀ n, n ∈ tool_name_variants g →
       n ≠ "" ∧ normalize_tool_name (Some n) = tool_name_normalized g)
  ∧ (length (examples g) ≤ Z.to_nat max_examples)%nat
  ∧ (length (examples g) ≤ count g)%nat
  ∧ Forall (example_fits key) (examples g).

Definition group_ok (max_examples : Z) (key : GroupKey) (g : GroupStats) : Prop :=
  (1 ≤ count g)%nat ∧ group_wf max_examples key g.

(** What holds of a shape kept under [sig], also before its first block. *)
Definition shape_wf (max_examples : Z) (sig : string) (sh : ShapeStats) : Prop :=
  sh_shape_signature sh = sig
  ∧ sh_count sh = sum_counts (directions sh)
  ∧ (∀ d n, directions sh !! d = Some n → 1 ≤ n)%nat
  ∧ (length (sh_examples sh) ≤ Z.to_nat max_examples)%nat
  ∧ (length (sh_examples sh) ≤ sh_count sh)%nat
  ∧ Forall (λ e, example_is_too_large e = false ∧ ex_shape_signature e = sig
                 ∧ ex_agent_family e ∈ agents sh) (sh_examples sh).

Definition shape_ok (max_examples : Z) (sig : string) (sh : ShapeStats) : Prop :=
  (1 ≤ sh_count sh)%nat ∧ agents sh ≠ ∅ ∧ shape_wf max_examples sig sh.

(** The catalog of one agent: every group and every shape is well formed,
    the groups count as many blocks as the shapes, and the shape of a group
    knows its agent and counts its direction at least as often. *)
Definition catalog_ok (agent : string) (mg ms : Z) (cat : Catalog) : Prop :=
  (∀ key g, cat.1 !! key = Some g → key.1.1.1 = agent ∧ group_ok mg key g)
  ∧ (∀ sig sh, cat.2 !! sig = Some sh → shape_ok ms sig sh)
  ∧ sum_counts (count <$> cat.1) = sum_counts (sh_count <$> cat.2)
  ∧ (∀ key g, cat.1 !! key = Some g →
       ∃ sh, cat.2 !! key.1.2 = Some sh
             ∧ key.1.1.1 ∈ agents sh
             ∧ (count g ≤ default 0 (directions sh !! key.2))%nat).

(** A stand-in for [Semver.parse] on three version strings. *)
Definition parse_example (s : string) : option Semver :=
  if String.eqb s "2.0.0" then Some {| major := 2; minor := 0; patch := 0 |}
  else if String.eqb s "1.10.0" then Some {| major := 1; minor := 10; patch := 0 |}
  else if String.eqb s "1.2.3" then Some {| major := 1; minor := 2; patch := 3 |}
  else None.

(** The normalized names of the keys of an object. *)
Definition normalized_keys (members : list (string * Json)) : gset string :=
  list_to_set (normalize_field_name <$> obj_keys members).

(** Position of a direction on the scale unknown < input < output. *)
Definition direction_rank (direction : string) : nat :=
  if String.eqb direction "output" then 2
  else if String.eqb direction "input" then 1
  else 0.

(** An item as [split_json_array_items] returns it: not empty, and without
    white space at either end. *)
Definition trimmed_item (item : text) : Prop :=
  item ≠ [] ∧ ∀ c, head item = Some c ∨ last item = Some c → is_space c = false.

(** A trimmed item free of quotes, brackets and commas. *)
Definition plain_item (item : text) : Prop :=
  trimmed_item item ∧ Forall (λ c, c ∉ [dquote; lbracket; rbracket; comma]) item.

(** The items of an array, separated by commas. *)
Fixpoint join_items (items : list text) : text :=
  match items with
  | [] => []
  | [item] => item
  | item :: rest => item ++ comma :: join_items rest
  end.

(** An array of three plain items between other text. *)
Definition array_text : text := list_ascii_of_string "x [1,true,null] tail".

End measures.

(** * Properties *)

(** ** Sorting a set *)

Lemma elem_of_sorted (s : gset string) (x : string) : x ∈ sorted s ↔ x ∈ s.
Proof.
  unfold sorted. rewrite merge_sort_Permutation. apply elem_of_elements.
Qed.

Lemma sorted_nil_iff (s : gset string) : sorted s = [] ↔ s = ∅.
Proof.
  split.
  - intros H. apply set_eq. intros x. rewrite <- elem_of_sorted, H.
    rewrite elem_of_nil, elem_of_empty. done.
  - intros ->. reflexivity.
Qed.

Lemma sorted_empty : sorted ∅ = [].
Proof. reflexivity. Qed.

Lemma sorted_singleton (x : string) : sorted {[ x ]} = [x].
Proof. unfold sorted. rewrite elements_singleton. reflexivity. Qed.

Lemma is_nil_true {A} (l : list A) : is_nil l = true ↔ l = [].
Proof. destruct l; simpl; split; congruence. Qed.

Lemma is_empty_dict_true {V} (d : gmap string V) : is_empty_dict d = true ↔ d = ∅.
Proof.
  unfold is_empty_dict. rewrite bool_decide_eq_true. apply map_size_empty_iff.
Qed.

(** ** The key loop of [_schema_diff] *)

(** One pass of the loop leaves, at each type, what the step computes for
    that type; both components follow the same argument. *)
Ltac fold_diff_step O B X Y :=
  let acc := fresh "acc" in
  let ts := fresh "ts" in
  let u := fresh "u" in
  let IH := fresh "IH" in
  intros ts; induction ts as [|u ts IH]; intros acc; cbn [foldl];
  [ rewrite decide_False; [done|]; intros [Hnil _]; by apply elem_of_nil in Hnil
  | rewrite IH; unfold diff_step; cbn [fst snd]; fold (extra_keys X Y u);
    match goal with
    | |- context [decide (?t ∈ ts ∧ extra_keys X Y ?t ≠ [])] =>
        destruct (decide (t ∈ ts ∧ extra_keys X Y t ≠ [])) as [[Hin Hne]|Hn];
        [ rewrite decide_True; [done|]; split; [by right|done]
        | destruct (decide (t = u)) as [->|Htu];
          [ destruct (extra_keys X Y u) eqn:E; cbn [is_nil];
            [ rewrite decide_False; [done|]; intros [_ ?]; done
            | rewrite lookup_insert_eq, decide_True; [done|]; split; [by left|done] ]
          | rewrite decide_False;
            [ destruct (is_nil (extra_keys X Y u)); [done|]; by rewrite lookup_insert_ne
            | intros [Hin Hne]; apply Hn; split; [|done];
              apply elem_of_cons in Hin as [?|?]; done ] ] ]
    end ].

Lemma foldl_diff_step_fst O B t ts :
  ∀ acc,
    (foldl (diff_step O B) acc ts).1 !! t =
      if decide (t ∈ ts ∧ extra_keys O B t ≠ []) then Some (extra_keys O B t)
      else acc.1 !! t.
Proof. revert ts. fold_diff_step O B O B. Qed.

Lemma foldl_diff_step_snd O B t ts :
  ∀ acc,
    (foldl (diff_step O B) acc ts).2 !! t =
      if decide (t ∈ ts ∧ extra_keys B O t ≠ []) then Some (extra_keys B O t)
      else acc.2 !! t.
Proof. revert ts. fold_diff_step O B B O. Qed.

Lemma extra_keys_dom x y t : extra_keys x y t ≠ [] → t ∈ dom x.
Proof.
  intros Hne. apply elem_of_dom. unfold extra_keys, get_list in Hne.
  destruct (x !! t) as [l|]; [by eexists|].
  exfalso. apply Hne. apply sorted_nil_iff. apply empty_difference_L.
Qed.

Lemma unknown_keys_lookup O B t :
  unknown_keys (_schema_diff O B) !! t =
    if decide (extra_keys O B t = []) then None else Some (extra_keys O B t).
Proof.
  unfold _schema_diff. simpl. rewrite foldl_diff_step_fst. simpl.
  destruct (decide (extra_keys O B t = [])) as [E|E].
  - rewrite decide_False; [apply lookup_empty|]. intros [_ ?]; done.
  - rewrite decide_True; [done|]. split; [|done].
    apply elem_of_sorted, elem_of_union. left. by eapply extra_keys_dom.
Qed.

Lemma missing_keys_lookup O B t :
  missing_keys (_schema_diff O B) !! t =
    if decide (extra_keys B O t = []) then None else Some (extra_keys B O t).
Proof.
  unfold _schema_diff. simpl. rewrite foldl_diff_step_snd. simpl.
  destruct (decide (extra_keys B O t = [])) as [E|E].
  - rewrite decide_False; [apply lookup_empty|]. intros [_ ?]; done.
  - rewrite decide_True; [done|]. split; [|done].
    apply elem_of_sorted, elem_of_union. right. by eapply extra_keys_dom.
Qed.

Lemma get_list_insert_eq (m : gmap string (list string)) t l :
  get_list (<[t := l]> m) t = l.
Proof. unfold get_list. by rewrite lookup_insert_eq. Qed.

Lemma get_list_insert_ne (m : gmap string (list string)) t u l :
  t ≠ u → get_list (<[t := l]> m) u = get_list m u.
Proof. intros. unfold get_list. by rewrite lookup_insert_ne. Qed.

Lemma get_list_lookup (m : gmap string (list string)) t l :
  m !! t = Some l → get_list m t = l.
Proof. intros H. unfold get_list. by rewrite H. Qed.

Lemma extra_keys_same_list x y t :
  set_of (get_list x t) = set_of (get_list y t) → extra_keys x y t = [].
Proof. intros E. unfold extra_keys. rewrite E. apply sorted_nil_iff, difference_diag_L. Qed.

(** Replacing the key list of one type [t] of the baseline: what the diff of
    the edited fingerprint against the baseline holds, in terms of the key
    sets [only_new] (keys of the edit that the baseline lacks) and
    [only_old] (keys of the baseline that the edit lacks). *)
Lemma schema_diff_edit_one_type (B : gmap string (list string)) t kb ko :
  B !! t = Some kb →
  let d := _schema_diff (<[t := ko]> B) B in
  let only_new := sorted (set_of ko ∖ set_of kb) in
  let only_old := sorted (set_of kb ∖ set_of ko) in
  unknown_types d = [] ∧ missing_types d = []
  ∧ unknown_keys d = (if is_nil only_new then ∅ else {[ t := only_new ]})
  ∧ missing_keys d = (if is_nil only_old then ∅ else {[ t := only_old ]}).
Proof.
  intros Ht d only_new only_old.
  assert (Hdom : dom (<[t := ko]> B) = dom B).
  { apply dom_insert_lookup_L. by eexists. }
  assert (Hx : ∀ x y : gmap string (list string), ∀ u,
             extra_keys x y u =
             sorted (set_of (get_list x u) ∖ set_of (get_list y u))) by done.
  split; [|split; [|split]].
  - unfold d, _schema_diff; cbn. rewrite Hdom. apply sorted_nil_iff, difference_diag_L.
  - unfold d, _schema_diff; cbn. rewrite Hdom. apply sorted_nil_iff, difference_diag_L.
  - apply map_eq. intros u. unfold d. rewrite unknown_keys_lookup.
    destruct (decide (u = t)) as [->|Hne].
    + rewrite Hx, get_list_insert_eq, (get_list_lookup B t kb Ht).
      fold only_new. destruct only_new; cbn.
      * by rewrite lookup_empty.
      * by rewrite lookup_singleton_eq.
    + rewrite extra_keys_same_list by (by rewrite get_list_insert_ne).
      cbn. destruct (is_nil only_new).
      * by rewrite lookup_empty.
      * by rewrite lookup_singleton_ne.
  - apply map_eq. intros u. unfold d. rewrite missing_keys_lookup.
    destruct (decide (u = t)) as [->|Hne].
    + rewrite Hx, get_list_insert_eq, (get_list_lookup B t kb Ht).
      fold only_old. destruct only_old; cbn.
      * by rewrite lookup_empty.
      * by rewrite lookup_singleton_eq.
    + rewrite extra_keys_same_list by (by rewrite get_list_insert_ne).
      cbn. destruct (is_nil only_old).
      * by rewrite lookup_empty.
      * by rewrite lookup_singleton_ne.
Qed.

Lemma drift_true_iff (d : SchemaDiff) O B :
  d = _schema_diff O B →
  drift d = true ↔ unknown_types d ≠ [] ∨ unknown_keys d ≠ ∅.
Proof.
  intros ->. unfold drift, _schema_diff; cbn.
  rewrite negb_true_iff, andb_false_iff.
  rewrite <- !not_true_iff_false, is_nil_true, is_empty_dict_true. done.
Qed.

(** ** Claims on the baseline diff *)

Lemma unknown_key_reported O B t ko f :
  O !! t = Some ko → f ∈ ko → f ∉ get_list B t →
  ∃ l, unknown_keys (_schema_diff O B) !! t = Some l ∧ f ∈ l.
Proof.
  intros Ht Hf Hnf. exists (extra_keys O B t).
  assert (Hin : f ∈ extra_keys O B t).
  { unfold extra_keys. apply elem_of_sorted, elem_of_difference.
    unfold set_of. rewrite !elem_of_list_to_set, (get_list_lookup O t ko Ht). done. }
  split; [|done]. rewrite unknown_keys_lookup.
  destruct (decide (extra_keys O B t = [])) as [E|E]; [|done].
  rewrite E in Hin. by apply elem_of_nil in Hin.
Qed.

Lemma no_drift_within_baseline O B :
  dom O ⊆ dom B → (∀ t, set_of (get_list O t) ⊆ set_of (get_list B t)) →
  unknown_types (_schema_diff O B) = [] ∧ unknown_keys (_schema_diff O B) = ∅.
Proof.
  intros Hdom Hkeys. split.
  - unfold _schema_diff; cbn. by apply sorted_nil_iff, subseteq_empty_difference_L.
  - apply map_eq. intros t. rewrite unknown_keys_lookup, lookup_empty.
    rewrite decide_True; [done|].
    by apply sorted_nil_iff, subseteq_empty_difference_L.
Qed.

(** C1. The drift verdict of [_schema_diff] is true exactly when
    [unknown_types] or [unknown_keys] is non-empty.  A field name [f] that
    the observed fingerprint has under a type [t] and the baseline lacks
    there is reported under [unknown_keys[t]] and makes drift true; when the
    baseline and the observed fingerprint differ by that one field only,
    [unknown_keys = {t: [f]}] and nothing else is reported.  An observed
    fingerprint within the baseline never drifts; taking one field [g] of
    [t] away only fills [missing_keys = {t: [g]}]. *)
Theorem schema_diff_drift_iff_unknown :
  (∀ O B : gmap string (list string),
     drift (_schema_diff O B) = true
     ↔ unknown_types (_schema_diff O B) ≠ [] ∨ unknown_keys (_schema_diff O B) ≠ ∅)
  ∧ (∀ (O B : gmap string (list string)) (t f : string) (ko : list string),
       O !! t = Some ko → f ∈ ko → f ∉ get_list B t →
       drift (_schema_diff O B) = true
       ∧ ∃ l, unknown_keys (_schema_diff O B) !! t = Some l ∧ f ∈ l)
  ∧ (∀ (B : gmap string (list string)) (t f : string) (kb ko : list string),
       B !! t = Some kb → f ∉ kb → (∀ x, x ∈ ko ↔ x = f ∨ x ∈ kb) →
       let d := _schema_diff (<[t := ko]> B) B in
       drift d = true ∧ unknown_keys d = {[ t := [f] ]} ∧ unknown_types d = []
       ∧ missing_keys d = ∅ ∧ missing_types d = [])
  ∧ (∀ O B : gmap string (list string),
       dom O ⊆ dom B → (∀ t, set_of (get_list O t) ⊆ set_of (get_list B t)) →
       drift (_schema_diff O B) = false)
  ∧ (∀ (B : gmap string (list string)) (t g : string) (kb ko : list string),
       B !! t = Some kb → g ∈ kb → (∀ x, x ∈ ko ↔ x ≠ g ∧ x ∈ kb) →
       let d := _schema_diff (<[t := ko]> B) B in
       drift d = false ∧ missing_keys d = {[ t := [g] ]} ∧ missing_types d = []
       ∧ unknown_keys d = ∅ ∧ unknown_types d = []).
Proof.
  split; [|split; [|split; [|split]]].
  - intros O B. by eapply drift_true_iff.
  - intros O B t f ko Ht Hf Hnf.
    destruct (unknown_key_reported O B t ko f Ht Hf Hnf) as (l & Hl & Hfl).
    split; [|by exists l].
    apply (drift_true_iff _ O B eq_refl). right.
    intros E. rewrite E, lookup_empty in Hl. discriminate Hl.
  - intros B t f kb ko Ht Hf Hko d.
    destruct (schema_diff_edit_one_type B t kb ko Ht) as (Hut & Hmt & Huk & Hmk).
    fold d in Hut, Hmt, Huk, Hmk.
    assert (Hnew : set_of ko ∖ set_of kb = {[ f ]}).
    { apply set_eq. intros x. unfold set_of.
      rewrite elem_of_difference, !elem_of_list_to_set, elem_of_singleton, Hko.
      split; [intros [[?|?] ?]; done|intros ->; auto]. }
    assert (Hold : set_of kb ∖ set_of ko = ∅).
    { apply set_eq. intros x. unfold set_of.
      rewrite elem_of_difference, !elem_of_list_to_set, elem_of_empty, Hko.
      split; [intros [? Hn]; apply Hn; auto|done]. }
    rewrite Hnew, sorted_singleton in Huk. rewrite Hold, sorted_empty in Hmk.
    cbn [is_nil] in Huk, Hmk.
    split; [|done].
    apply (drift_true_iff d _ _ eq_refl). right. rewrite Huk.
    intros E. apply (f_equal (λ m, m !! t)) in E.
    by rewrite lookup_singleton_eq, lookup_empty in E.
  - intros O B Hdom Hkeys.
    destruct (no_drift_within_baseline O B Hdom Hkeys) as [Hut Huk].
    apply not_true_iff_false. rewrite (drift_true_iff _ O B eq_refl).
    intros [?|?]; done.
  - intros B t g kb ko Ht Hg Hko d.
    destruct (schema_diff_edit_one_type B t kb ko Ht) as (Hut & Hmt & Huk & Hmk).
    fold d in Hut, Hmt, Huk, Hmk.
    assert (Hnew : set_of ko ∖ set_of kb = ∅).
    { apply set_eq. intros x. unfold set_of.
      rewrite elem_of_difference, !elem_of_list_to_set, elem_of_empty, Hko.
      split; [intros [[_ ?] ?]; done|done]. }
    assert (Hold : set_of kb ∖ set_of ko = {[ g ]}).
    { apply set_eq. intros x. unfold set_of.
      rewrite elem_of_difference, !elem_of_list_to_set, elem_of_singleton, Hko.
      split.
      - intros [Hx Hn]. destruct (decide (x = g)); [done|]. exfalso. auto.
      - intros ->. split; [done|]. intros [? _]; done. }
    rewrite Hnew, sorted_empty in Huk. rewrite Hold, sorted_singleton in Hmk.
    cbn [is_nil] in Huk, Hmk.
    split; [|done].
    apply not_true_iff_false. rewrite (drift_true_iff d _ _ eq_refl).
    intros [?|?]; done.
Qed.

Lemma schema_diff_drift_iff_unknown_witness :
  let d := _schema_diff observed_example baseline_example in
  drift d = true ∧ unknown_keys d = {[ "message.user" := ["attachments"] ]}
  ∧ unknown_types d = [] ∧ missing_keys d = ∅ ∧ missing_types d = [].
Proof.
  apply (proj1 (proj2 (proj2 schema_diff_drift_iff_unknown))
           baseline_example "message.user" "attachments" ["content"; "role"]).
  - reflexivity.
  - rewrite !not_elem_of_cons. repeat split; [done..|apply not_elem_of_nil].
  - intros x. rewrite !elem_of_cons. tauto.
Defined.

(** C8. The diff is symmetric in structure: what [diff(A,B)] reports as
    unknown (types, and keys per type) is what [diff(B,A)] reports as
    missing, and conversely; the verdict is not symmetric. *)
Theorem schema_diff_swap (A B : gmap string (list string)) :
  unknown_types (_schema_diff A B) = missing_types (_schema_diff B A)
  ∧ missing_types (_schema_diff A B) = unknown_types (_schema_diff B A)
  ∧ unknown_keys (_schema_diff A B) = missing_keys (_schema_diff B A)
  ∧ missing_keys (_schema_diff A B) = unknown_keys (_schema_diff B A)
  ∧ drift (_schema_diff observed_example baseline_example) = true
  ∧ drift (_schema_diff baseline_example observed_example) = false.
Proof.
  split; [reflexivity|]. split; [reflexivity|].
  split; [|split; [|split; vm_compute; reflexivity]].
  - apply map_eq. intros t. by rewrite unknown_keys_lookup, missing_keys_lookup.
  - apply map_eq. intros t. by rewrite unknown_keys_lookup, missing_keys_lookup.
Qed.

(** ** Claims on the severity decision *)

(** C2. [_pick_severity] is a total function: on every input it yields the
    one decision that the rule list 1-7 selects by first match, a severity
    and a recommendation of the enumerations, and [monitoring_failed]
    forces (high, prepare_hotfix) whatever the other inputs are. *)
Theorem pick_severity_first_match
    (upstream_newer installed_newer monitoring_failed : bool)
    (schema_hits usage_hits : list string) (probe_failed degraded : bool) :
  let decision := _pick_severity upstream_newer installed_newer monitoring_failed
                    schema_hits usage_hits probe_failed degraded in
  first_match severity_rules
    (severity_inputs upstream_newer installed_newer monitoring_failed
       schema_hits usage_hits probe_failed degraded) = Some decision
  ∧ (∀ other, first_match severity_rules
                (severity_inputs upstream_newer installed_newer monitoring_failed
                   schema_hits usage_hits probe_failed degraded) = Some other →
              other = decision)
  ∧ decision.1 ∈ severities ∧ decision.2 ∈ recommendations
  ∧ _pick_severity upstream_newer installed_newer true
      schema_hits usage_hits probe_failed degraded = ("high", "prepare_hotfix").
Proof.
  cbv zeta. unfold _pick_severity, severity_inputs, severity_rules, first_match;
    cbn [in_monitoring_failed in_probe_failed in_probe_failed_but_upstream_degraded
         in_upstream_newer_than_verified in_installed_newer_than_verified
         in_schema_or_usage_keyword_hits].
  assert (Hfirst :
    (if monitoring_failed then Some ("high", "prepare_hotfix")
     else if probe_failed && negb degraded then Some ("high", "prepare_hotfix")
     else if probe_failed && degraded then Some ("medium", "monitor")
     else if installed_newer then Some ("medium", "run_weekly_now")
     else if negb upstream_newer && negb installed_newer then Some ("none", "ignore")
     else if negb (is_nil schema_hits) || negb (is_nil usage_hits)
          then Some ("medium", "run_weekly_now")
     else Some ("low", "monitor"))
    = Some (if monitoring_failed then ("high", "prepare_hotfix")
            else if probe_failed && negb degraded then ("high", "prepare_hotfix")
            else if probe_failed && degraded then ("medium", "monitor")
            else if installed_newer then ("medium", "run_weekly_now")
            else if negb upstream_newer && negb installed_newer then ("none", "ignore")
            else if negb (is_nil schema_hits) || negb (is_nil usage_hits)
                 then ("medium", "run_weekly_now")
            else ("low", "monitor"))).
  { destruct monitoring_failed, probe_failed, degraded, installed_newer,
      upstream_newer; cbn; try reflexivity;
      destruct (negb (is_nil schema_hits) || negb (is_nil usage_hits)); reflexivity. }
  split; [exact Hfirst|]. split; [|split; [|split]].
  - intros other Hother. rewrite Hfirst in Hother. by injection Hother.
  - destruct monitoring_failed, probe_failed, degraded, installed_newer,
      upstream_newer; cbn;
      try destruct (negb (is_nil schema_hits) || negb (is_nil usage_hits));
      cbn; compute_done.
  - destruct monitoring_failed, probe_failed, degraded, installed_newer,
      upstream_newer; cbn;
      try destruct (negb (is_nil schema_hits) || negb (is_nil usage_hits));
      cbn; compute_done.
  - reflexivity.
Qed.

Lemma pick_severity_first_match_witness :
  first_match severity_rules (severity_inputs true false false ["schema"] [] false false)
  = Some ("medium", "run_weekly_now").
Proof.
  exact (proj1 (pick_severity_first_match true false false ["schema"] [] false false)).
Defined.

Lemma schema_matches_baseline_no_drift O B :
  B ≠ ∅ → drift (_schema_diff O B) = false →
  schema_matches_baseline weekly (Some O) B = Some true.
Proof.
  intros HB Hd. unfold schema_matches_baseline; cbn [is_weekly].
  destruct (is_empty_dict B) eqn:E.
  - apply is_empty_dict_true in E. done.
  - unfold drift in Hd. apply negb_false_iff in Hd. by rewrite Hd.
Qed.

Lemma main_decision_never_escalates mode un inw mf sh uh pf dg ev :
  (severity_rank (main_decision mode un inw mf sh uh pf dg ev).1
   ≤ severity_rank (_pick_severity un inw mf sh uh pf dg).1)%nat.
Proof.
  unfold main_decision.
  destruct (_pick_severity un inw mf sh uh pf dg) as [sev rec] eqn:E.
  destruct (is_weekly mode && bool_decide (sev ∈ ["medium"; "low"]) && inw
            && is_True ev && negb pf) eqn:G; [|done].
  rewrite !andb_true_iff, bool_decide_eq_true in G.
  destruct G as [[[[_ Hs] _] _] _]. cbn [fst].
  rewrite !elem_of_cons, elem_of_nil in Hs.
  destruct Hs as [->|[->|[]]]; cbn; lia.
Qed.

(** C3. Weekly mode, [installed_newer_than_verified] the only signal, and a
    live comparison of the newest local evidence [O] against the baseline [B]
    (which [main] makes when [B] is not empty) without drift:
    [_pick_severity] says (medium, run_weekly_now) and the final decision is
    (low, bump_verified_version).  On every input the final severity is at
    most the one [_pick_severity] chose. *)
Theorem weekly_no_drift_downgrades (O B : gmap string (list string))
    (HB : B ≠ ∅) (Hdrift : drift (_schema_diff O B) = false) :
  _pick_severity false true false [] [] false false = ("medium", "run_weekly_now")
  ∧ main_decision weekly false true false [] [] false false
      (schema_matches_baseline weekly (Some O) B) = ("low", "bump_verified_version")
  ∧ ∀ mode un inw mf sh uh pf dg ev,
      (severity_rank (main_decision mode un inw mf sh uh pf dg ev).1
       ≤ severity_rank (_pick_severity un inw mf sh uh pf dg).1)%nat.
Proof.
  split; [reflexivity|]. split.
  - by rewrite schema_matches_baseline_no_drift.
  - intros. apply main_decision_never_escalates.
Qed.

Lemma weekly_no_drift_downgrades_witness :
  main_decision weekly false true false [] [] false false
    (schema_matches_baseline weekly (Some baseline_example) baseline_example)
  = ("low", "bump_verified_version").
Proof.
  refine (proj1 (proj2
    (weekly_no_drift_downgrades baseline_example baseline_example _ _))).
  - intros E. apply (f_equal (λ m, m !! "message.user")) in E. vm_compute in E.
    discriminate E.
  - vm_compute. reflexivity.
Defined.

(** C4, as stated, fails: with keyword hits next to
    [installed_newer_than_verified], weekly mode and a comparison without
    drift, the decision does not stay (medium, run_weekly_now). *)
Lemma keyword_hits_do_not_block_counterexample :
  _pick_severity false true false ["schema"] [] false false
    = ("medium", "run_weekly_now")
  ∧ main_decision weekly false true false ["schema"] [] false false
      (schema_matches_baseline weekly (Some baseline_example) baseline_example)
    = ("low", "bump_verified_version").
Proof. split; vm_compute; reflexivity. Qed.

(** C4, amended. The downgrade does not look at keyword hits: in weekly mode,
    with [installed_newer_than_verified], monitoring and probes not failed,
    and a comparison without drift, the decision is
    (low, bump_verified_version) for every list of schema and usage hits.
    It stays (medium, run_weekly_now) when there is no such evidence. *)
Theorem weekly_downgrade_ignores_keyword_hits
    (O B : gmap string (list string)) (upstream_newer degraded : bool)
    (schema_hits usage_hits : list string)
    (HB : B ≠ ∅) (Hdrift : drift (_schema_diff O B) = false) :
  main_decision weekly upstream_newer true false schema_hits usage_hits false degraded
    (schema_matches_baseline weekly (Some O) B) = ("low", "bump_verified_version")
  ∧ ∀ mode ev, is_weekly mode && is_True ev = false →
      main_decision mode upstream_newer true false schema_hits usage_hits false degraded ev
      = ("medium", "run_weekly_now").
Proof.
  split.
  - rewrite schema_matches_baseline_no_drift by done. reflexivity.
  - intros mode ev H. unfold main_decision. cbn [_pick_severity andb].
    destruct (is_weekly mode), (is_True ev); try discriminate H;
      destruct (bool_decide ("medium" ∈ ["medium"; "low"])); reflexivity.
Qed.

Lemma weekly_downgrade_ignores_keyword_hits_witness :
  main_decision weekly true true false ["schema"] ["usage"] false false
    (schema_matches_baseline weekly (Some baseline_example) baseline_example)
  = ("low", "bump_verified_version").
Proof.
  refine (proj1 (weekly_downgrade_ignores_keyword_hits
    baseline_example baseline_example true false ["schema"] ["usage"] _ _)).
  - intros E. apply (f_equal (λ m, m !! "message.user")) in E. vm_compute in E.
    discriminate E.
  - vm_compute. reflexivity.
Defined.

(** ** Folds that do not depend on the order *)

Section fold_order.
Context {A B : Type} (f : B → A → B).
Hypothesis f_comm : ∀ b x y, f (f b x) y = f (f b y) x.

Lemma foldl_comm_perm (l1 l2 : list A) :
  l1 ≡ₚ l2 → ∀ b, foldl f b l1 = foldl f b l2.
Proof.
  induction 1 as [|x l1 l2 _ IH|x y l|l1 l2 l3 _ IH1 _ IH2]; intros b; cbn.
  - done.
  - apply IH.
  - by rewrite f_comm.
  - by rewrite IH1.
Qed.

Lemma foldl_comm_idem_again (l : list A) (x : A) (b : B) :
  (∀ b, f (f b x) x = f b x) → x ∈ l → foldl f b (l ++ [x]) = foldl f b l.
Proof.
  intros Hidem Hin.
  apply elem_of_Permutation in Hin as [l' Hl'].
  rewrite (foldl_comm_perm (l ++ [x]) (x :: x :: l')).
  - rewrite (foldl_comm_perm l (x :: l') Hl'). cbn. by rewrite Hidem.
  - rewrite Hl'. by rewrite <- Permutation_cons_append.
Qed.

End fold_order.

(** ** The fingerprint fold *)

Lemma union_swap (X Y Z : gset string) : X ∪ Y ∪ Z = X ∪ Z ∪ Y.
Proof. by rewrite <- !(assoc_L (∪)), (comm_L (∪) Y). Qed.

Lemma add_comm t1 o1 t2 o2 b : _add t1 o1 (_add t2 o2 b) = _add t2 o2 (_add t1 o1 b).
Proof.
  unfold _add; cbn. destruct (decide (t1 = t2)) as [->|Hne].
  - rewrite !lookup_insert_eq, !insert_insert_eq. cbn. by rewrite union_swap.
  - rewrite !lookup_insert_ne by done.
    f_equal; apply insert_insert_ne; done.
Qed.

Lemma ingest_line_comm st a b :
  ingest_line (ingest_line st a) b = ingest_line (ingest_line st b) a.
Proof.
  destruct a as [| |[| | | | |oa]], b as [| |[| | | | |ob]]; cbn; try reflexivity.
  by rewrite add_comm.
Qed.

Lemma ingest_line_keys st raw :
  b_type_keys (buckets (ingest_line st raw)) = line_keys (b_type_keys (buckets st)) raw.
Proof. by destruct raw as [| |[| | | | |obj]]. Qed.

Lemma fold_lines_keys st lines :
  b_type_keys (buckets (foldl ingest_line st lines))
  = foldl line_keys (b_type_keys (buckets st)) lines.
Proof.
  revert st. induction lines as [|raw lines IH]; intros st; cbn; [done|].
  by rewrite IH, ingest_line_keys.
Qed.

Lemma line_keys_comm tk a b : line_keys (line_keys tk a) b = line_keys (line_keys tk b) a.
Proof.
  destruct a as [| |[| | | | |oa]], b as [| |[| | | | |ob]]; cbn; try reflexivity.
  set (ta := default "<missing-type>" (nonempty_str (obj_get oa "type"))).
  set (tb := default "<missing-type>" (nonempty_str (obj_get ob "type"))).
  destruct (decide (ta = tb)) as [->|Hne].
  - rewrite !lookup_insert_eq, !insert_insert_eq. cbn. by rewrite union_swap.
  - rewrite !lookup_insert_ne by done. apply insert_insert_ne. done.
Qed.

Lemma line_keys_idem tk a : line_keys (line_keys tk a) a = line_keys tk a.
Proof.
  destruct a as [| |[| | | | |oa]]; cbn; try reflexivity.
  rewrite lookup_insert_eq, insert_insert_eq. cbn.
  by rewrite <- (assoc_L (∪)), (idemp_L (∪)).
Qed.

Lemma fold_lines_total st lines :
  total_lines (foldl ingest_line st lines) = (total_lines st + length lines)%nat.
Proof.
  revert st. induction lines as [|raw lines IH]; intros st; cbn; [lia|].
  rewrite IH. destruct raw as [| |[| | | | |obj]]; cbn; lia.
Qed.

(** Reading keeps every non-blank line as long as the cap is not reached. *)
Lemma keep_line_all max_lines content acc :
  (Z.of_nat (length acc + length (filter (λ l, is_blank l = false) content)) ≤ max_lines)%Z →
  foldl (keep_line max_lines) acc content
  = acc ++ filter (λ l, is_blank l = false) content.
Proof.
  revert acc. induction content as [|line content IH]; intros acc Hlen; cbn [foldl].
  - by rewrite filter_nil, app_nil_r.
  - unfold keep_line at 2. destruct (is_blank line) eqn:E.
    + rewrite filter_cons_False in Hlen |- * by congruence. by apply IH.
    + rewrite filter_cons_True in Hlen |- * by done. cbn [length] in Hlen.
      replace (Z.of_nat (length (acc ++ [line])) >? max_lines)%Z with false.
      * rewrite IH; [by rewrite <- app_assoc|]. rewrite length_app. cbn. lia.
      * symmetry. rewrite Z.gtb_ltb. apply Z.ltb_ge. rewrite length_app. cbn. lia.
Qed.

Lemma fold_lines_counts_again st lines obj :
  let t := default "<missing-type>" (nonempty_str (obj_get obj "type")) in
  b_type_counts (buckets (foldl ingest_line st (lines ++ [JsonLine (JObj obj)]))) !! t
  = Some (S (default 0 (b_type_counts (buckets (foldl ingest_line st lines)) !! t))).
Proof. intros t. rewrite foldl_app. cbn. by rewrite lookup_insert_eq. Qed.

(** ** Merging fingerprints *)

Lemma foldl_merge_bucket_lookup (items : list (string * list string))
    (m : gmap string (gset string)) (t : string) :
  NoDup items.*1 →
  foldl merge_bucket m items !! t
  = match (list_to_map items : gmap string (list string)) !! t with
    | Some ks => Some (default ∅ (m !! t) ∪ set_of ks)
    | None => m !! t
    end.
Proof.
  revert m. induction items as [|[k ks] rest IH]; intros m Hnd; cbn [foldl].
  - change (list_to_map [] : gmap string (list string)) with (∅ : gmap string (list string)).
    by rewrite lookup_empty.
  - cbn in Hnd. apply NoDup_cons in Hnd as [Hk Hnd].
    rewrite IH by done. cbn [list_to_map foldr]. unfold merge_bucket; cbn [fst snd].
    destruct (decide (t = k)) as [->|Hne].
    + rewrite (not_elem_of_list_to_map_1 _ _ Hk), !lookup_insert_eq. done.
    + rewrite !lookup_insert_ne by done. done.
Qed.

Lemma merge_fingerprint_lookup m fp t :
  merge_fingerprint m fp !! t
  = match type_keys fp !! t with
    | Some ks => Some (default ∅ (m !! t) ∪ set_of ks)
    | None => m !! t
    end.
Proof.
  unfold merge_fingerprint.
  rewrite foldl_merge_bucket_lookup by apply NoDup_fst_map_to_list.
  by rewrite list_to_map_to_list.
Qed.

Lemma merge_fingerprint_comm m a b :
  merge_fingerprint (merge_fingerprint m a) b = merge_fingerprint (merge_fingerprint m b) a.
Proof.
  apply map_eq. intros t. rewrite !merge_fingerprint_lookup.
  destruct (type_keys a !! t), (type_keys b !! t); cbn; try done.
  by rewrite union_swap.
Qed.

Lemma merge_fingerprint_idem m a :
  merge_fingerprint (merge_fingerprint m a) a = merge_fingerprint m a.
Proof.
  apply map_eq. intros t. rewrite !merge_fingerprint_lookup.
  destruct (type_keys a !! t); cbn; [|done].
  by rewrite <- (assoc_L (∪)), (idemp_L (∪)).
Qed.

(** ** Claims on the fingerprint *)

(** C7, as stated, fails: a record ingested a second time is counted a
    second time. *)
Lemma reingestion_counts_counterexample :
  type_counts (_jsonl_schema_fingerprint "s.jsonl" [user_line] 5000) !! "user" = Some 1
  ∧ type_counts (_jsonl_schema_fingerprint "s.jsonl" [user_line; user_line] 5000) !! "user"
    = Some 2
  ∧ parsed_lines (_jsonl_schema_fingerprint "s.jsonl" [user_line] 5000) = 1
  ∧ parsed_lines (_jsonl_schema_fingerprint "s.jsonl" [user_line; user_line] 5000) = 2.
Proof. repeat split; vm_compute; reflexivity. Qed.

(** C7, amended. Folding the same records in any order gives the same
    fingerprint, and so does the whole scan when the cap drops no line.  A
    record ingested a second time leaves [type_keys] unchanged; it adds one
    to the number of parsed lines and, for an object, to the count of its
    type.  [_merge_type_keys] does not depend on the order of the
    fingerprints and merging one of them again changes nothing. *)
Theorem fingerprint_order_and_reingestion (path : string) (l1 l2 : list Line)
    (raw : Line) (fps1 fps2 : list Fingerprint) (fp : Fingerprint)
    (Hperm : l1 ≡ₚ l2) (Hraw : raw ∈ l1) (Hfps : fps1 ≡ₚ fps2) (Hfp : fp ∈ fps1) :
  report path (fold_lines l1) = report path (fold_lines l2)
  ∧ (∀ max_lines : Z,
       (Z.of_nat (length (filter (λ l, is_blank l = false) l1)) ≤ max_lines)%Z →
       _jsonl_schema_fingerprint path l1 max_lines
       = _jsonl_schema_fingerprint path l2 max_lines)
  ∧ type_keys (report path (fold_lines (l1 ++ [raw])))
    = type_keys (report path (fold_lines l1))
  ∧ parsed_lines (report path (fold_lines (l1 ++ [raw])))
    = S (parsed_lines (report path (fold_lines l1)))
  ∧ (∀ obj, raw = JsonLine (JObj obj) →
       let t := default "<missing-type>" (nonempty_str (obj_get obj "type")) in
       type_counts (report path (fold_lines (l1 ++ [raw]))) !! t
       = Some (S (default 0 (type_counts (report path (fold_lines l1)) !! t))))
  ∧ _merge_type_keys fps1 = _merge_type_keys fps2
  ∧ _merge_type_keys (fps1 ++ [fp]) = _merge_type_keys fps1.
Proof.
  repeat apply conj.
  - unfold fold_lines. by rewrite (foldl_comm_perm _ ingest_line_comm l1 l2 Hperm).
  - intros max_lines Hlen. unfold _jsonl_schema_fingerprint.
    rewrite !keep_line_all; cbn [length app Nat.add].
    + unfold fold_lines. f_equal. apply (foldl_comm_perm _ ingest_line_comm).
      by rewrite Hperm.
    + by rewrite <- Hperm.
    + done.
  - unfold report, fold_lines; cbn [type_keys]. f_equal.
    rewrite !fold_lines_keys.
    apply (foldl_comm_idem_again _ line_keys_comm); [|done].
    intros tk. apply line_keys_idem.
  - unfold report, fold_lines; cbn [parsed_lines]. rewrite !fold_lines_total.
    rewrite length_app. cbn. lia.
  - intros obj -> t. unfold report, fold_lines; cbn [type_counts].
    apply fold_lines_counts_again.
  - unfold _merge_type_keys. f_equal.
    by apply (foldl_comm_perm _ merge_fingerprint_comm).
  - unfold _merge_type_keys. f_equal.
    apply (foldl_comm_idem_again _ merge_fingerprint_comm); [|done].
    intros m. apply merge_fingerprint_idem.
Qed.

Lemma fingerprint_order_and_reingestion_witness :
  report "s.jsonl" (fold_lines [user_line; BadLine; tool_line])
  = report "s.jsonl" (fold_lines [tool_line; user_line; BadLine]).
Proof.
  refine (proj1 (fingerprint_order_and_reingestion "s.jsonl"
    [user_line; BadLine; tool_line] [tool_line; user_line; BadLine] user_line
    [_jsonl_schema_fingerprint "a.jsonl" [user_line] 10;
     _jsonl_schema_fingerprint "b.jsonl" [tool_line] 10]
    [_jsonl_schema_fingerprint "b.jsonl" [tool_line] 10;
     _jsonl_schema_fingerprint "a.jsonl" [user_line] 10]
    (_jsonl_schema_fingerprint "a.jsonl" [user_line] 10) _ _ _ _)).
  - rewrite (Permutation_cons_append [user_line; BadLine] tool_line). done.
  - apply list_elem_of_here.
  - apply perm_swap.
  - apply list_elem_of_here.
Defined.

(** ** Claims on the OpenCode session tree *)





(** ** Claims on balanced-brace extraction *)

(** C5. On [tool_name {"a": "b{c}", "d": 1}], from the first [{] (index 10),
    the extraction returns the whole object [{"a": "b{c}", "d": 1}]; the
    first [}] of the text, at index 20, is inside the quoted value, and the
    result is not the text cut there. *)
Theorem balanced_braces_keeps_quoted_brace :
  find_char lbrace tool_text = Some 10
  ∧ extract_balanced_braces tool_text 10 = Some tool_object
  ∧ tool_text = list_ascii_of_string "tool_name " ++ tool_object
  ∧ find_char rbrace tool_text = Some 20
  ∧ slice tool_text 10 21 = truncated_object
  ∧ extract_balanced_braces tool_text 10 ≠ Some truncated_object.
Proof.
  split; [|split; [|split; [|split; [|split]]]]; try (vm_compute; reflexivity).
  vm_compute. intros H. discriminate H.
Qed.

(** *** The scanner against the brace depth *)

Lemma count_char_cons ch c s :
  count_char ch (c :: s) = ((if Ascii.eqb c ch then 1 else 0) + count_char ch s)%Z.
Proof.
  unfold count_char. destruct (Ascii.eqb_spec c ch) as [->|Hne].
  - rewrite filter_cons_True by done. cbn [length]. lia.
  - rewrite filter_cons_False by done. lia.
Qed.

Lemma depth_from_nil st : depth_from st [] = 0%Z.
Proof. reflexivity. Qed.

Lemma depth_from_cons st ch s :
  depth_from st (ch :: s) = (delta st ch + depth_from (lex_next st ch) s)%Z.
Proof.
  unfold depth_from. destruct st; cbn [structural lex_next delta]; try lia.
  destruct (Ascii.eqb_spec ch dquote) as [->|Hq]; [lia|].
  rewrite !count_char_cons.
  destruct (Ascii.eqb_spec ch lbrace) as [->|Hl]; [cbn; lia|].
  destruct (Ascii.eqb_spec ch rbrace) as [->|Hr]; lia.
Qed.

(** The loop goes on to the next character: the step lemma applies once
    the tests on the character are rewritten. *)
Ltac continue_with Hstep :=
  apply Hstep; cbn;
  repeat match goal with E : Ascii.eqb _ _ = _ |- _ => rewrite E end;
  (done || lia).

Lemma scan_braces_spec (t : text) (start : nat) (rest : text) :
  ∀ (i : nat) (in_string escape : bool) (depth : Z),
    (in_string = false → escape = false) → (1 ≤ depth)%Z →
    let st := lex_of in_string escape in
    match scan_braces t start i rest in_string escape depth with
    | Some s =>
        ∃ k, rest !! k = Some rbrace
             ∧ (depth + depth_from st (take (S k) rest) = 0)%Z
             ∧ (∀ j : nat, (j ≤ k)%nat → (1 ≤ depth + depth_from st (take j rest))%Z)
             ∧ s = slice t start (i + k + 1)
    | None => ∀ j, (1 ≤ depth + depth_from st (take j rest))%Z
    end.
Proof.
  induction rest as [|ch rest IH]; intros i ins esc depth Hesc Hdepth st.
  - cbn. intros j. rewrite take_nil, depth_from_nil. lia.
  - assert (Hstep : ∀ ins' esc' depth',
        (ins' = false → esc' = false) →
        lex_of ins' esc' = lex_next st ch → depth' = (depth + delta st ch)%Z →
        (1 ≤ depth')%Z →
        match scan_braces t start (S i) rest ins' esc' depth' with
        | Some s =>
            ∃ k, (ch :: rest) !! k = Some rbrace
                 ∧ (depth + depth_from st (take (S k) (ch :: rest)) = 0)%Z
                 ∧ (∀ j : nat, (j ≤ k)%nat → (1 ≤ depth + depth_from st (take j (ch :: rest)))%Z)
                 ∧ s = slice t start (i + k + 1)
        | None => ∀ j, (1 ≤ depth + depth_from st (take j (ch :: rest)))%Z
        end).
    { intros ins' esc' depth' Hesc' Hlex Hd' Hpos.
      specialize (IH (S i) ins' esc' depth' Hesc' Hpos). cbv zeta in IH.
      rewrite Hlex in IH.
      destruct (scan_braces t start (S i) rest ins' esc' depth') as [s|].
      - destruct IH as (k & Hk & Hzero & Hmin & ->).
        exists (S k). split; [done|]. split; [|split].
        + rewrite firstn_cons, depth_from_cons. lia.
        + intros [|j] Hj; [cbn; rewrite depth_from_nil; lia|].
          rewrite firstn_cons, depth_from_cons.
          specialize (Hmin j ltac:(lia)). lia.
        + f_equal. lia.
      - intros [|j]; [cbn; rewrite depth_from_nil; lia|].
        rewrite firstn_cons, depth_from_cons. specialize (IH j). lia. }
    subst st. cbn [scan_braces].
    destruct ins.
    + destruct esc; [continue_with Hstep|].
      destruct (Ascii.eqb ch backslash) eqn:Eb; [continue_with Hstep|].
      destruct (Ascii.eqb ch dquote) eqn:Eq; continue_with Hstep.
    + rewrite (Hesc eq_refl) in *.
      destruct (Ascii.eqb ch dquote) eqn:Eq; [continue_with Hstep|].
      destruct (Ascii.eqb ch lbrace) eqn:El; [continue_with Hstep|].
      destruct (Ascii.eqb ch rbrace) eqn:Er; [|continue_with Hstep].
      destruct (depth - 1 =? 0)%Z eqn:Ez.
      * apply Z.eqb_eq in Ez. apply Ascii.eqb_eq in Er. subst ch.
        exists 0. split; [done|]. split; [|split].
        -- rewrite firstn_cons, take_0, depth_from_cons, depth_from_nil. cbn. lia.
        -- intros j Hj. replace j with 0 by lia. rewrite take_0, depth_from_nil. lia.
        -- f_equal. lia.
      * apply Z.eqb_neq in Ez. continue_with Hstep.
Qed.

Lemma brace_depth_after_open (rest : text) (j : nat) :
  brace_depth (take (S j) (lbrace :: rest)) = (1 + depth_from Outside (take j rest))%Z.
Proof. unfold brace_depth. by rewrite firstn_cons, depth_from_cons. Qed.

(** C10. From an index holding [{], the extraction always returns: either
    [None], and then the depth is back at zero at no index; or the slice of
    the text from [start] through the first index [i] at which the depth is
    back at zero, which holds the closing brace. *)
Theorem extract_balanced_braces_total (t : text) (start : nat)
    (Hopen : t !! start = Some lbrace) :
  (extract_balanced_braces t start = None ∧ ∀ i, ¬ closes_at t start i)
  ∨ (∃ i, closes_at t start i
          ∧ (∀ j, closes_at t start j → (i ≤ j)%nat)
          ∧ t !! i = Some rbrace
          ∧ extract_balanced_braces t start = Some (slice t start (i + 1))).
Proof.
  pose proof (lookup_lt_Some _ _ _ Hopen) as Hlt.
  assert (Hdrop : drop start t = lbrace :: drop (S start) t).
  { by apply drop_S. }
  assert (Hclose : ∀ i, closes_at t start i ↔
            (start ≤ i < length t)%nat
            ∧ (1 + depth_from Outside (take (i - start) (drop (S start) t)) = 0)%Z).
  { intros i. unfold closes_at, slice. rewrite Hdrop.
    split; intros [Hi Hz]; (split; [done|]).
    - replace (i + 1 - start)%nat with (S (i - start)) in Hz by lia.
      by rewrite brace_depth_after_open in Hz.
    - replace (i + 1 - start)%nat with (S (i - start)) by lia.
      by rewrite brace_depth_after_open. }
  pose proof (scan_braces_spec t start (drop (S start) t) (S start) false false 1
                ltac:(done) ltac:(lia)) as Hscan.
  cbv zeta in Hscan. cbn [lex_of] in Hscan.
  assert (Hrun : extract_balanced_braces t start
                 = scan_braces t start (S start) (drop (S start) t) false false 1).
  { unfold extract_balanced_braces. rewrite Hdrop. reflexivity. }
  rewrite Hrun.
  destruct (scan_braces t start (S start) (drop (S start) t) false false 1) as [s|].
  - right. destruct Hscan as (k & Hk & Hzero & Hmin & ->).
    assert (Hkt : t !! (S start + k)%nat = Some rbrace) by (by rewrite <- lookup_drop).
    pose proof (lookup_lt_Some _ _ _ Hkt) as Hklt.
    exists (S start + k)%nat. split; [|split; [|split]].
    + apply Hclose. split; [lia|].
      replace (S start + k - start)%nat with (S k) by lia. done.
    + intros j [Hj Hjz]%Hclose.
      destruct (decide (j - start ≤ k)%nat) as [Hle|Hgt]; [|lia].
      specialize (Hmin (j - start)%nat Hle). lia.
    + done.
    + repeat f_equal; lia.
  - left. split; [done|]. intros i [Hi Hz]%Hclose.
    specialize (Hscan (i - start)%nat). lia.
Qed.

Lemma extract_balanced_braces_total_witness :
  (extract_balanced_braces tool_text 10 = None ∧ ∀ i, ¬ closes_at tool_text 10 i)
  ∨ (∃ i, closes_at tool_text 10 i
          ∧ (∀ j, closes_at tool_text 10 j → (i ≤ j)%nat)
          ∧ tool_text !! i = Some rbrace
          ∧ extract_balanced_braces tool_text 10 = Some (slice tool_text 10 (i + 1))).
Proof. apply (extract_balanced_braces_total tool_text 10). reflexivity. Defined.

(** ** Clustering: keys and counts *)

Lemma bump_comm m k1 k2 : bump (bump m k1) k2 = bump (bump m k2) k1.
Proof.
  unfold bump. destruct (decide (k1 = k2)) as [->|Hne]; [done|].
  rewrite !lookup_insert_ne by done. by apply insert_insert_ne.
Qed.

Lemma foldl_project {St P X K} (step : St → X → St) (proj : St → P) (g : P → K → P)
    (key : X → K) :
  (∀ st x, proj (step st x) = g (proj st) (key x)) →
  ∀ l st, proj (foldl step st l) = foldl g (proj st) (key <$> l).
Proof.
  intros Hstep l. induction l as [|x l IH]; intros st; cbn; [done|].
  by rewrite IH, Hstep.
Qed.

Lemma foldl_bind {St X K} (g : St → K → St) (keys : X → list K) (l : list X) (st : St) :
  foldl (λ st x, foldl g st (keys x)) st l = foldl g st (l ≫= keys).
Proof.
  revert st. induction l as [|x l IH]; intros st; cbn; [done|].
  by rewrite foldl_app, IH.
Qed.

Section clustering.
Context `{RecordHelpers}.

Lemma group_counts_add_tool_block groups shapes agent tool_name direction shape
    raw_event raw_payload parsed_payload parse_error field_path fields source_file
    event_index mg ms :
  group_counts (add_tool_block groups shapes agent tool_name direction shape raw_event
                  raw_payload parsed_payload parse_error field_path fields source_file
                  event_index mg ms)
  = bump (count <$> groups) (agent, normalize_tool_name tool_name, shape, direction).
Proof.
  unfold group_counts, add_tool_block, bump. cbn [fst].
  rewrite fmap_insert, lookup_fmap. f_equal.
  destruct (groups !! _); reflexivity.
Qed.

Lemma group_counts_scan_block agent path idx raw mg ms cat block :
  group_counts (scan_block agent path idx raw mg ms cat block)
  = bump (group_counts cat) (block_key agent block).
Proof.
  destruct block as [[[[[direction tool_name] payload] shape] fields] field_path].
  unfold scan_block, block_key.
  destruct (parse_payload payload) as [[[raw_payload parsed] err] payload_fields].
  apply group_counts_add_tool_block.
Qed.

Lemma group_counts_scan_text_block agent path idx field_path text mg ms cat found :
  group_counts (scan_text_block agent path idx field_path text mg ms cat found)
  = bump (group_counts cat) (text_block_key agent found).
Proof.
  destruct found as [[tool_name raw_json] shape].
  unfold scan_text_block, text_block_key.
  destruct (parse_payload (JStr raw_json)) as [[[raw_payload parsed] err] payload_fields].
  apply group_counts_add_tool_block.
Qed.

Lemma group_counts_scan_text agent path idx mg ms cat candidate :
  group_counts (scan_text agent path idx mg ms cat candidate)
  = foldl bump (group_counts cat) (text_keys agent candidate).
Proof.
  destruct candidate as [field_path text]. unfold scan_text, text_keys. cbn [fst snd].
  destruct (MAX_TEXT_EVENT_LEN <? String.length text)%nat; [done|].
  apply foldl_project. intros. apply group_counts_scan_text_block.
Qed.

Lemma group_counts_scan_record agent path mg ms cat record :
  group_counts (scan_record agent path mg ms cat record)
  = foldl bump (group_counts cat) (record_keys agent (content_of record)).
Proof.
  destruct record as [[idx obj] raw]. unfold scan_record, record_keys, content_of.
  cbn [fst snd]. rewrite foldl_app, <- foldl_bind.
  rewrite <- (foldl_project _ group_counts bump (block_key agent)
               (group_counts_scan_block agent path idx raw mg ms)).
  generalize (foldl (scan_block agent path idx raw mg ms) cat
                (agent_tool_blocks agent obj raw)).
  intros cat'. generalize (text_candidates obj). intros cands. revert cat'.
  induction cands as [|c cands IH]; intros cat'; cbn [foldl]; [done|].
  by rewrite IH, group_counts_scan_text.
Qed.

Lemma group_counts_scan_jsonl_file agent path records groups shapes mg ms :
  group_counts (scan_jsonl_file agent path records groups shapes mg ms)
  = foldl bump (group_counts (groups, shapes))
      ((content_of <$> records) ≫= record_keys agent).
Proof.
  unfold scan_jsonl_file. rewrite <- foldl_bind, foldl_fmap.
  generalize (groups, shapes). intros cat. revert cat.
  induction records as [|r records IH]; intros cat; cbn [foldl]; [done|].
  by rewrite IH, group_counts_scan_record.
Qed.

Lemma group_counts_scan_files agent files mg ms cat :
  group_counts (scan_files agent files mg ms cat)
  = foldl bump (group_counts cat) (contents_of files ≫= record_keys agent).
Proof.
  unfold scan_files, contents_of. revert cat.
  induction files as [|[path records] files IH]; intros cat; cbn [foldl]; [done|].
  rewrite IH, bind_cons, bind_app, foldl_app. f_equal.
  destruct cat as [groups shapes]. apply group_counts_scan_jsonl_file.
Qed.

Lemma scan_files_same_contents agent files files' mg ms cat :
  contents_of files' ≡ₚ contents_of files →
  group_counts (scan_files agent files' mg ms cat)
  = group_counts (scan_files agent files mg ms cat).
Proof.
  intros Hperm. rewrite !group_counts_scan_files.
  apply (foldl_comm_perm _ bump_comm). by rewrite Hperm.
Qed.

Lemma group_counts_dom cat cat' :
  group_counts cat' = group_counts cat → dom cat'.1 = dom cat.1.
Proof.
  unfold group_counts. intros E.
  by rewrite <- (dom_fmap_L count cat'.1), <- (dom_fmap_L count cat.1), E.
Qed.

End clustering.

(** ** Claims on clustering *)

(** C6. Scanning the files of an agent in reversed order yields the same
    group keys and the same count per key as scanning them in the given
    order; so does reversing the records of one file, and so does any other
    arrangement of the same records into files. *)
Theorem clustering_order_independent `{RecordHelpers} (agent : string)
    (files : list (string * list (nat * Json * string))) (mg ms : Z) :
  let given := scan_files agent files mg ms (∅, ∅) in
  let reversed := scan_files agent (reverse files) mg ms (∅, ∅) in
  dom reversed.1 = dom given.1
  ∧ group_counts reversed = group_counts given
  ∧ (∀ path records,
       let forwards := scan_jsonl_file agent path records ∅ ∅ mg ms in
       let backwards := scan_jsonl_file agent path (reverse records) ∅ ∅ mg ms in
       dom backwards.1 = dom forwards.1 ∧ group_counts backwards = group_counts forwards)
  ∧ (∀ files', contents_of files' ≡ₚ contents_of files →
       let other := scan_files agent files' mg ms (∅, ∅) in
       dom other.1 = dom given.1 ∧ group_counts other = group_counts given).
Proof.
  intros given reversed.
  assert (Hrev : group_counts reversed = group_counts given).
  { apply scan_files_same_contents. unfold contents_of.
    by rewrite reverse_Permutation. }
  split; [by apply group_counts_dom|]. split; [done|]. split.
  - intros path records forwards backwards.
    assert (E : group_counts backwards = group_counts forwards).
    { unfold backwards, forwards. rewrite !group_counts_scan_jsonl_file.
      apply (foldl_comm_perm _ bump_comm). by rewrite reverse_Permutation. }
    split; [by apply group_counts_dom|done].
  - intros files' Hperm other.
    assert (E : group_counts other = group_counts given).
    { by apply scan_files_same_contents. }
    split; [by apply group_counts_dom|done].
Qed.

Lemma clustering_order_independent_witness :
  group_counts (scan_files "droid" (reverse droid_files) 3 3 (∅, ∅))
  = group_counts (scan_files "droid" droid_files 3 3 (∅, ∅)).
Proof.
  exact (proj1 (proj2 (clustering_order_independent "droid" droid_files 3 3))).
Defined.

(** ** Worked examples *)

(** A fingerprint compared with itself reports nothing. *)
Lemma schema_diff_refl (F : gmap string (list string)) :
  drift (_schema_diff F F) = false ∧ is_empty (_schema_diff F F) = true.
Proof.
  destruct (no_drift_within_baseline F F) as [Hut Huk]; [done..|].
  assert (Hmk : missing_keys (_schema_diff F F) = ∅).
  { apply map_eq. intros t. rewrite missing_keys_lookup, lookup_empty.
    by rewrite decide_True by (by apply extra_keys_same_list). }
  assert (Hmt : missing_types (_schema_diff F F) = []).
  { unfold _schema_diff; cbn. apply sorted_nil_iff, difference_diag_L. }
  split.
  - apply not_true_iff_false. rewrite (drift_true_iff _ F F eq_refl).
    intros [?|?]; done.
  - change (is_empty (_schema_diff F F))
      with (is_nil (unknown_types (_schema_diff F F))
            && is_nil (missing_types (_schema_diff F F))
            && is_empty_dict (unknown_keys (_schema_diff F F))
            && is_empty_dict (missing_keys (_schema_diff F F))).
    rewrite Hut, Hmt, Huk, Hmk. reflexivity.
Qed.

(** A type the baseline lacks is reported with all its keys. *)
Example schema_diff_mixed :
  let d := _schema_diff {[ "a" := ["x"; "y"]; "c" := ["z"] ]}
                        {[ "a" := ["x"]; "b" := ["w"] ]} in
  unknown_types d = ["c"] ∧ missing_types d = ["b"]
  ∧ unknown_keys d = {[ "a" := ["y"]; "c" := ["z"] ]}
  ∧ missing_keys d = {[ "b" := ["w"] ]}
  ∧ drift d = true ∧ is_empty d = false.
Proof. repeat split; vm_compute; reflexivity. Qed.

(** With a cap of one line only the last line is folded, so the order of
    the lines shows in the result. *)
Example cap_keeps_last_line :
  type_counts (_jsonl_schema_fingerprint "s.jsonl" [user_line; BlankLine; tool_line] 1)
  = {[ "tool_call" := 1 ]}
  ∧ type_counts (_jsonl_schema_fingerprint "s.jsonl" [tool_line; BlankLine; user_line] 1)
    = {[ "user" := 1 ]}.
Proof. split; vm_compute; reflexivity. Qed.

Example fingerprint_of_three_lines :
  let fp := _jsonl_schema_fingerprint "s.jsonl"
              [user_line; BadLine; JsonLine (JObj [("text", JStr "x")]); JsonLine (JNum 3)]
              2500 in
  type_keys fp = {[ "user" := ["text"; "type"]; "<missing-type>" := ["text"] ]}
  ∧ type_counts fp = {[ "user" := 1; "<missing-type>" := 1 ]}
  ∧ parsed_lines fp = 4 ∧ parse_errors fp = 1.
Proof. repeat split; vm_compute; reflexivity. Qed.

(** The whole tree is scanned when the directories are there; a budget of
    two part files stops after the undecodable one. *)
Example tree_scan_with_budget :
  ∃ fp, _opencode_storage_session_tree_schema_fingerprint "ses_42.json"
          (ReadJson (JObj session_example)) (Some storage_example) 250 2 = Some fp
  ∧ warning fp = None
  ∧ tree_type_counts fp
    = {[ "session" := 1; "message.user" := 1; "message.assistant" := 1;
         "part.text" := 1 ]}
  ∧ message_files_parsed fp = 2 ∧ part_files_parsed fp = 1
  ∧ tree_parse_errors fp = 1.
Proof. eexists. split; [vm_compute; reflexivity|]. repeat split; vm_compute; reflexivity. Qed.

Example escaped_quote_does_not_close :
  extract_balanced_braces escaped_text 0 = Some (take 13 escaped_text)
  ∧ find_char rbrace escaped_text = Some 10.
Proof. split; vm_compute; reflexivity. Qed.

Example unbalanced_gives_none :
  extract_balanced_braces (list_ascii_of_string "{ {a} ") 0 = None.
Proof. reflexivity. Qed.

Example normalize_token_examples :
  normalize_token "toolName" = "tool_name"
  ∧ normalize_token "  Read-File " = "read_file"
  ∧ normalize_token "HTTPServer2Go" = "httpserver2_go"
  ∧ normalize_token "a..b/c" = "a_b_c"
  ∧ normalize_tool_name (Some "!!") = "unknown"
  ∧ normalize_tool_name None = "unknown"
  ∧ normalize_field_name "exitCode" = "exit_code".
Proof. repeat split; vm_compute; reflexivity. Qed.

Example droid_catalog :
  let counts := group_counts (scan_files "droid" droid_files 3 3 (∅, ∅)) in
  size counts = 4
  ∧ counts !! ("droid", "read_file", "jsonl:type=tool_result", "output") = Some 1
  ∧ counts !! ("droid", "read_file", "jsonl:type=tool_call", "input") = Some 2
  ∧ counts !! ("droid", "bash", "jsonl:type=tool_call", "input") = Some 1
  ∧ counts !! ("droid", "bash", "jsonl:message.content[].type=tool_use", "input")
    = Some 1.
Proof. repeat split; vm_compute; reflexivity. Qed.

(** * Further properties of the code *)

Local Open Scope nat_scope.

(** ** The baseline diff as a patch *)

Lemma set_of_sorted (X : gset string) : set_of (sorted X) = X.
Proof.
  apply set_eq. intros x. unfold set_of. by rewrite elem_of_list_to_set, elem_of_sorted.
Qed.

Lemma sorted_Sorted (X : gset string) : Sorted str_le (sorted X) ∧ NoDup (sorted X).
Proof.
  split.
  - apply Sorted_merge_sort. apply _.
  - unfold sorted. rewrite merge_sort_Permutation. apply NoDup_elements.
Qed.

Lemma get_list_unknown_keys O B t :
  get_list (unknown_keys (_schema_diff O B)) t = extra_keys O B t.
Proof.
  unfold get_list at 1. rewrite unknown_keys_lookup.
  destruct (decide (extra_keys O B t = [])) as [->|]; done.
Qed.

Lemma get_list_missing_keys O B t :
  get_list (missing_keys (_schema_diff O B)) t = extra_keys B O t.
Proof.
  unfold get_list at 1. rewrite missing_keys_lookup.
  destruct (decide (extra_keys B O t = [])) as [->|]; done.
Qed.

Lemma patch_sets (o b : gset string) : o = (b ∖ (b ∖ o)) ∪ (o ∖ b).
Proof.
  apply set_eq. intros x.
  rewrite elem_of_union, !elem_of_difference.
  destruct (decide (x ∈ b)); destruct (decide (x ∈ o)); tauto.
Qed.

(** X1. The diff is a patch that turns the baseline into the observed
    fingerprint: the observed types are the baseline types without the
    missing types, plus the unknown types; and under every type the observed
    keys are the baseline keys without the missing keys of that type, plus
    its unknown keys. *)
Theorem schema_diff_patches_baseline (O B : gmap string (list string)) :
  let d := _schema_diff O B in
  dom O = (dom B ∖ set_of (missing_types d)) ∪ set_of (unknown_types d)
  ∧ ∀ t, set_of (get_list O t)
         = (set_of (get_list B t) ∖ set_of (get_list (missing_keys d) t))
           ∪ set_of (get_list (unknown_keys d) t).
Proof.
  intros d. split.
  - unfold d, _schema_diff; cbn. rewrite !set_of_sorted. apply patch_sets.
  - intros t. unfold d. rewrite get_list_unknown_keys, get_list_missing_keys.
    unfold extra_keys. rewrite !set_of_sorted. apply patch_sets.
Qed.

Lemma unknown_keys_empty_iff O B :
  unknown_keys (_schema_diff O B) = ∅
  ↔ ∀ t, set_of (get_list O t) ⊆ set_of (get_list B t).
Proof.
  split.
  - intros E t. apply empty_difference_subseteq_L.
    rewrite <- (set_of_sorted (_ ∖ _)). fold (extra_keys O B t).
    rewrite <- get_list_unknown_keys, E. unfold get_list. by rewrite lookup_empty.
  - intros H. apply map_eq. intros t. rewrite unknown_keys_lookup, lookup_empty.
    rewrite decide_True; [done|]. by apply sorted_nil_iff, subseteq_empty_difference_L.
Qed.

Lemma missing_keys_empty_iff O B :
  missing_keys (_schema_diff O B) = ∅
  ↔ ∀ t, set_of (get_list B t) ⊆ set_of (get_list O t).
Proof.
  split.
  - intros E t. apply empty_difference_subseteq_L.
    rewrite <- (set_of_sorted (_ ∖ _)). fold (extra_keys B O t).
    rewrite <- get_list_missing_keys, E. unfold get_list. by rewrite lookup_empty.
  - intros H. apply map_eq. intros t. rewrite missing_keys_lookup, lookup_empty.
    rewrite decide_True; [done|]. by apply sorted_nil_iff, subseteq_empty_difference_L.
Qed.

(** X2. [is_empty] is true exactly when the two fingerprints have the same
    types and, under every type, the same set of keys; the order and the
    repetitions of the keys in the lists do not count. *)
Theorem schema_diff_is_empty_iff_same (O B : gmap string (list string)) :
  is_empty (_schema_diff O B) = true
  ↔ dom O = dom B ∧ ∀ t, set_of (get_list O t) = set_of (get_list B t).
Proof.
  change (is_empty (_schema_diff O B))
    with (is_nil (unknown_types (_schema_diff O B))
          && is_nil (missing_types (_schema_diff O B))
          && is_empty_dict (unknown_keys (_schema_diff O B))
          && is_empty_dict (missing_keys (_schema_diff O B))).
  rewrite !andb_true_iff, !is_nil_true, !is_empty_dict_true.
  rewrite unknown_keys_empty_iff, missing_keys_empty_iff.
  unfold _schema_diff; cbn. rewrite !sorted_nil_iff.
  split.
  - intros [[[H1 H2] H3] H4]. split.
    + apply (anti_symm (⊆)); by apply empty_difference_subseteq_L.
    + intros t. apply (anti_symm (⊆)); auto.
  - intros [Hd Hk]. repeat split.
    + rewrite Hd. apply difference_diag_L.
    + rewrite Hd. apply difference_diag_L.
    + intros t. by rewrite Hk.
    + intros t. by rewrite Hk.
Qed.

(** X3. The four parts of a diff are in canonical form.  Both lists of types
    are sorted and free of duplicates, and no type is both unknown and
    missing.  Every list kept in [unknown_keys] or [missing_keys] is
    non-empty, sorted and free of duplicates, and holds exactly the keys of
    one side that the other side lacks under that type. *)
Theorem schema_diff_lists_sorted (O B : gmap string (list string)) :
  let d := _schema_diff O B in
  Sorted str_le (unknown_types d) ∧ NoDup (unknown_types d)
  ∧ Sorted str_le (missing_types d) ∧ NoDup (missing_types d)
  ∧ (∀ x, x ∈ unknown_types d → x ∉ missing_types d)
  ∧ (∀ t l, unknown_keys d !! t = Some l →
       l ≠ [] ∧ Sorted str_le l ∧ NoDup l
       ∧ ∀ k, k ∈ l ↔ k ∈ get_list O t ∧ k ∉ get_list B t)
  ∧ (∀ t l, missing_keys d !! t = Some l →
       l ≠ [] ∧ Sorted str_le l ∧ NoDup l
       ∧ ∀ k, k ∈ l ↔ k ∈ get_list B t ∧ k ∉ get_list O t).
Proof.
  intros d.
  assert (Hkeys : ∀ x y t l,
    (if decide (extra_keys x y t = []) then None else Some (extra_keys x y t)) = Some l →
    l ≠ [] ∧ Sorted str_le l ∧ NoDup l
    ∧ ∀ k, k ∈ l ↔ k ∈ get_list x t ∧ k ∉ get_list y t).
  { intros x y t l H. destruct (decide (extra_keys x y t = [])) as [|Hne]; [done|].
    injection H as <-. split; [done|]. unfold extra_keys.
    split; [apply sorted_Sorted|]. split; [apply sorted_Sorted|].
    intros k. rewrite elem_of_sorted, elem_of_difference. unfold set_of.
    by rewrite !elem_of_list_to_set. }
  unfold d, _schema_diff; cbn.
  split; [apply sorted_Sorted|]. split; [apply sorted_Sorted|].
  split; [apply sorted_Sorted|]. split; [apply sorted_Sorted|].
  split; [|split].
  - intros x. rewrite !elem_of_sorted, !elem_of_difference. tauto.
  - intros t l H. apply (Hkeys O B t l). rewrite <- H. symmetry. apply unknown_keys_lookup.
  - intros t l H. apply (Hkeys B O t l). rewrite <- H. symmetry. apply missing_keys_lookup.
Qed.

(** ** The line cap *)

Lemma last_n_all {A} (n : nat) (l : list A) : length l ≤ n → last_n n l = l.
Proof. intros H. unfold last_n. by replace (length l - n) with 0 by lia. Qed.

Lemma last_n_length {A} (n : nat) (l : list A) : length (last_n n l) = length l `min` n.
Proof. unfold last_n. rewrite length_drop. lia. Qed.

Lemma last_n_snoc {A} (n : nat) (l : list A) (x : A) :
  last_n n (last_n n l ++ [x]) = last_n n (l ++ [x]).
Proof.
  unfold last_n. rewrite !length_app, length_drop. cbn [length].
  destruct (decide (n = 0)) as [->|Hn].
  { rewrite !drop_ge; [done|rewrite length_app; cbn; lia|].
    rewrite length_app, length_drop. cbn. lia. }
  destruct (decide (length l ≤ n)) as [Hle|Hgt].
  - replace (length l - n) with 0 by lia. cbn [drop]. f_equal; lia.
  - replace (length l - (length l - n) + 1 - n) with 1 by lia.
    replace (length l + 1 - n) with (S (length l - n)) by lia.
    rewrite drop_app_le by (rewrite length_drop; lia).
    rewrite (drop_app_le l) by lia.
    f_equal. rewrite drop_drop. f_equal. lia.
Qed.

Lemma keep_line_last_n (max_lines : Z) (held : list Line) (line : Line) :
  let n := Z.to_nat (Z.max 0 max_lines) in
  length held ≤ n → is_blank line = false →
  keep_line max_lines held line = last_n n (held ++ [line]).
Proof.
  intros n Hlen Hnb. unfold keep_line. rewrite Hnb.
  rewrite length_app. cbn [length].
  destruct (Z.of_nat (length held + 1) >? max_lines)%Z eqn:E.
  - apply Z.gtb_lt in E.
    assert (length held = n) as Hn by lia.
    unfold last_n. rewrite length_app. cbn [length].
    replace (length held + 1 - n) with 1 by lia.
    destruct held; [done|]. reflexivity.
  - rewrite Z.gtb_ltb in E. apply Z.ltb_ge in E.
    rewrite last_n_all; [done|]. rewrite length_app. cbn. lia.
Qed.

Lemma foldl_keep_line (max_lines : Z) (content held : list Line) :
  let n := Z.to_nat (Z.max 0 max_lines) in
  foldl (keep_line max_lines) (last_n n held) content
  = last_n n (held ++ non_blank content).
Proof.
  intros n. revert held. induction content as [|line content IH]; intros held; cbn [foldl].
  - unfold non_blank. by rewrite filter_nil, app_nil_r.
  - destruct (is_blank line) eqn:E.
    + unfold keep_line at 2. rewrite E. unfold non_blank.
      rewrite filter_cons_False by congruence. apply IH.
    + rewrite keep_line_last_n; [|rewrite last_n_length; lia|done].
      fold n. rewrite last_n_snoc, IH. unfold non_blank.
      rewrite (filter_cons_True _ line) by done. by rewrite <- app_assoc.
Qed.

Lemma kept_lines (max_lines : Z) (content : list Line) :
  foldl (keep_line max_lines) [] content
  = last_n (Z.to_nat (Z.max 0 max_lines)) (non_blank content).
Proof.
  change (@nil Line) with (last_n (Z.to_nat (Z.max 0 max_lines)) (@nil Line)) at 1.
  by rewrite foldl_keep_line.
Qed.

Lemma objects_and_errors_disjoint (lines : list Line) :
  length (filter (λ l, is_object_line l = true) lines)
  + length (filter (λ l, is_error_line l = true) lines) ≤ length lines.
Proof.
  induction lines as [|[| |[| | | | |obj]] lines IH]; cbn [length];
    rewrite ?filter_nil, ?filter_cons; repeat case_decide; try done;
    cbn [length] in *; lia.
Qed.

(** X4. The JSONL fingerprint reads the tail of the file.  With
    [n = max(0, max_lines)], it is the report on the last [n] non-blank
    lines; [parsed_lines] is the smaller of [n] and the number of non-blank
    lines; and once the file holds at least [n] non-blank lines, lines put in
    front of it change nothing. *)
Theorem jsonl_fingerprint_reads_tail (path : string) (content : list Line) (max_lines : Z) :
  let n := Z.to_nat (Z.max 0 max_lines) in
  _jsonl_schema_fingerprint path content max_lines
  = report path (fold_lines (last_n n (non_blank content)))
  ∧ parsed_lines (_jsonl_schema_fingerprint path content max_lines)
    = length (non_blank content) `min` n
  ∧ (∀ older, n ≤ length (non_blank content) →
       _jsonl_schema_fingerprint path (older ++ content) max_lines
       = _jsonl_schema_fingerprint path content max_lines).
Proof.
  intros n.
  unfold _jsonl_schema_fingerprint. rewrite !kept_lines. fold n. split; [done|]. split.
  - cbn [report parsed_lines]. unfold fold_lines.
    rewrite fold_lines_total. cbn. by rewrite last_n_length.
  - intros older Hfull. rewrite kept_lines. fold n. do 2 f_equal.
    unfold non_blank. rewrite filter_app. fold (non_blank older) (non_blank content).
    unfold last_n. rewrite length_app.
    rewrite drop_app_ge by lia. f_equal. lia.
Qed.

Lemma jsonl_fingerprint_reads_tail_witness :
  _jsonl_schema_fingerprint "s.jsonl" ([user_line; BadLine] ++ [tool_line; BlankLine]) 1
  = _jsonl_schema_fingerprint "s.jsonl" [tool_line; BlankLine] 1.
Proof.
  apply (proj2 (proj2 (jsonl_fingerprint_reads_tail "s.jsonl" [tool_line; BlankLine] 1))).
  vm_compute. lia.
Defined.

(** ** Accounting *)

Lemma sum_counts_empty `{Countable K} : sum_counts (∅ : gmap K nat) = 0.
Proof. apply map_fold_empty. Qed.

Lemma sum_counts_insert `{Countable K} (m : gmap K nat) k n :
  m !! k = None → sum_counts (<[k := n]> m) = n + sum_counts m.
Proof.
  intros Hk. unfold sum_counts. rewrite map_fold_insert_L; [done| |done].
  intros. lia.
Qed.

Lemma sum_counts_bump `{Countable K} (m : gmap K nat) k :
  sum_counts (<[k := S (default 0 (m !! k))]> m) = S (sum_counts m).
Proof.
  destruct (m !! k) as [n|] eqn:E; cbn.
  - rewrite <- (insert_delete_id m k n E) at 2.
    rewrite <- insert_delete_eq.
    rewrite !sum_counts_insert by apply lookup_delete_eq. lia.
  - by rewrite sum_counts_insert.
Qed.

Lemma no_buckets_ok : buckets_ok no_buckets.
Proof. split; [done|]. intros t n. cbn. by rewrite lookup_empty. Qed.

Lemma add_ok t obj b : buckets_ok b → buckets_ok (_add t obj b).
Proof.
  intros [Hdom Hpos]. split; cbn [_add b_type_counts b_type_keys].
  - rewrite !dom_insert_L. by rewrite Hdom.
  - intros u n. destruct (decide (u = t)) as [->|Hne].
    + rewrite lookup_insert_eq. intros [= <-]. lia.
    + rewrite lookup_insert_ne by done. apply Hpos.
Qed.

Lemma add_sum t obj b :
  sum_counts (b_type_counts (_add t obj b)) = S (sum_counts (b_type_counts b)).
Proof. cbn [_add b_type_counts]. apply sum_counts_bump. Qed.

Lemma ingest_line_accounts (st : ScanState) (raw : Line) :
  sum_counts (b_type_counts (buckets (ingest_line st raw)))
  = sum_counts (b_type_counts (buckets st)) + (if is_object_line raw then 1 else 0)
  ∧ errors (ingest_line st raw) = errors st + (if is_error_line raw then 1 else 0)
  ∧ (buckets_ok (buckets st) → buckets_ok (buckets (ingest_line st raw))).
Proof.
  destruct raw as [| |[| | | | |obj]];
    cbn [ingest_line buckets errors is_object_line is_error_line];
    rewrite ?add_sum; (split; [lia|split; [lia|]]); try done.
  apply add_ok.
Qed.

Lemma length_filter_cons {A} (p : A → bool) (x : A) (l : list A) :
  length (filter (λ y, p y = true) (x :: l))
  = (if p x then 1 else 0) + length (filter (λ y, p y = true) l).
Proof.
  rewrite filter_cons. destruct (p x) eqn:E.
  - by rewrite decide_True.
  - rewrite decide_False; [done|]. congruence.
Qed.

Lemma fold_lines_accounts (lines : list Line) (st : ScanState) :
  sum_counts (b_type_counts (buckets (foldl ingest_line st lines)))
  = sum_counts (b_type_counts (buckets st))
    + length (filter (λ l, is_object_line l = true) lines)
  ∧ errors (foldl ingest_line st lines)
    = errors st + length (filter (λ l, is_error_line l = true) lines)
  ∧ (buckets_ok (buckets st) → buckets_ok (buckets (foldl ingest_line st lines))).
Proof.
  revert st. induction lines as [|raw lines IH]; intros st; cbn [foldl].
  - rewrite !filter_nil. cbn [length]. split; [lia|split; [lia|done]].
  - destruct (IH (ingest_line st raw)) as (Hs & He & Hok).
    destruct (ingest_line_accounts st raw) as (Hs1 & He1 & Hok1).
    rewrite Hs, He, Hs1, He1, !length_filter_cons.
    split; [lia|]. split; [lia|]. auto.
Qed.

(** X5. Accounting of the JSONL fingerprint over the lines it keeps: the
    counts of all types add up to the number of kept lines that decode to an
    object, [parse_errors] is the number of kept lines that do not decode,
    both together never exceed [parsed_lines]; [type_counts] and [type_keys]
    have the same types, every count is at least one, and every list of keys
    is sorted and free of duplicates. *)
Theorem jsonl_fingerprint_accounts (path : string) (content : list Line) (max_lines : Z) :
  let fp := _jsonl_schema_fingerprint path content max_lines in
  let kept := last_n (Z.to_nat (Z.max 0 max_lines)) (non_blank content) in
  sum_counts (type_counts fp) = length (filter (λ l, is_object_line l = true) kept)
  ∧ parse_errors fp = length (filter (λ l, is_error_line l = true) kept)
  ∧ sum_counts (type_counts fp) + parse_errors fp ≤ parsed_lines fp
  ∧ dom (type_counts fp) = dom (type_keys fp)
  ∧ (∀ t n, type_counts fp !! t = Some n → 1 ≤ n)
  ∧ (∀ t ks, type_keys fp !! t = Some ks → Sorted str_le ks ∧ NoDup ks).
Proof.
  intros fp kept.
  unfold fp, _jsonl_schema_fingerprint. rewrite kept_lines. fold kept.
  destruct (fold_lines_accounts kept scan_start) as (Hs & He & Hok).
  fold (fold_lines kept) in Hs, He, Hok.
  destruct (Hok no_buckets_ok) as [Hdom Hpos].
  cbn [report type_counts parse_errors parsed_lines type_keys].
  rewrite Hs, He. cbn [scan_start buckets no_buckets b_type_counts errors].
  rewrite (sum_counts_empty (K:=string)). cbn [Nat.add].
  split; [done|]. split; [done|]. split; [|split; [|split]].
  - unfold fold_lines. rewrite fold_lines_total. cbn.
    pose proof (objects_and_errors_disjoint kept). lia.
  - unfold sorted_type_keys. by rewrite dom_fmap_L.
  - done.
  - intros t ks. unfold sorted_type_keys. rewrite lookup_fmap.
    destruct (b_type_keys (buckets (fold_lines kept)) !! t) as [X|]; [|done].
    cbn. intros [= <-]. apply sorted_Sorted.
Qed.

(** ** Merging is a union *)

Lemma merged_keys (fps : list Fingerprint) (m : gmap string (gset string)) t k :
  k ∈ default ∅ (foldl merge_fingerprint m fps !! t)
  ↔ k ∈ default ∅ (m !! t)
    ∨ ∃ fp ks, fp ∈ fps ∧ type_keys fp !! t = Some ks ∧ k ∈ ks.
Proof.
  revert m. induction fps as [|fp fps IH]; intros m; cbn [foldl].
  - split; [by left|]. intros [?|(fp & ks & Hin & _)]; [done|].
    by apply elem_of_nil in Hin.
  - rewrite IH, merge_fingerprint_lookup. split.
    + intros [Hk|(fp' & ks & Hin & Hks & Hk)].
      * destruct (type_keys fp !! t) as [ks|] eqn:E; cbn in Hk; [|by left].
        apply elem_of_union in Hk as [Hk|Hk]; [by left|].
        right. exists fp, ks. split; [by left|]. split; [done|].
        by apply elem_of_list_to_set in Hk.
      * right. exists fp', ks. split; [by right|done].
    + intros [Hk|(fp' & ks & Hin & Hks & Hk)].
      * left. destruct (type_keys fp !! t); cbn; [|done].
        apply elem_of_union. by left.
      * apply elem_of_cons in Hin as [->|Hin].
        -- left. rewrite Hks. cbn. apply elem_of_union. right.
           by apply elem_of_list_to_set.
        -- right. by exists fp', ks.
Qed.

Lemma merged_types (fps : list Fingerprint) (m : gmap string (gset string)) t :
  is_Some (foldl merge_fingerprint m fps !! t)
  ↔ is_Some (m !! t) ∨ ∃ fp, fp ∈ fps ∧ is_Some (type_keys fp !! t).
Proof.
  revert m. induction fps as [|fp fps IH]; intros m; cbn [foldl].
  - split; [by left|]. intros [?|(fp & Hin & _)]; [done|].
    by apply elem_of_nil in Hin.
  - rewrite IH, merge_fingerprint_lookup. split.
    + intros [Hk|(fp' & Hin & Hks)].
      * destruct (type_keys fp !! t) as [ks|] eqn:E; [|by left].
        right. exists fp. split; [by left|]. rewrite E. by eexists.
      * right. exists fp'. split; [by right|done].
    + intros [Hk|(fp' & Hin & Hks)].
      * left. destruct (type_keys fp !! t); [by eexists|done].
      * apply elem_of_cons in Hin as [->|Hin].
        -- left. destruct Hks as [ks ->]. by eexists.
        -- right. by exists fp'.
Qed.

(** X6. Merging fingerprints is a union: a type is in the result exactly
    when some fingerprint has it, a key is listed under a type exactly when
    some fingerprint lists it there, every resulting list is sorted and free
    of duplicates, and merging the single fingerprint of a JSONL file gives
    back its [type_keys]. *)
Theorem merge_type_keys_is_union (fps : list Fingerprint) :
  (∀ t, is_Some (_merge_type_keys fps !! t)
        ↔ ∃ fp, fp ∈ fps ∧ is_Some (type_keys fp !! t))
  ∧ (∀ t k, k ∈ get_list (_merge_type_keys fps) t
            ↔ ∃ fp ks, fp ∈ fps ∧ type_keys fp !! t = Some ks ∧ k ∈ ks)
  ∧ (∀ t ks, _merge_type_keys fps !! t = Some ks → Sorted str_le ks ∧ NoDup ks)
  ∧ (∀ path content max_lines,
       _merge_type_keys [_jsonl_schema_fingerprint path content max_lines]
       = type_keys (_jsonl_schema_fingerprint path content max_lines)).
Proof.
  split; [|split; [|split]].
  - intros t. unfold _merge_type_keys, sorted_type_keys.
    rewrite lookup_fmap, fmap_is_Some, merged_types, lookup_empty.
    split; [intros [[? ?]|?]; done|by right].
  - intros t k. unfold _merge_type_keys, sorted_type_keys, get_list.
    rewrite lookup_fmap.
    pose proof (merged_keys fps ∅ t k) as H. rewrite lookup_empty in H.
    assert (H' : k ∈ default ∅ (foldl merge_fingerprint ∅ fps !! t)
                 ↔ ∃ fp ks, fp ∈ fps ∧ type_keys fp !! t = Some ks ∧ k ∈ ks).
    { rewrite H. split; [intros [Hk|?]; [|done]|by right].
      cbn in Hk. by apply elem_of_empty in Hk. }
    rewrite <- H'. destruct (foldl merge_fingerprint ∅ fps !! t) as [X|]; cbn.
    + apply elem_of_sorted.
    + rewrite elem_of_nil, elem_of_empty. done.
  - intros t ks. unfold _merge_type_keys, sorted_type_keys. rewrite lookup_fmap.
    destruct (foldl merge_fingerprint ∅ fps !! t) as [X|]; [|done].
    cbn. intros [= <-]. apply sorted_Sorted.
  - intros path content max_lines.
    unfold _merge_type_keys, _jsonl_schema_fingerprint, report; cbn [foldl type_keys].
    set (tk := b_type_keys _).
    apply map_eq. intros t. unfold sorted_type_keys at 1.
    rewrite lookup_fmap, merge_fingerprint_lookup. cbn [type_keys].
    unfold sorted_type_keys. rewrite lookup_fmap, lookup_empty.
    destruct (tk !! t) as [X|]; cbn; [|done].
    by rewrite set_of_sorted, (left_id_L ∅ (∪)).
Qed.

(** ** Looking for a type in the head of a file *)

Lemma contains_type_loop_spec (lines : list Line) (required : gset string)
    (max_lines seen : Z) :
  (0 ≤ seen)%Z →
  contains_type_loop lines required max_lines seen = true
  ↔ ∃ line, line ∈ take (Z.to_nat (max_lines - seen)) (non_blank lines)
            ∧ has_required_type required line.
Proof.
  revert seen. induction lines as [|line lines IH]; intros seen Hseen;
    cbn [contains_type_loop].
  - unfold non_blank. rewrite filter_nil, take_nil. split; [done|].
    intros (l & Hl & _). by apply elem_of_nil in Hl.
  - destruct (is_blank line) eqn:Eb.
    + rewrite IH by done. unfold non_blank. by rewrite filter_cons_False by congruence.
    + unfold non_blank. rewrite filter_cons_True by done. fold (non_blank lines).
      destruct (seen + 1 >? max_lines)%Z eqn:Ecap.
      * apply Z.gtb_lt in Ecap.
        replace (Z.to_nat (max_lines - seen)) with 0 by lia. cbn [take].
        split; [done|]. intros (l & Hl & _). by apply elem_of_nil in Hl.
      * rewrite Z.gtb_ltb in Ecap. apply Z.ltb_ge in Ecap.
        replace (Z.to_nat (max_lines - seen)) with (S (Z.to_nat (max_lines - (seen + 1))))
          by lia.
        rewrite firstn_cons.
        assert (Hrest : contains_type_loop lines required max_lines (seen + 1) = true
                        ↔ ∃ l, l ∈ take (Z.to_nat (max_lines - (seen + 1))) (non_blank lines)
                               ∧ has_required_type required l).
        { apply IH. lia. }
        assert (Hskip : ¬ has_required_type required line →
                  (∃ l, l ∈ line :: take (Z.to_nat (max_lines - (seen + 1))) (non_blank lines)
                        ∧ has_required_type required l)
                  ↔ ∃ l, l ∈ take (Z.to_nat (max_lines - (seen + 1))) (non_blank lines)
                         ∧ has_required_type required l).
        { intros Hno. split.
          - intros (l & Hl & Hreq). apply elem_of_cons in Hl as [->|Hl]; [done|].
            by exists l.
          - intros (l & Hl & Hreq). exists l. split; [by right|done]. }
        destruct line as [| |[| | | | |obj]];
          try (rewrite Hrest, Hskip; [done|];
               intros (o & t & Heq & _); discriminate Heq).
        destruct (obj_get obj "type") as [| | |t| |] eqn:Et;
          try (rewrite Hrest, Hskip; [done|];
               intros (o & t' & [= <-] & Ht & _); rewrite Et in Ht; discriminate Ht).
        destruct (bool_decide (t ∈ required)) eqn:Ein.
        -- apply bool_decide_eq_true in Ein. split; [|done]. intros _.
           exists (JsonLine (JObj obj)). split; [by left|]. by exists obj, t.
        -- apply bool_decide_eq_false in Ein. rewrite Hrest, Hskip; [done|].
           intros (o & t' & [= <-] & Ht & Hin). rewrite Et in Ht.
           injection Ht as <-. done.
Qed.

(** X7. [_jsonl_contains_any_type] answers [True] exactly when the file can
    be read and one of its first [max_lines] non-blank lines decodes to an
    object whose [type] is a string among the required types; an unreadable
    file and a cap below one give [False]. *)
Theorem jsonl_contains_any_type_spec (content : option (list Line))
    (required_types : gset string) (max_lines : Z) :
  _jsonl_contains_any_type content required_types max_lines = true
  ↔ ∃ lines line,
      content = Some lines
      ∧ line ∈ take (Z.to_nat max_lines) (non_blank lines)
      ∧ has_required_type required_types line.
Proof.
  destruct content as [lines|]; cbn [_jsonl_contains_any_type].
  - rewrite contains_type_loop_spec by done. rewrite Z.sub_0_r. split.
    + intros (line & Hin & Hreq). by exists lines, line.
    + intros (lines' & line & [= <-] & Hin & Hreq). by exists line.
  - split; [done|]. intros (? & ? & ? & _). done.
Qed.

(** ** Budgets of the tree scan *)

Lemma scan_parts_within n parts base part_files st :
  tree_within n parts base st → tree_within n parts base (scan_parts part_files st).
Proof.
  revert st. induction part_files as [|f part_files IH]; intros st H; cbn [scan_parts];
    [done|].
  destruct (total_parts_budget st <=? 0)%Z eqn:E; [done|].
  apply Z.leb_gt in E. destruct H as (Hb & Hm & Hp & Hall & Hok & Hsum).
  destruct f as [|[| | | | |obj]]; apply IH; unfold tree_within;
    cbn [total_parts_budget messages_parsed parts_parsed tree_errors tree_buckets];
    rewrite ?add_sum; repeat split; try lia; try apply Hok; try (by apply add_ok).
Qed.

Lemma scan_message_within n parts base storage st msg_file st' :
  scan_message storage st msg_file = Some st' →
  tree_within n parts base st → tree_within (S n) parts base st'.
Proof.
  intros Hscan H.
  assert (Hweak : tree_within (S n) parts base st).
  { destruct H as (Hb & Hm & Hp & Hall & Hok & Hsum). repeat split; try lia; apply Hok. }
  destruct msg_file as [|[| | | | |obj]]; cbn [scan_message] in Hscan;
    try (injection Hscan as <-; exact Hweak).
  - injection Hscan as <-.
    destruct H as (Hb & Hm & Hp & Hall & Hok & Hsum). unfold tree_within;
      cbn [total_parts_budget messages_parsed parts_parsed tree_errors tree_buckets].
    repeat split; try lia; apply Hok.
  - revert Hscan.
    set (st1 := {| tree_buckets := _; tree_errors := _; messages_parsed := _;
                   parts_parsed := _; total_parts_budget := _ |}).
    assert (H1 : tree_within (S n) parts base st1).
    { destruct H as (Hb & Hm & Hp & Hall & Hok & Hsum). unfold tree_within, st1;
        cbn [total_parts_budget messages_parsed parts_parsed tree_errors tree_buckets].
      rewrite add_sum. repeat split; try lia; by apply add_ok. }
    destruct (nonempty_str (obj_get obj "id")) as [mid|]; [|by intros [= <-]].
    destruct (part_dirs storage !! mid) as [[|part_files]|];
      [discriminate| |by intros [= <-]].
    destruct (total_parts_budget st1 <=? 0)%Z; intros [= <-]; [done|].
    by apply scan_parts_within.
Qed.

Lemma scan_messages_cons storage st msg_file msg_files :
  scan_messages storage st (msg_file :: msg_files)
  = scan_message storage st msg_file ≫= λ st', scan_messages storage st' msg_files.
Proof.
  unfold scan_messages. cbn [foldl mbind option_bind].
  destruct (scan_message storage st msg_file) as [st'|]; [done|].
  cbn. induction msg_files as [|f msg_files IH]; [done|]. exact IH.
Qed.

Lemma scan_messages_within parts base storage msg_files st n st' :
  scan_messages storage st msg_files = Some st' →
  tree_within n parts base st →
  tree_within (n + length msg_files) parts base st'.
Proof.
  revert st n. induction msg_files as [|f msg_files IH]; intros st n Hscan H.
  - injection Hscan as <-. cbn [length]. by replace (n + 0) with n by lia.
  - rewrite scan_messages_cons in Hscan.
    destruct (scan_message storage st f) as [st1|] eqn:E; [|discriminate Hscan].
    cbn in Hscan. cbn [length].
    replace (n + S (length msg_files)) with (S n + length msg_files) by lia.
    apply (IH st1); [done|]. by apply (scan_message_within _ _ _ storage st f).
Qed.

Lemma scan_messages_answers storage msg_files st :
  checks_answer storage → is_Some (scan_messages storage st msg_files).
Proof.
  intros Hanswer. revert st. induction msg_files as [|f msg_files IH]; intros st.
  - by eexists.
  - rewrite scan_messages_cons.
    assert (Hone : is_Some (scan_message storage st f)).
    { destruct f as [|[| | | | |obj]]; cbn [scan_message]; try by eexists.
      destruct (nonempty_str (obj_get obj "id")) as [mid|]; [|by eexists].
      destruct (part_dirs storage !! mid) as [[|part_files]|] eqn:E.
      - by destruct (Hanswer mid) as [_ Hpart].
      - destruct (_ <=? 0)%Z; by eexists.
      - by eexists. }
    destruct Hone as [st1 ->]. cbn. apply IH.
Qed.

(** X8. The scan of an OpenCode session tree stays within its budgets.  In
    every fingerprint that it returns, at most [max(0, max_messages)] message
    files and [max(0, max_parts)] part files are counted as parsed; parsed
    files and errors together are bounded by the two budgets, plus one for a
    session file that is not an object; the counts of all types add up to
    the parsed message and part files, plus one for a session object;
    [type_counts] and [type_keys] have the same types, and every count is at
    least one.  And the scan does return a fingerprint whenever no check of
    the existence of a directory raises. *)
Theorem tree_scan_within_budgets (path : string) (session_file : FileRead)
    (storage_root : option Storage) (max_messages max_parts : Z) :
  let result := _opencode_storage_session_tree_schema_fingerprint path session_file
                  storage_root max_messages max_parts in
  let messages := Z.to_nat (Z.max 0 max_messages) in
  let parts := Z.to_nat (Z.max 0 max_parts) in
  (∀ fp, result = Some fp →
     message_files_parsed fp ≤ messages
     ∧ part_files_parsed fp ≤ parts
     ∧ message_files_parsed fp + part_files_parsed fp + tree_parse_errors fp
       ≤ messages + parts + (1 - object_read session_file)
     ∧ sum_counts (tree_type_counts fp)
       = object_read session_file + message_files_parsed fp + part_files_parsed fp
     ∧ dom (tree_type_counts fp) = dom (tree_type_keys fp)
     ∧ (∀ t n, tree_type_counts fp !! t = Some n → 1 ≤ n))
  ∧ ((∀ storage, storage_root = Some storage → checks_answer storage) →
     is_Some result).
Proof.
  intros result messages parts.
  assert (Hdom : ∀ b, dom (b_type_counts b) = dom (sorted_type_keys (b_type_keys b))
                      ↔ dom (b_type_counts b) = dom (b_type_keys b)).
  { intros b. unfold sorted_type_keys. by rewrite dom_fmap_L. }
  assert (Hearly : ∀ b base warn,
    buckets_ok b → sum_counts (b_type_counts b) = base → base ≤ 1 →
    let st := {| tree_buckets := b; tree_errors := 0; messages_parsed := 0;
                 parts_parsed := 0; total_parts_budget := Z.max 0 max_parts |} in
    let r := tree_report path st 0 0 warn in
    message_files_parsed r ≤ messages ∧ part_files_parsed r ≤ parts
    ∧ message_files_parsed r + part_files_parsed r + tree_parse_errors r
      ≤ messages + parts + (1 - base)
    ∧ sum_counts (tree_type_counts r) = base + message_files_parsed r + part_files_parsed r
    ∧ dom (tree_type_counts r) = dom (tree_type_keys r)
    ∧ (∀ t n, tree_type_counts r !! t = Some n → 1 ≤ n)).
  { intros b base warn [Hd Hp] Hs Hb st r. unfold r, tree_report, st; cbn.
    rewrite Hdom. repeat split; try lia; try done. }
  unfold result, _opencode_storage_session_tree_schema_fingerprint.
  destruct session_file as [|session_obj]; cbn [object_read].
  { split; [|by eexists]. intros fp [= <-].
    cbn -[sum_counts]. repeat split; try lia; try done; try apply sum_counts_empty. }
  set (b := match session_obj with JObj members => _add "session" members no_buckets
            | _ => no_buckets end).
  set (base := object_read (ReadJson session_obj)).
  assert (Hb : buckets_ok b ∧ sum_counts (b_type_counts b) = base ∧ base ≤ 1).
  { unfold b, base. destruct session_obj; cbn [object_read];
      try (split; [apply no_buckets_ok|split; [apply (sum_counts_empty (K:=string))|lia]]).
    split; [apply add_ok, no_buckets_ok|]. rewrite add_sum.
    split; [|lia]. cbn -[sum_counts]. by rewrite (sum_counts_empty (K:=string)). }
  destruct Hb as (Hok & Hsum & Hle).
  change (match session_obj with JObj _ => 1 | _ => 0 end) with base.
  destruct (match session_obj with JObj members => nonempty_str (obj_get members "id")
            | _ => None end) as [sid|];
    [|split; [intros fp [= <-]; by apply Hearly|by eexists]].
  destruct storage_root as [storage|];
    [|split; [intros fp [= <-]; by apply Hearly|by eexists]].
  destruct (message_dirs storage !! sid) as [[|msg_files]|] eqn:Edir;
    [|
     |split; [intros fp [= <-]; by apply Hearly|by eexists]].
  { split; [discriminate|]. intros Hanswer.
    by destruct (Hanswer storage eq_refl sid) as [Hmsg _]. }
  set (st0 := {| tree_buckets := b; tree_errors := 0; messages_parsed := 0;
                 parts_parsed := 0; total_parts_budget := Z.max 0 max_parts |}).
  assert (H0 : tree_within 0 (Z.max 0 max_parts) base st0).
  { unfold tree_within, st0;
      cbn [total_parts_budget messages_parsed parts_parsed tree_errors tree_buckets].
    repeat split; try lia; apply Hok. }
  cbv zeta. split.
  - intros fp.
    destruct (scan_messages storage st0 (take (Z.to_nat (Z.max 0 max_messages)) msg_files))
      as [st|] eqn:Escan; [|discriminate].
    cbn. intros [= <-].
    pose proof (scan_messages_within (Z.max 0 max_parts) base storage _ st0 0 st Escan H0)
      as H.
    destruct H as (Hbud & Hm & Hp & Hall & [Hd Hpos] & Hs).
    rewrite length_take in Hm, Hall. cbn [Nat.add] in Hm, Hall.
    unfold tree_report; cbn [message_files_parsed part_files_parsed tree_parse_errors
                             tree_type_counts tree_type_keys].
    rewrite Hdom. subst messages parts.
    repeat split; try lia; try done.
  - intros Hanswer.
    destruct (scan_messages_answers storage
                (take (Z.to_nat (Z.max 0 max_messages)) msg_files) st0
                (Hanswer storage eq_refl)) as [st ->].
    by eexists.
Qed.

Lemma tree_scan_within_budgets_witness :
  ∃ fp, _opencode_storage_session_tree_schema_fingerprint "ses_42.json"
          (ReadJson (JObj session_example)) (Some storage_example) 250 2 = Some fp
        ∧ message_files_parsed fp ≤ 250 ∧ part_files_parsed fp ≤ 2.
Proof.
  eexists. split; [vm_compute; reflexivity|].
  destruct (proj1 (tree_scan_within_budgets "ses_42.json"
                     (ReadJson (JObj session_example)) (Some storage_example) 250 2)
              _ eq_refl) as (Hm & Hp & _).
  split; [exact Hm|exact Hp].
Defined.

(** ** The Gemini session scan *)

Lemma gemini_items_within (items : list Json) (acc : Buckets * nat) :
  let acc' := foldl gemini_item acc items in
  acc'.2 ≤ acc.2 + length items
  ∧ sum_counts (b_type_counts acc'.1) + acc.2 = sum_counts (b_type_counts acc.1) + acc'.2
  ∧ (buckets_ok acc.1 → buckets_ok acc'.1)
  ∧ acc'.2 = acc.2 + length (filter (λ v, is_object v = true) items).
Proof.
  revert acc. induction items as [|item items IH]; intros acc; cbn [foldl length].
  - cbv zeta. rewrite filter_nil. cbn [length].
    split; [lia|split; [lia|split; [done|lia]]].
  - cbv zeta. destruct (IH (gemini_item acc item)) as (Hn & Hs & Hok & Hc).
    cbv zeta in Hn, Hs, Hok, Hc. rewrite length_filter_cons.
    destruct item; cbn [gemini_item is_object fst snd] in *;
      rewrite ?add_sum in *; (split; [lia|split; [lia|split; [|lia]]]); try done.
    intros H. by apply Hok, add_ok.
Qed.

(** X9. Accounting of the Gemini session fingerprint: at most
    [max(0, max_messages)] messages are counted; the counts of all types add
    up to [parsed_messages], plus one for the root bucket of an object;
    [type_counts] and [type_keys] have the same types, every count is at
    least one, and [parse_errors] is one exactly when the file could not be
    read or decoded. *)
Theorem gemini_scan_accounts (path : string) (file : FileRead) (max_messages : Z) :
  let fp := _gemini_session_json_schema_fingerprint path file max_messages in
  parsed_messages fp ≤ Z.to_nat (Z.max 0 max_messages)
  ∧ sum_counts (gemini_type_counts fp) = object_read file + parsed_messages fp
  ∧ dom (gemini_type_counts fp) = dom (gemini_type_keys fp)
  ∧ (∀ t n, gemini_type_counts fp !! t = Some n → 1 ≤ n)
  ∧ (gemini_parse_errors fp = 1 ↔ file = ReadFails).
Proof.
  intros fp.
  assert (Hres : ∀ items b base,
    buckets_ok b → sum_counts (b_type_counts b) = base →
    let acc := foldl gemini_item (b, 0) (take (Z.to_nat (Z.max 0 max_messages)) items) in
    acc.2 ≤ Z.to_nat (Z.max 0 max_messages)
    ∧ sum_counts (b_type_counts acc.1) = base + acc.2
    ∧ dom (b_type_counts acc.1) = dom (sorted_type_keys (b_type_keys acc.1))
    ∧ (∀ t n, b_type_counts acc.1 !! t = Some n → 1 ≤ n)).
  { intros items b base Hok Hsum acc.
    destruct (gemini_items_within (take (Z.to_nat (Z.max 0 max_messages)) items) (b, 0))
      as (Hn & Hs & Hok' & _).
    fold acc in Hn, Hs, Hok'. cbn [fst snd] in Hn, Hs, Hok'.
    rewrite length_take in Hn. destruct (Hok' Hok) as [Hd Hp].
    unfold sorted_type_keys. rewrite dom_fmap_L.
    split; [lia|]. split; [lia|]. done. }
  assert (Hroot : ∀ members, buckets_ok (_add "root" members no_buckets)
                    ∧ sum_counts (b_type_counts (_add "root" members no_buckets)) = 1).
  { intros members. split; [apply add_ok, no_buckets_ok|].
    rewrite add_sum. cbn -[sum_counts]. by rewrite (sum_counts_empty (K:=string)). }
  unfold fp, _gemini_session_json_schema_fingerprint.
  destruct file as [|[| | | |items|root]]; cbn [object_read].
  - cbn -[sum_counts]. repeat split; try lia; try done; try apply sum_counts_empty.
  - cbn -[sum_counts]. repeat split; try lia; try done; try apply sum_counts_empty.
  - cbn -[sum_counts]. repeat split; try lia; try done; try apply sum_counts_empty.
  - cbn -[sum_counts]. repeat split; try lia; try done; try apply sum_counts_empty.
  - cbn -[sum_counts]. repeat split; try lia; try done; try apply sum_counts_empty.
  - destruct (Hres items no_buckets 0 no_buckets_ok (sum_counts_empty (K:=string))) as (H1 & H2 & H3 & H4).
    cbn [parsed_messages gemini_type_counts gemini_type_keys gemini_parse_errors].
    repeat split; try done.
  - destruct (Hroot root) as [Hok Hsum].
    destruct (obj_get root "messages") as [| | | |messages|];
      cbn [parsed_messages gemini_type_counts gemini_type_keys gemini_parse_errors
           fst snd];
      try (unfold sorted_type_keys; rewrite dom_fmap_L;
           destruct Hok as [Hd Hp]; rewrite Hsum;
           repeat split; try lia; try done).
    destruct (Hres messages _ 1 Hok Hsum) as (H1 & H2 & H3 & H4).
    repeat split; try done.
Qed.

(** ** Severity and what is reported *)

(** X10. The decisions [_pick_severity] can take.  The result is one of five
    pairs; it is [high] exactly on a monitoring failure or a probe failure
    that upstream does not explain, [none] exactly when nothing failed and no
    version is newer, [low] exactly when only upstream is newer and there is
    no keyword hit; [ignore] goes with [none] only and [prepare_hotfix] with
    [high] only; without a probe failure the upstream-degraded flag is not
    consulted; and keyword hits never lower the severity. *)
Theorem pick_severity_cases (un inw mf : bool) (sh uh : list string) (pf dg : bool) :
  let r := _pick_severity un inw mf sh uh pf dg in
  let hits := negb (is_nil sh) || negb (is_nil uh) in
  r ∈ [("high", "prepare_hotfix"); ("medium", "monitor"); ("medium", "run_weekly_now");
       ("none", "ignore"); ("low", "monitor")]
  ∧ String.eqb r.1 "high" = mf || (pf && negb dg)
  ∧ String.eqb r.1 "none" = negb mf && negb pf && negb inw && negb un
  ∧ String.eqb r.1 "low" = negb mf && negb pf && negb inw && un && negb hits
  ∧ String.eqb r.2 "ignore" = String.eqb r.1 "none"
  ∧ String.eqb r.2 "prepare_hotfix" = String.eqb r.1 "high"
  ∧ _pick_severity un inw mf sh uh false dg = _pick_severity un inw mf sh uh false false
  ∧ severity_rank (_pick_severity un inw mf [] [] pf dg).1 ≤ severity_rank r.1.
Proof.
  assert (Hin : ∀ r : string * string,
            bool_decide (r ∈ [("high", "prepare_hotfix"); ("medium", "monitor");
                              ("medium", "run_weekly_now"); ("none", "ignore");
                              ("low", "monitor")]) = true → 
            r ∈ [("high", "prepare_hotfix"); ("medium", "monitor");
                 ("medium", "run_weekly_now"); ("none", "ignore"); ("low", "monitor")]).
  { intros r. apply bool_decide_eq_true_1. }
  destruct un, inw, mf, pf, dg, sh as [|s1 sh], uh as [|u1 uh];
    (split; [apply Hin; reflexivity|]); cbn; repeat (split; [reflexivity|]); lia.
Qed.

(** X11. What [main] reports for one agent.  In daily mode the decision is
    the one of [_pick_severity], and it is actionable exactly on a failure,
    a newer installed version, or a newer upstream version with a keyword
    hit.  In weekly mode it is actionable exactly on a failure or any newer
    version.  The recommendation is [bump_verified_version] exactly in weekly
    mode with a newer installed version, a schema that matches the baseline
    and neither probes nor monitoring failed, and the severity is then [low];
    a decision that is actionable in daily mode is actionable in weekly mode. *)
Theorem main_decision_actionable (mode : Mode) (un inw mf : bool) (sh uh : list string)
    (pf dg : bool) (ev : option bool) :
  let d := main_decision mode un inw mf sh uh pf dg ev in
  let hits := negb (is_nil sh) || negb (is_nil uh) in
  main_decision daily un inw mf sh uh pf dg ev = _pick_severity un inw mf sh uh pf dg
  ∧ actionable daily (main_decision daily un inw mf sh uh pf dg ev).1
    = mf || pf || inw || (un && hits)
  ∧ actionable weekly (main_decision weekly un inw mf sh uh pf dg ev).1
    = mf || pf || inw || un
  ∧ String.eqb d.2 "bump_verified_version"
    = is_weekly mode && inw && is_True ev && negb pf && negb mf
  ∧ implb (String.eqb d.2 "bump_verified_version") (String.eqb d.1 "low") = true
  ∧ implb (actionable daily d.1) (actionable weekly d.1) = true.
Proof.
  destruct mode, un, inw, mf, pf, dg, sh as [|s1 sh], uh as [|u1 uh], ev as [[]|];
    repeat (split; [reflexivity|]); reflexivity.
Qed.

(** ** The scanner and the text after the object *)

Lemma slice_app (t u : text) (start j : nat) :
  j ≤ length t → slice (t ++ u) start j = slice t start j.
Proof.
  intros Hj. unfold slice.
  destruct (decide (start ≤ length t)) as [Hs|Hs].
  - rewrite drop_app_le by done. rewrite take_app_le; [done|]. rewrite length_drop. lia.
  - replace (j - start) with 0 by lia. by rewrite !take_0.
Qed.

Lemma scan_braces_found (t : text) (start : nat) (rest : text) :
  ∀ (i : nat) (in_string escape : bool) (depth : Z) (s : text),
    rest = drop i t → i < length t ∨ rest = [] →
    scan_braces t start i rest in_string escape depth = Some s →
    ∃ k, i ≤ k < length t ∧ t !! k = Some rbrace ∧ s = slice t start (k + 1).
Proof.
  induction rest as [|ch rest IH]; intros i ins esc depth s Hrest Hi Hscan; [done|].
  assert (Hlt : i < length t).
  { destruct Hi as [|Hnil]; [done|discriminate Hnil]. }
  assert (Hch : t !! i = Some ch).
  { rewrite <- (Nat.add_0_r i), <- lookup_drop, <- Hrest. done. }
  assert (Htail : rest = drop (S i) t).
  { rewrite (drop_S _ _ _ Hch) in Hrest. by injection Hrest. }
  assert (Hstep : ∀ ins' esc' depth',
            scan_braces t start (S i) rest ins' esc' depth' = Some s →
            ∃ k, i ≤ k < length t ∧ t !! k = Some rbrace ∧ s = slice t start (k + 1)).
  { intros ins' esc' depth' Hs.
    destruct (IH (S i) ins' esc' depth' s Htail) as (k & Hk & Hr & ->); [|done|].
    - destruct (decide (S i < length t)) as [|Hge]; [by left|right].
      rewrite Htail. apply drop_ge. lia.
    - exists k. split; [lia|done]. }
  cbn [scan_braces] in Hscan.
  destruct ins.
  - destruct esc; [by eapply Hstep|].
    destruct (Ascii.eqb ch backslash); [by eapply Hstep|].
    destruct (Ascii.eqb ch dquote); by eapply Hstep.
  - destruct (Ascii.eqb ch dquote); [by eapply Hstep|].
    destruct (Ascii.eqb ch lbrace); [by eapply Hstep|].
    destruct (Ascii.eqb ch rbrace) eqn:Er; [|by eapply Hstep].
    cbv zeta in Hscan. destruct (depth - 1 =? 0)%Z; [|by eapply Hstep].
    apply Ascii.eqb_eq in Er. subst ch. injection Hscan as <-.
    exists i. split; [lia|done].
Qed.

Lemma scan_braces_app (t u : text) (start : nat) (rest : text) :
  ∀ (i : nat) (in_string escape : bool) (depth : Z) (s : text),
    i + length rest = length t →
    scan_braces t start i rest in_string escape depth = Some s →
    scan_braces (t ++ u) start i (rest ++ u) in_string escape depth = Some s.
Proof.
  induction rest as [|ch rest IH]; intros i ins esc depth s Hlen Hscan; [done|].
  cbn [length] in Hlen.
  assert (Hstep : ∀ ins' esc' depth',
            scan_braces t start (S i) rest ins' esc' depth' = Some s →
            scan_braces (t ++ u) start (S i) (rest ++ u) ins' esc' depth' = Some s).
  { intros ins' esc' depth'. apply IH. lia. }
  rewrite <- app_comm_cons. cbn [scan_braces] in Hscan |- *.
  destruct ins.
  - destruct esc; [by apply Hstep|].
    destruct (Ascii.eqb ch backslash); [by apply Hstep|].
    destruct (Ascii.eqb ch dquote); by apply Hstep.
  - destruct (Ascii.eqb ch dquote); [by apply Hstep|].
    destruct (Ascii.eqb ch lbrace); [by apply Hstep|].
    destruct (Ascii.eqb ch rbrace); [|by apply Hstep].
    cbv zeta in Hscan |- *. destruct (depth - 1 =? 0)%Z; [|by apply Hstep].
    rewrite slice_app by lia. done.
Qed.

(** X12. What [extract_balanced_braces] returns, from any offset.  Past the
    end of the text it returns [None].  A result is the slice of the text
    from [start] through an index that holds a closing brace; so it ends
    with that brace and is a prefix of the text from [start]; and text
    appended after it does not change the result. *)
Theorem extract_balanced_braces_stable (t : text) (start : nat) :
  (length t ≤ start → extract_balanced_braces t start = None)
  ∧ ∀ s, extract_balanced_braces t start = Some s →
      (∃ k, start ≤ k < length t ∧ t !! k = Some rbrace ∧ s = slice t start (k + 1))
      ∧ last s = Some rbrace
      ∧ s `prefix_of` drop start t
      ∧ ∀ u, extract_balanced_braces (t ++ u) start = Some s.
Proof.
  unfold extract_balanced_braces. split.
  - intros Hge. by rewrite drop_ge.
  - intros s Hs.
    destruct (decide (start < length t)) as [Hlt|Hge];
      [|rewrite drop_ge in Hs by lia; discriminate Hs].
    destruct (scan_braces_found t start (drop start t) start false false 0 s)
      as (k & Hk & Hr & Hslice); [done|by left|done|].
    split; [by exists k|].
    assert (Hs' : s = take (S (k - start)) (drop start t)).
    { rewrite Hslice. unfold slice. f_equal. lia. }
    split; [|split].
    + rewrite Hs', last_lookup, length_take, length_drop.
      replace (Init.Nat.pred (S (k - start) `min` (length t - start))) with (k - start) by lia.
      rewrite lookup_take_lt by lia. rewrite lookup_drop.
      replace (start + (k - start)) with k by lia. done.
    + rewrite Hs'. apply prefix_take.
    + intros u. rewrite drop_app_le by lia.
      apply scan_braces_app; [|done]. rewrite length_drop. lia.
Qed.

Lemma extract_balanced_braces_stable_witness :
  last tool_object = Some rbrace
  ∧ extract_balanced_braces (tool_text ++ tool_text) 10 = Some tool_object.
Proof.
  destruct (proj2 (extract_balanced_braces_stable tool_text 10) tool_object eq_refl)
    as (_ & Hlast & _ & Happ).
  split; [exact Hlast|exact (Happ tool_text)].
Defined.

(** ** Normalized names *)

Lemma token_char_facts (c : ascii) :
  is_token_char c = true →
  is_space c = false ∧ is_upper c = false ∧ unify_delimiter c = c ∧ to_lower c = c.
Proof.
  destruct c as [[] [] [] [] [] [] [] []]; vm_compute; intros Hc;
    try discriminate Hc; repeat split; reflexivity.
Qed.

Lemma lstrip_suffix (p : ascii → bool) (s : text) : lstrip p s `suffix_of` s.
Proof.
  induction s as [|c s IH]; [done|]. cbn. destruct (p c); [|done].
  by apply suffix_cons_r.
Qed.

Lemma lstrip_head (p : ascii → bool) (s : text) (c : ascii) :
  head (lstrip p s) = Some c → p c = false.
Proof.
  induction s as [|d s IH]; [done|]. cbn. destruct (p d) eqn:Hd; [done|].
  cbn. intros [= <-]. done.
Qed.

Lemma lstrip_id (p : ascii → bool) (s : text) :
  (∀ c, head s = Some c → p c = false) → lstrip p s = s.
Proof. destruct s as [|c s]; [done|]. intros Hc. cbn. by rewrite (Hc c). Qed.

Lemma last_suffix (s t : text) (c : ascii) :
  s `suffix_of` t → last s = Some c → last t = Some c.
Proof.
  intros [k ->] Hc. destruct s as [|d s]; [done|].
  rewrite last_app. by rewrite Hc.
Qed.

Lemma head_reverse (s : text) : head (reverse s) = last s.
Proof.
  destruct s as [|c s _] using rev_ind; [done|].
  by rewrite reverse_snoc, last_snoc.
Qed.

Lemma last_reverse (s : text) : last (reverse s) = head s.
Proof. by rewrite <- head_reverse, reverse_involutive. Qed.

Lemma strip_ends (p : ascii → bool) (s : text) (c : ascii) :
  head (strip p s) = Some c ∨ last (strip p s) = Some c → p c = false.
Proof.
  unfold strip. rewrite head_reverse, last_reverse. intros [Hc|Hc].
  - apply (last_suffix _ _ _ (lstrip_suffix p _)) in Hc.
    rewrite last_reverse in Hc. by apply lstrip_head in Hc.
  - by apply lstrip_head in Hc.
Qed.

Lemma strip_sublist (p : ascii → bool) (s : text) :
  ∃ a b, s = a ++ strip p s ++ b.
Proof.
  unfold strip.
  destruct (lstrip_suffix p s) as [a Ha].
  destruct (lstrip_suffix p (reverse (lstrip p s))) as [b Hb].
  exists a, (reverse b). rewrite Ha at 1. f_equal.
  rewrite <- (reverse_involutive (lstrip p s)), Hb at 1.
  by rewrite reverse_app.
Qed.

Lemma strip_id (p : ascii → bool) (s : text) :
  (∀ c, head s = Some c ∨ last s = Some c → p c = false) → strip p s = s.
Proof.
  intros Hc. unfold strip.
  rewrite (lstrip_id p s) by (intros c ?; apply Hc; by left).
  rewrite lstrip_id; [apply reverse_involutive|].
  intros c. rewrite head_reverse. intros ?. apply Hc. by right.
Qed.

Lemma squeeze_underscores_cons (a b : ascii) (s : text) :
  squeeze_underscores (a :: b :: s)
  = if Ascii.eqb a underscore && Ascii.eqb b underscore
    then squeeze_underscores (b :: s)
    else a :: squeeze_underscores (b :: s).
Proof. reflexivity. Qed.

Lemma camel_to_snake_cons (a b : ascii) (s : text) :
  camel_to_snake (a :: b :: s)
  = if (is_lower a || is_digit a) && is_upper b
    then a :: underscore :: b :: camel_to_snake s
    else a :: camel_to_snake (b :: s).
Proof. reflexivity. Qed.

Lemma squeeze_underscores_head (s : text) :
  head (squeeze_underscores s) = head s.
Proof.
  induction s as [|a s IH]; [done|]. destruct s as [|b s]; [done|].
  rewrite squeeze_underscores_cons.
  destruct (Ascii.eqb a underscore && Ascii.eqb b underscore) eqn:E; [|done].
  rewrite IH. cbn. apply andb_true_iff in E as [->%Ascii.eqb_eq ->%Ascii.eqb_eq]. done.
Qed.

Lemma squeeze_underscores_subseteq (s : text) (c : ascii) :
  c ∈ squeeze_underscores s → c ∈ s.
Proof.
  induction s as [|a s IH]; [done|]. destruct s as [|b s]; [done|].
  rewrite squeeze_underscores_cons.
  destruct (Ascii.eqb a underscore && Ascii.eqb b underscore).
  - intros Hc. right. by apply IH.
  - intros [->|Hc]%elem_of_cons; [left|right; by apply IH].
Qed.

Lemma squeeze_underscores_no_double (s : text) (a b : text) :
  squeeze_underscores s ≠ a ++ [underscore; underscore] ++ b.
Proof.
  revert a. induction s as [|x s IH]; intros a.
  - by destruct a as [|? [|]].
  - destruct s as [|y s]; [by destruct a as [|? [|? ?]]|].
    rewrite squeeze_underscores_cons.
    destruct (Ascii.eqb x underscore && Ascii.eqb y underscore) eqn:E; [apply IH|].
    pose proof (squeeze_underscores_head (y :: s)) as Hh.
    specialize (IH (tail a)).
    set (q := squeeze_underscores (y :: s)) in *.
    destruct a as [|x' a]; cbn [app tail] in *.
    + intros [= -> Hs]. rewrite Hs in Hh.
      cbn in Hh. injection Hh as <-. done.
    + intros [= <- Hs]. done.
Qed.

Lemma squeeze_underscores_id (s : text) :
  (∀ a b, s ≠ a ++ [underscore; underscore] ++ b) → squeeze_underscores s = s.
Proof.
  induction s as [|x s IH]; intros Hno; [done|]. destruct s as [|y s]; [done|].
  rewrite squeeze_underscores_cons.
  destruct (Ascii.eqb x underscore && Ascii.eqb y underscore) eqn:E.
  - apply andb_true_iff in E as [->%Ascii.eqb_eq ->%Ascii.eqb_eq].
    by destruct (Hno [] s).
  - f_equal. apply IH. intros a b Heq. apply (Hno (x :: a) b). by rewrite Heq.
Qed.

Lemma camel_to_snake_id (s : text) :
  Forall (λ c, is_upper c = false) s → camel_to_snake s = s.
Proof.
  induction 1 as [|a s Ha Hs IH]; [done|].
  destruct Hs as [|b s Hb Hs]; [done|].
  rewrite camel_to_snake_cons, Hb, andb_false_r. by rewrite IH.
Qed.

Lemma normalize_token_shaped (value : string) :
  token_shaped (list_ascii_of_string (normalize_token value)).
Proof.
  unfold normalize_token.
  destruct (is_nil (strip is_space (list_ascii_of_string value))).
  { split; [constructor|]. split; [done|]. split; [done|].
    intros a b. by destruct a as [|? [|]]. }
  cbv zeta. rewrite list_ascii_of_string_of_list_ascii.
  set (kept := List.filter is_token_char _).
  assert (Hkept : Forall (λ c, is_token_char c = true) kept).
  { apply Forall_forall. intros c Hc%list_elem_of_In. by apply List.filter_In in Hc as [_ ?]. }
  set (sq := squeeze_underscores kept).
  assert (Hsq : Forall (λ c, is_token_char c = true) sq).
  { apply Forall_forall. intros c Hc. apply squeeze_underscores_subseteq in Hc.
    by apply (proj1 (Forall_forall _ _) Hkept). }
  destruct (strip_sublist (λ c, Ascii.eqb c underscore) sq) as (a & b & Hab).
  split; [|split; [|split]].
  - rewrite Hab in Hsq. by apply Forall_app in Hsq as [_ [? _]%Forall_app].
  - intros Hh. by discriminate (strip_ends _ _ _ (or_introl Hh)).
  - intros Hl. by discriminate (strip_ends _ _ _ (or_intror Hl)).
  - intros a' b' Heq. rewrite Heq in Hab.
    apply (squeeze_underscores_no_double kept (a ++ a') (b' ++ b)).
    fold sq. rewrite Hab. by rewrite <- !app_assoc.
Qed.

Lemma normalize_token_fixed (s : text) :
  token_shaped s → normalize_token (string_of_list_ascii s) = string_of_list_ascii s.
Proof.
  intros (Hchars & Hhead & Hlast & Hno). unfold normalize_token.
  rewrite list_ascii_of_string_of_list_ascii.
  assert (Hends : ∀ c, head s = Some c ∨ last s = Some c → is_token_char c = true).
  { intros c [Hc|Hc]; apply (proj1 (Forall_forall _ _) Hchars).
    - destruct s; [done|]. injection Hc as ->. apply list_elem_of_here.
    - apply last_Some in Hc as [l' ->]. apply elem_of_app. right. apply list_elem_of_here. }
  rewrite strip_id by (intros c Hc; by apply token_char_facts, Hends).
  destruct (is_nil s) eqn:Enil; [apply is_nil_true in Enil; by subst s|].
  cbv zeta.
  rewrite camel_to_snake_id
    by (eapply Forall_impl; [exact Hchars|]; intros c Hc; by apply token_char_facts).
  assert (Hmap : ∀ f : ascii → ascii,
            (∀ c, is_token_char c = true → f c = c) → f <$> s = s).
  { intros f Hf. clear -Hchars Hf. induction Hchars as [|c s Hc _ IH]; [done|].
    cbn. by rewrite Hf, IH. }
  rewrite (Hmap unify_delimiter) by (intros c Hc; by apply token_char_facts).
  rewrite (Hmap to_lower) by (intros c Hc; by apply token_char_facts).
  assert (Hfilter : List.filter is_token_char s = s).
  { clear -Hchars. induction Hchars as [|c s Hc _ IH]; [done|]. cbn. by rewrite Hc, IH. }
  rewrite Hfilter, squeeze_underscores_id by done.
  rewrite strip_id; [done|].
  intros c [Hc|Hc]; apply Ascii.eqb_neq; congruence.
Qed.

Lemma normalize_token_idem (value : string) :
  normalize_token (normalize_token value) = normalize_token value.
Proof.
  pose proof (normalize_token_fixed _ (normalize_token_shaped value)) as Hfix.
  by rewrite string_of_list_ascii_of_string in Hfix.
Qed.

(** X13. [normalize_token] yields canonical tokens: only lower-case letters,
    digits and underscores, no underscore at either end, no two underscores
    in a row.  Normalizing twice is normalizing once, and a normalized token
    is its own normalized field name. *)
Theorem normalize_token_canonical (value : string) :
  token_shaped (list_ascii_of_string (normalize_token value))
  ∧ normalize_token (normalize_token value) = normalize_token value
  ∧ normalize_field_name (normalize_token value) = normalize_token value.
Proof.
  split; [apply normalize_token_shaped|]. split; [apply normalize_token_idem|].
  unfold normalize_field_name. rewrite normalize_token_idem. unfold str_or.
  destruct (String.eqb_spec (normalize_token value) "") as [->|]; done.
Qed.

(** X14. [normalize_tool_name] never returns the empty string; it is
    [unknown] or a normalized token, and applying it to its own result
    changes nothing.  [normalize_field_name] returns the empty string exactly
    for a name made of white space only. *)
Theorem normalized_names_nonempty (name : option string) (field : string) :
  normalize_tool_name name ≠ ""
  ∧ normalize_tool_name (Some (normalize_tool_name name)) = normalize_tool_name name
  ∧ (∃ token, normalize_tool_name name = str_or (normalize_token token) "unknown")
  ∧ (normalize_field_name field = ""
     ↔ strip is_space (list_ascii_of_string field) = []).
Proof.
  assert (Hunknown : normalize_token "unknown" = "unknown") by reflexivity.
  assert (Hor : ∀ x, str_or x "unknown" ≠ "").
  { intros x. unfold str_or. by destruct (String.eqb_spec x ""). }
  assert (Hcases : normalize_tool_name name = "unknown"
                   ∨ ∃ v, normalize_tool_name name = normalize_token v
                          ∧ normalize_token v ≠ "").
  { destruct name as [name|]; [|by left]. cbn.
    destruct (String.eqb name ""); [by left|]. unfold str_or.
    destruct (String.eqb_spec (normalize_token name) ""); [by left|].
    right. by exists name. }
  split; [|split; [|split]].
  - destruct name as [name|]; [|done]. cbn. destruct (String.eqb name ""); [done|]. apply Hor.
  - destruct Hcases as [->|(v & -> & Hv)]; [reflexivity|].
    cbn. destruct (String.eqb_spec (normalize_token v) ""); [done|].
    rewrite normalize_token_idem.
    unfold str_or. by destruct (String.eqb_spec (normalize_token v) "").
  - destruct Hcases as [->|(v & -> & Hv)]; [by exists "unknown"|].
    exists v. unfold str_or. by destruct (String.eqb_spec (normalize_token v) "").
  - unfold normalize_field_name, normalize_token, str_or.
    destruct (strip is_space (list_ascii_of_string field)) as [|c s] eqn:Es.
    + done.
    + cbn [is_nil]. cbv zeta.
      match goal with |- context [String.eqb ?x ""] =>
        destruct (String.eqb_spec x "") as [Hx|Hx] end.
      * split; intros Hz; discriminate Hz.
      * split; [done|intros Hz; discriminate Hz].
Qed.

(** ** The catalog after a scan *)

Lemma foldl_preserves {A B} (P : A → Prop) (f : A → B → A) (l : list B) (a : A) :
  (∀ a x, P a → P (f a x)) → P a → P (foldl f a l).
Proof.
  intros Hstep. revert a. induction l as [|x l IH]; intros a Ha; cbn; [done|].
  by apply IH, Hstep.
Qed.

Lemma add_example_spec (held : list Example) (e : Example) (max_examples : Z) :
  length held ≤ Z.to_nat max_examples →
  (add_example held e max_examples = held
   ∨ (add_example held e max_examples = held ++ [e] ∧ example_is_too_large e = false))
  ∧ length (add_example held e max_examples) ≤ Z.to_nat max_examples
  ∧ length (add_example held e max_examples) ≤ S (length held).
Proof.
  intros Hlen. unfold add_example.
  destruct (Z.leb_spec max_examples (Z.of_nat (length held))) as [Hfull|Hroom].
  { split; [by left|]. split; lia. }
  destruct (example_is_too_large e) eqn:Hlarge.
  { split; [by left|]. split; lia. }
  split; [by right|]. rewrite length_app. cbn [length]. split; lia.
Qed.

Lemma record_field_wf (acc : gset string * gmap string (gset string)) (f : string) :
  acc.1 = dom acc.2 →
  (∀ norm variants, acc.2 !! norm = Some variants →
     variants ≠ ∅ ∧ ∀ f, f ∈ variants → f ≠ "" ∧ normalize_field_name f = norm) →
  let acc' := record_field acc f in
  acc'.1 = dom acc'.2
  ∧ ∀ norm variants, acc'.2 !! norm = Some variants →
      variants ≠ ∅ ∧ ∀ f, f ∈ variants → f ≠ "" ∧ normalize_field_name f = norm.
Proof.
  intros Hdom Hvar. unfold record_field.
  destruct (String.eqb_spec f "") as [->|Hf]; [done|]. cbn [fst snd].
  split; [rewrite dom_insert_L; by rewrite Hdom|].
  intros norm variants.
  destruct (decide (normalize_field_name f = norm)) as [<-|Hne].
  - rewrite lookup_insert_eq. intros [= <-]. split.
    + intros He. apply (not_elem_of_empty (C:=gset string) f). rewrite <- He.
      apply elem_of_union_r. by apply elem_of_singleton.
    + intros f' [Hf'|Hf'%elem_of_singleton]%elem_of_union; [|by subst f'].
      destruct (acc.2 !! normalize_field_name f) as [old|] eqn:E; cbn in Hf'.
      * by apply (Hvar _ _ E).
      * by apply not_elem_of_empty in Hf'.
  - rewrite lookup_insert_ne by done. apply Hvar.
Qed.

Lemma record_fields_wf (mg : Z) (key : GroupKey) (g : GroupStats) (fields : list string) :
  group_wf mg key g → group_wf mg key (record_fields g fields)
                      ∧ count (record_fields g fields) = count g.
Proof.
  intros (Hkey & Hps & Hseen & Hvar & Htool & Hlen & Hlc & Hex).
  split; [|done].
  assert (Hacc : let acc := foldl record_field (fields_seen g, field_variants g) fields in
                 acc.1 = dom acc.2
                 ∧ ∀ norm variants, acc.2 !! norm = Some variants →
                     variants ≠ ∅ ∧ ∀ f, f ∈ variants → f ≠ "" ∧ normalize_field_name f = norm).
  { apply (foldl_preserves
             (λ acc, acc.1 = dom acc.2
                     ∧ ∀ norm variants, acc.2 !! norm = Some variants →
                         variants ≠ ∅
                         ∧ ∀ f, f ∈ variants → f ≠ "" ∧ normalize_field_name f = norm)).
    - intros acc f [H1 H2]. by apply record_field_wf.
    - done. }
  destruct Hacc as [Hd Hv].
  unfold group_wf, record_fields.
  cbn [agent_family tool_name_normalized shape_signature direction count parse_success
       tool_name_variants fields_seen field_variants examples].
  done.
Qed.

Lemma group_update_ok (mg : Z) (key : GroupKey) (g : GroupStats)
    (tool_name : option string) (parsed : Json) (fields : list string) (e : Example) :
  normalize_tool_name tool_name = key.1.1.2 →
  (ex_agent_family e, normalize_tool_name (ex_tool_name e), ex_shape_signature e,
   ex_direction e) = key →
  group_wf mg key g →
  let bumped :=
    {| agent_family := agent_family g;
       tool_name_normalized := tool_name_normalized g;
       shape_signature := shape_signature g;
       direction := direction g;
       count := S (count g);
       parse_success :=
         if is_none_json parsed then parse_success g else S (parse_success g);
       tool_name_variants :=
         match tool_name with
         | Some n => if String.eqb n "" then tool_name_variants g
                     else {[ n ]} ∪ tool_name_variants g
         | None => tool_name_variants g
         end;
       fields_seen := fields_seen g;
       field_variants := field_variants g;
       examples := examples g |} in
  let g' := add_group_example (record_fields bumped fields) e mg in
  group_ok mg key g' ∧ count g' = S (count g).
Proof.
  intros Hname He Hwf bumped g'.
  assert (Hb : group_wf mg key bumped).
  { destruct Hwf as (Hkey & Hps & Hseen & Hvar & Htool & Hlen & Hlc & Hex).
    unfold group_wf, bumped.
    cbn [agent_family tool_name_normalized shape_signature direction count parse_success
         tool_name_variants fields_seen field_variants examples].
    split; [done|]. split; [destruct (is_none_json parsed); lia|].
    split; [done|]. split; [done|]. split; [|split; [done|split; [lia|done]]].
    assert (Hnorm : tool_name_normalized g = key.1.1.2) by (by rewrite <- Hkey).
    destruct tool_name as [n|]; [|done].
    destruct (String.eqb_spec n "") as [->|Hn]; [done|].
    intros n' [Hn'%elem_of_singleton|Hn']%elem_of_union; [|by apply Htool].
    subst n'. split; [done|]. by rewrite Hnorm. }
  destruct (record_fields_wf mg key bumped fields Hb) as [Hr Hrc].
  destruct Hr as (Hkey & Hps & Hseen & Hvar & Htool & Hlen & Hlc & Hex).
  destruct (add_example_spec (examples (record_fields bumped fields)) e mg Hlen)
    as (Hadd & Hlen' & Hgrow).
  unfold group_ok, group_wf, g', add_group_example.
  cbn [agent_family tool_name_normalized shape_signature direction count parse_success
       tool_name_variants fields_seen field_variants examples].
  rewrite Hrc. cbn [count bumped].
  split; [|done]. split; [lia|]. split; [done|].
  split; [by rewrite Hrc in Hps|]. split; [done|]. split; [done|]. split; [done|].
  split; [done|]. split.
  - change (examples (record_fields bumped fields)) with (examples g) in *. 
    destruct Hwf as (_ & _ & _ & _ & _ & _ & Hlc0 & _). lia.
  - destruct Hadd as [->|[-> Hsmall]]; [done|].
    apply Forall_app. split; [done|]. by apply Forall_singleton.
Qed.

Lemma shape_update_ok (ms : Z) (sig agent dir : string) (sh : ShapeStats) (e : Example) :
  ex_shape_signature e = sig → ex_agent_family e = agent →
  shape_wf ms sig sh →
  let bumped :=
    {| sh_shape_signature := sh_shape_signature sh;
       sh_count := S (sh_count sh);
       agents := {[ agent ]} ∪ agents sh;
       directions :=
         <[dir := S (default 0 (directions sh !! dir))]> (directions sh);
       sh_examples := sh_examples sh |} in
  let sh' := add_shape_example bumped e ms in
  shape_ok ms sig sh' ∧ sh_count sh' = S (sh_count sh)
  ∧ agents sh' = {[ agent ]} ∪ agents sh
  ∧ directions sh' = <[dir := S (default 0 (directions sh !! dir))]> (directions sh).
Proof.
  intros Hsig Hagent (Hs & Hc & Hd & Hlen & Hlc & Hex) bumped sh'.
  destruct (add_example_spec (sh_examples sh) e ms Hlen) as (Hadd & Hlen' & Hgrow).
  unfold shape_ok, shape_wf, sh', add_shape_example, bumped.
  cbn [sh_shape_signature sh_count agents directions sh_examples].
  split; [|done]. split; [lia|]. split.
  { intros He. apply (not_elem_of_empty (C:=gset string) agent). rewrite <- He.
    apply elem_of_union_l. by apply elem_of_singleton. }
  split; [done|]. split; [by rewrite sum_counts_bump, Hc|]. split.
  { intros d n. destruct (decide (dir = d)) as [<-|Hne].
    - rewrite lookup_insert_eq. intros [= <-]. lia.
    - rewrite lookup_insert_ne by done. apply Hd. }
  split; [done|]. split; [lia|].
  assert (Hold : Forall (λ e0, example_is_too_large e0 = false ∧ ex_shape_signature e0 = sig
                               ∧ ex_agent_family e0 ∈ {[agent]} ∪ agents sh)
                   (sh_examples sh)).
  { eapply Forall_impl; [exact Hex|]. intros e0 (? & ? & ?).
    split; [done|]. split; [done|]. by apply elem_of_union_r. }
  destruct Hadd as [->|[-> Hsmall]]; [done|].
  apply Forall_app. split; [done|]. apply Forall_singleton.
  split; [done|]. split; [done|]. apply elem_of_union_l. by apply elem_of_singleton.
Qed.

Lemma add_tool_block_ok (agent : string) (mg ms : Z)
    (groups : gmap GroupKey GroupStats) (shapes : gmap string ShapeStats)
    (tool_name : option string) (dir sig raw_event : string)
    (raw_payload : option string) (parsed : Json) (parse_error field_path : option string)
    (fields : list string) (source_file : string) (event_index : option nat) :
  catalog_ok agent mg ms (groups, shapes) →
  catalog_ok agent mg ms
    (add_tool_block groups shapes agent tool_name dir sig raw_event raw_payload parsed
       parse_error field_path fields source_file event_index mg ms).
Proof.
  intros (Hg & Hs & Hsum & Hlink). cbn [fst snd] in *.
  unfold add_tool_block. cbv zeta.
  match goal with |- context [add_group_example (record_fields ?g fields) ?ex mg] =>
    set (e := ex); set (g' := add_group_example (record_fields g fields) e mg) end.
  match goal with |- context [add_shape_example ?s e ms] =>
    set (sh' := add_shape_example s e ms) end.
  set (key := (agent, normalize_tool_name tool_name, sig, dir)) in *.
  set (g0 := match groups !! key with Some group => group | None => _ end) in *.
  set (s0 := match shapes !! sig with Some shape => shape | None => _ end) in *.
  assert (Hg0 : group_wf mg key g0
                ∧ count g0 = default 0 ((count <$> groups) !! key)
                ∧ (count g0 ≤ default 0 (directions s0 !! dir))).
  { unfold g0, s0. rewrite lookup_fmap.
    destruct (groups !! key) as [g|] eqn:E; cbn.
    - destruct (Hg _ _ E) as [_ [_ Hwf]]. split; [done|]. split; [done|].
      destruct (Hlink _ _ E) as (sh & Hsh & _ & Hle). cbn in Hsh, Hle.
      by rewrite Hsh.
    - split; [|split; [done|lia]].
      unfold group_wf. cbn. split; [done|]. split; [lia|].
      split; [by rewrite dom_empty_L|]. split; [by intros ??; rewrite lookup_empty|].
      split; [intros n Hn; by apply not_elem_of_empty in Hn|].
      split; [lia|]. split; [lia|]. constructor. }
  destruct Hg0 as (Hg0 & Hc0 & Hle0).
  assert (Hs0 : shape_wf ms sig s0
                ∧ sh_count s0 = default 0 ((sh_count <$> shapes) !! sig)).
  { unfold s0. rewrite lookup_fmap. destruct (shapes !! sig) as [sh|] eqn:E; cbn.
    - by destruct (Hs _ _ E) as (_ & _ & Hwf).
    - split; [|done]. unfold shape_wf. cbn.
      split; [done|]. split; [done|].
      split; [by intros ??; rewrite lookup_empty|].
      split; [lia|]. split; [lia|]. constructor. }
  destruct Hs0 as (Hs0 & Hsc0).
  destruct (group_update_ok mg key g0 tool_name parsed fields e eq_refl eq_refl Hg0)
    as [Hg' Hcount]. fold g' in Hg', Hcount.
  destruct (shape_update_ok ms sig agent dir s0 e eq_refl eq_refl Hs0)
    as (Hsh' & Hshc & Hagents & Hdirs). fold sh' in Hsh', Hshc, Hagents, Hdirs.
  split; [|split; [|split]]; cbn [fst snd].
  - intros key' g. destruct (decide (key = key')) as [<-|Hne].
    + rewrite lookup_insert_eq. intros [= <-]. done.
    + rewrite lookup_insert_ne by done. apply Hg.
  - intros sig' sh. destruct (decide (sig = sig')) as [<-|Hne].
    + rewrite lookup_insert_eq. intros [= <-]. done.
    + rewrite lookup_insert_ne by done. apply Hs.
  - rewrite !fmap_insert, Hcount, Hshc, Hc0, Hsc0, !sum_counts_bump. by rewrite Hsum.
  - intros key' g. destruct (decide (key = key')) as [<-|Hne].
    + rewrite lookup_insert_eq. intros [= <-]. exists sh'. cbn [key fst snd].
      rewrite lookup_insert_eq. split; [done|]. rewrite Hagents, Hdirs, Hcount.
      split; [apply elem_of_union_l; by apply elem_of_singleton|].
      rewrite lookup_insert_eq. cbn. lia.
    + rewrite lookup_insert_ne by done. intros Hk.
      destruct (Hlink _ _ Hk) as (sh & Hsh & Hag & Hle).
      destruct (decide (sig = key'.1.2)) as [Hsig|Hsig].
      * exists sh'. rewrite <- Hsig, lookup_insert_eq. split; [done|].
        assert (s0 = sh) as Hs0sh.
        { unfold s0. rewrite <- Hsig in Hsh. by rewrite Hsh. }
        rewrite Hagents, Hdirs, Hs0sh. split; [by apply elem_of_union_r|].
        destruct (decide (dir = key'.2)) as [Hd|Hd].
        -- rewrite <- Hd in *. rewrite lookup_insert_eq. cbn. lia.
        -- by rewrite lookup_insert_ne.
      * exists sh. by rewrite lookup_insert_ne.
Qed.

Section catalog.
Context `{RecordHelpers}.

Lemma scan_files_preserves (P : Catalog → Prop) (agent : string) (mg ms : Z) :
  (∀ cat tool_name dir sig raw_event raw_payload parsed parse_error field_path fields
     source_file event_index,
     P cat →
     P (add_tool_block cat.1 cat.2 agent tool_name dir sig raw_event raw_payload parsed
          parse_error field_path fields source_file event_index mg ms)) →
  ∀ files cat, P cat → P (scan_files agent files mg ms cat).
Proof.
  intros Hadd files cat Hcat. unfold scan_files.
  apply foldl_preserves; [|done]. clear cat Hcat. intros cat [path records] Hcat.
  unfold scan_jsonl_file. cbn [fst snd].
  apply foldl_preserves; [|by destruct cat]. clear cat Hcat.
  intros cat [[idx obj] raw] Hcat. unfold scan_record.
  apply foldl_preserves.
  - clear cat Hcat. intros cat [field_path text] Hcat. unfold scan_text.
    destruct (MAX_TEXT_EVENT_LEN <? String.length text)%nat; [done|].
    apply foldl_preserves; [|done]. clear cat Hcat.
    intros cat [[tool_name raw_json] shape] Hcat. unfold scan_text_block.
    destruct (parse_payload (JStr raw_json)) as [[[raw_payload parsed] err] payload_fields].
    by apply Hadd.
  - apply foldl_preserves; [|done]. clear cat Hcat.
    intros cat [[[[[direction tool_name] payload] shape] fields] field_path] Hcat.
    unfold scan_block.
    destruct (parse_payload payload) as [[[raw_payload parsed] err] payload_fields].
    by apply Hadd.
Qed.

Lemma scan_files_ok (agent : string) (files : list (string * list (nat * Json * string)))
    (mg ms : Z) :
  catalog_ok agent mg ms (scan_files agent files mg ms (∅, ∅)).
Proof.
  apply (scan_files_preserves (catalog_ok agent mg ms)).
  - intros [groups shapes] *. apply add_tool_block_ok.
  - split; [|split; [|split]]; cbn [fst snd].
    + intros key g. by rewrite lookup_empty.
    + intros sig sh. by rewrite lookup_empty.
    + rewrite !fmap_empty. reflexivity.
    + intros key g. by rewrite lookup_empty.
Qed.

End catalog.

Lemma sum_counts_foldl_bump (keys : list GroupKey) (m : gmap GroupKey nat) :
  sum_counts (foldl bump m keys) = sum_counts m + length keys.
Proof.
  revert m. induction keys as [|k keys IH]; intros m; cbn [foldl length]; [lia|].
  rewrite IH. unfold bump. rewrite sum_counts_bump. lia.
Qed.

Lemma sum_counts_lookup `{Countable K} (m : gmap K nat) (k : K) (n : nat) :
  m !! k = Some n → n ≤ sum_counts m.
Proof.
  intros Hk. rewrite <- (insert_delete_id m k n Hk).
  rewrite sum_counts_insert by apply lookup_delete_eq. lia.
Qed.

(** X15. Every group of the catalog built by scanning the files of an agent
    is well formed: it is kept under the key made of its own four fields,
    the first being the scanned agent; its count is at least one and bounds
    [parse_success] and the number of examples; [fields_seen] holds exactly
    the keys of [field_variants], whose values are non-empty sets of
    non-empty names that normalize to their key; every tool-name variant is
    non-empty and normalizes to the tool name of the group; and there are at
    most [max(0, max_examples_per_group)] examples, none oversized, each
    taken from a block of this group. *)
Theorem catalog_groups_wellformed `{RecordHelpers} (agent : string)
    (files : list (string * list (nat * Json * string))) (mg ms : Z)
    (key : GroupKey) (g : GroupStats) :
  (scan_files agent files mg ms (∅, ∅)).1 !! key = Some g →
  key.1.1.1 = agent ∧ group_ok mg key g.
Proof. intros Hk. by apply (scan_files_ok agent files mg ms). Qed.

Lemma catalog_groups_wellformed_witness :
  ∃ g, (scan_files "droid" droid_files 3 3 (∅, ∅)).1
         !! ("droid", "read_file", "jsonl:type=tool_call", "input") = Some g
       ∧ count g = 2
       ∧ group_ok 3 ("droid", "read_file", "jsonl:type=tool_call", "input") g.
Proof.
  eexists. split; [vm_compute; reflexivity|]. split; [reflexivity|].
  refine (proj2 (catalog_groups_wellformed "droid" droid_files 3 3 _ _ _)).
  vm_compute. reflexivity.
Defined.

(** X16. Groups and shapes count the same blocks.  After a scan, the counts
    of all groups add up to the number of blocks found, and so do the counts
    of all shapes; every shape is kept under its own signature, has a count
    of at least one that is the sum of its direction counts, knows at least
    one agent and keeps at most [max(0, max_examples_per_shape)] examples,
    none oversized; and the shape of a group exists, knows the agent and
    counts the direction of the group at least as often as the group. *)
Theorem catalog_counts_balance `{RecordHelpers} (agent : string)
    (files : list (string * list (nat * Json * string))) (mg ms : Z) :
  let cat := scan_files agent files mg ms (∅, ∅) in
  sum_counts (count <$> cat.1) = length (contents_of files ≫= record_keys agent)
  ∧ sum_counts (sh_count <$> cat.2) = sum_counts (count <$> cat.1)
  ∧ (∀ sig sh, cat.2 !! sig = Some sh → shape_ok ms sig sh)
  ∧ (∀ key g, cat.1 !! key = Some g →
       ∃ sh, cat.2 !! key.1.2 = Some sh
             ∧ agent ∈ agents sh
             ∧ count g ≤ default 0 (directions sh !! key.2)
             ∧ count g ≤ sh_count sh).
Proof.
  intros cat. destruct (scan_files_ok agent files mg ms) as (Hg & Hs & Hsum & Hlink).
  fold cat in Hg, Hs, Hsum, Hlink.
  split; [|split; [done|split; [done|]]].
  - change (count <$> cat.1) with (group_counts cat). unfold cat.
    rewrite group_counts_scan_files, sum_counts_foldl_bump.
    unfold group_counts. cbn [fst]. by rewrite fmap_empty.
  - intros key g Hk. destruct (Hlink key g Hk) as (sh & Hsh & Hag & Hle).
    destruct (Hg key g Hk) as [Hagent _].
    exists sh. split; [done|]. split; [by rewrite <- Hagent|]. split; [done|].
    destruct (Hs _ _ Hsh) as (_ & _ & _ & Hc & _). rewrite Hc.
    destruct (directions sh !! key.2) as [n|] eqn:E; cbn in Hle; [|lia].
    pose proof (sum_counts_lookup _ _ _ E). lia.
Qed.

Lemma catalog_counts_balance_witness :
  sum_counts (count <$> (scan_files "droid" droid_files 3 3 (∅, ∅)).1) = 5
  ∧ sum_counts (sh_count <$> (scan_files "droid" droid_files 3 3 (∅, ∅)).2) = 5.
Proof.
  destruct (catalog_counts_balance "droid" droid_files 3 3) as (Hg & Hs & _).
  rewrite Hs, Hg. split; reflexivity.
Defined.

(** ** Keyword hits *)

Lemma is_substring_empty (hay : string) : is_substring "" hay = true.
Proof. unfold is_substring. by destruct hay. Qed.

Lemma keyword_hits_filter (lower : string → string) (text : string)
    (keywords acc : list string) :
  foldl (λ hits k, if is_substring (lower k) (lower text) then hits ++ [k] else hits)
    acc keywords
  = acc ++ filter (λ k, is_substring (lower k) (lower text) = true) keywords.
Proof.
  revert acc. induction keywords as [|k ks IH]; intros acc; cbn [foldl].
  - by rewrite filter_nil, app_nil_r.
  - rewrite IH, filter_cons.
    destruct (is_substring (lower k) (lower text)) eqn:E.
    + rewrite decide_True by done. by rewrite <- app_assoc.
    + rewrite decide_False by done. done.
Qed.

Lemma keyword_hits_eq (lower : string → string) (text : string) (keywords : list string) :
  text ≠ "" →
  _keyword_hits lower text keywords
  = filter (λ k, is_substring (lower k) (lower text) = true) keywords.
Proof.
  intros Ht. unfold _keyword_hits. destruct (String.eqb_spec text ""); [done|].
  cbv zeta. by rewrite keyword_hits_filter.
Qed.

(** X17. [_keyword_hits] selects keywords.  On empty text there is no hit.
    The hits are the keywords, in their order and with their repetitions,
    whose lower-case form occurs in the lower-case text; the hits of two
    lists put together are the hits of each put together; looking for the
    hits among the hits finds them all; and, the lower-case form of the empty
    string being empty, an empty keyword is a hit on any non-empty text. *)
Theorem keyword_hits_select (lower : string → string) (text : string)
    (keywords more : list string) :
  let hits := _keyword_hits lower text keywords in
  _keyword_hits lower "" keywords = []
  ∧ hits `sublist_of` keywords
  ∧ (∀ k, k ∈ hits ↔ k ∈ keywords ∧ text ≠ "" ∧ is_substring (lower k) (lower text) = true)
  ∧ _keyword_hits lower text (keywords ++ more) = hits ++ _keyword_hits lower text more
  ∧ _keyword_hits lower text hits = hits
  ∧ (lower "" = "" → text ≠ "" → "" ∈ keywords → "" ∈ hits).
Proof.
  intros hits. split; [done|].
  destruct (String.eqb_spec text "") as [->|Ht].
  { split; [apply sublist_nil_l|]. split; [|done].
    intros k. cbn. rewrite elem_of_nil. split; [done|by intros (_ & ? & _)]. }
  unfold hits. rewrite !keyword_hits_eq by done.
  split; [apply sublist_filter|]. split; [|split; [|split]].
  - intros k. rewrite list_elem_of_filter.
    split; [by intros [? ?]|by intros (? & ? & ?)].
  - by rewrite filter_app.
  - apply list_filter_filter_l. done.
  - intros Hl _ Hin. apply list_elem_of_filter. split; [|done].
    by rewrite Hl, is_substring_empty.
Qed.

Lemma keyword_hits_select_witness :
  "" ∈ _keyword_hits (λ s, s) "breaking change" ["schema"; ""; "change"].
Proof.
  apply (proj2 (proj2 (proj2 (proj2 (proj2
           (keyword_hits_select (λ s, s) "breaking change" ["schema"; ""; "change"] []))))));
    [reflexivity|discriminate|compute_done].
Defined.

(** ** Versions *)

Lemma semver_lt_spec (a b : Semver) :
  semver_lt a b = true
  ↔ (major a < major b
     ∨ major a = major b ∧ (minor a < minor b ∨ minor a = minor b ∧ patch a < patch b))%Z.
Proof. unfold semver_lt. lia. Qed.

Lemma semver_eq (a b : Semver) :
  major a = major b → minor a = minor b → patch a = patch b → a = b.
Proof. destruct a, b; cbn. by intros -> -> ->. Qed.

(** X18. [_compare_semver] is an order on the versions that parse.  Its
    result is -1, 0 or 1; swapping the arguments negates it; it is 0 exactly
    when both texts are non-empty and parse to the same version; being newer
    is transitive; two versions are never each newer than the other, as
    [main] reads it; and nothing is newer than a missing or empty verified
    version. *)
Theorem compare_semver_order (parse : string → option Semver) (a b c : option string) :
  (∀ r, _compare_semver parse a b = Some r → r ∈ [(-1)%Z; 0%Z; 1%Z])
  ∧ _compare_semver parse b a = Z.opp <$> _compare_semver parse a b
  ∧ (_compare_semver parse a b = Some 0%Z
     ↔ ∃ x y v, a = Some x ∧ b = Some y ∧ x ≠ "" ∧ y ≠ ""
                ∧ parse x = Some v ∧ parse y = Some v)
  ∧ (_compare_semver parse a b = Some 1%Z → _compare_semver parse b c = Some 1%Z →
     _compare_semver parse a c = Some 1%Z)
  ∧ (newer_than_verified parse a b = true → newer_than_verified parse b a = false)
  ∧ (newer_than_verified parse a None = false ∧ newer_than_verified parse a (Some "") = false).
Proof.
  assert (Hlt : ∀ u v, semver_lt u v = true ∨ semver_lt v u = true ∨ u = v).
  { intros u v. rewrite !semver_lt_spec.
    destruct (Z.lt_total (major u) (major v)) as [|[Hma|]]; [lia| |lia].
    destruct (Z.lt_total (minor u) (minor v)) as [|[Hmi|]]; [lia| |lia].
    destruct (Z.lt_total (patch u) (patch v)) as [|[Hpa|]]; [lia| |lia].
    right. right. by apply semver_eq. }
  assert (Hasym : ∀ u v, semver_lt u v = true → semver_lt v u = false).
  { intros u v. rewrite <- not_true_iff_false, !semver_lt_spec. lia. }
  assert (Htrans : ∀ u v w, semver_lt u v = true → semver_lt v w = true →
                            semver_lt u w = true).
  { intros u v w. rewrite !semver_lt_spec. lia. }
  assert (Hcmp : ∀ x y, x ≠ "" → y ≠ "" →
            _compare_semver parse (Some x) (Some y)
            = match parse x, parse y with
              | Some va, Some vb =>
                  if semver_lt va vb then Some (-1)%Z
                  else if semver_lt vb va then Some 1%Z else Some 0%Z
              | _, _ => None
              end).
  { intros x y Hx Hy. cbn.
    destruct (String.eqb_spec x ""); [done|]. by destruct (String.eqb_spec y ""). }
  assert (Hone : ∀ x y, _compare_semver parse x y = Some 1%Z
            ↔ ∃ x' y' u v, x = Some x' ∧ y = Some y' ∧ x' ≠ "" ∧ y' ≠ ""
                           ∧ parse x' = Some u ∧ parse y' = Some v
                           ∧ semver_lt v u = true).
  { intros [x|] [y|]; [|split; [done|by intros (?&?&?&?&?&?&?)]..].
    cbn. destruct (String.eqb_spec x "") as [->|Hx].
    { split; [done|]. intros (?&?&?&?&[= <-]&?&?&?); done. }
    destruct (String.eqb_spec y "") as [->|Hy].
    { split; [done|]. intros (?&?&?&?&?&[= <-]&?&?&?); done. }
    cbn. split.
    - destruct (parse x) as [u|] eqn:Eu; [|done]. destruct (parse y) as [v|] eqn:Ev; [|done].
      destruct (semver_lt u v); [done|]. destruct (semver_lt v u) eqn:E; [|done].
      intros _. by exists x, y, u, v.
    - intros (x' & y' & u & v & [= <-] & [= <-] & _ & _ & -> & -> & Hvu).
      by rewrite (Hasym _ _ Hvu), Hvu. }
  split; [|split; [|split; [|split; [|split]]]].
  - destruct a as [x|], b as [y|]; [|done..]. cbn.
    destruct (String.eqb x "" || String.eqb y ""); [done|].
    destruct (parse x), (parse y); [|done..].
    destruct (semver_lt _ _); [intros r [= <-]; compute_done|].
    destruct (semver_lt _ _); intros r [= <-]; compute_done.
  - destruct a as [x|], b as [y|]; [|done..]. cbn.
    rewrite (orb_comm (String.eqb y "")).
    destruct (String.eqb x "" || String.eqb y ""); [done|].
    destruct (parse x) as [u|], (parse y) as [v|]; [|done..].
    destruct (Hlt u v) as [H1|[H1| ->]].
    + by rewrite H1, (Hasym _ _ H1).
    + by rewrite H1, (Hasym _ _ H1).
    + destruct (semver_lt v v) eqn:E; [by rewrite (Hasym _ _ E) in E|done].
  - split.
    + destruct a as [x|], b as [y|]; [|done..]. cbn.
      destruct (String.eqb_spec x ""); [done|]. destruct (String.eqb_spec y ""); [done|].
      cbn. destruct (parse x) as [u|] eqn:Eu; [|done].
      destruct (parse y) as [v|] eqn:Ev; [|done].
      destruct (Hlt u v) as [H1|[H1| ->]].
      * by rewrite H1.
      * by rewrite H1, (Hasym _ _ H1).
      * intros _. by exists x, y, v.
    + intros (x & y & v & -> & -> & Hx & Hy & Ex & Ey).
      rewrite Hcmp, Ex, Ey by done.
      destruct (semver_lt v v) eqn:E; [|done].
      by rewrite (Hasym _ _ E) in E.
  - intros (x & y & u & v & -> & -> & Hx & Hy & Eu & Ev & Hvu)%Hone.
    intros (y' & z & v' & w & [= <-] & -> & _ & Hz & Ev' & Ew & Hwv)%Hone.
    rewrite Ev in Ev'. injection Ev' as <-.
    apply Hone. exists x, z, u, w. repeat split; try done. by eapply Htrans.
  - destruct a as [x|], b as [y|]; [|done..]. cbn -[_compare_semver].
    rewrite (orb_comm (String.eqb x "")).
    destruct (String.eqb y "" || String.eqb x ""); [done|].
    intros (x' & y' & u & v & [= <-] & [= <-] & _ & _ & Eu & Ev & Hvu)%bool_decide_eq_true%Hone.
    apply bool_decide_eq_false. intros (? & ? & v' & u' & [= <-] & [= <-] & _ & _ & Ev' & Eu' & Huv)%Hone.
    rewrite Ev in Ev'. rewrite Eu in Eu'. injection Ev' as <-. injection Eu' as <-.
    by rewrite (Hasym _ _ Hvu) in Huv.
  - split; [by destruct a|]. by destruct a.
Qed.

Lemma compare_semver_order_witness :
  _compare_semver parse_example (Some "2.0.0") (Some "1.2.3") = Some 1%Z.
Proof.
  apply (proj1 (proj2 (proj2 (proj2
           (compare_semver_order parse_example (Some "2.0.0") (Some "1.10.0")
              (Some "1.2.3"))))));
    reflexivity.
Defined.

(** ** The direction of a payload *)

Lemma infer_direction_cases (members : list (string * Json)) :
  Payload.infer_direction_from_payload (JObj members)
  = if bool_decide (normalized_keys members ∩ Payload.output_keys ≠ ∅) then "output"
    else if bool_decide (normalized_keys members ∩ Payload.input_keys ≠ ∅) then "input"
    else "unknown".
Proof. reflexivity. Qed.

Lemma meets_iff (keys known : gset string) :
  keys ∩ known ≠ ∅ ↔ ∃ k, k ∈ keys ∧ k ∈ known.
Proof.
  split.
  - intros Hne. apply set_choose_L in Hne as [k Hk].
    apply elem_of_intersection in Hk. by exists k.
  - intros (k & Hk & Hknown) He.
    apply (not_elem_of_empty (C:=gset string) k). rewrite <- He.
    by apply elem_of_intersection.
Qed.

(** X19. [infer_direction_from_payload] looks at the normalized names of the
    keys only.  Its result is [output], [input] or [unknown]; it is [output]
    exactly when some key normalizes to an output name, and [input] exactly
    when none does and some key normalizes to an input name; two objects
    with the same normalized key names get the same direction; more keys
    never move the direction down the scale unknown, input, output; and
    every listed name is its own normalized form, so that each can match. *)
Theorem infer_direction_by_normalized_keys (members more : list (string * Json)) :
  let direction := Payload.infer_direction_from_payload (JObj members) in
  direction ∈ ["output"; "input"; "unknown"]
  ∧ (direction = "output"
     ↔ ∃ k, k ∈ obj_keys members ∧ normalize_field_name k ∈ Payload.output_keys)
  ∧ (direction = "input"
     ↔ (∀ k, k ∈ obj_keys members → normalize_field_name k ∉ Payload.output_keys)
       ∧ ∃ k, k ∈ obj_keys members ∧ normalize_field_name k ∈ Payload.input_keys)
  ∧ (normalized_keys more = normalized_keys members →
     Payload.infer_direction_from_payload (JObj more) = direction)
  ∧ direction_rank direction
    ≤ direction_rank (Payload.infer_direction_from_payload (JObj (members ++ more)))
  ∧ (∀ k, k ∈ Payload.output_keys ∪ Payload.input_keys → normalize_field_name k = k).
Proof.
  intros direction.
  assert (Hmeets : ∀ (ms : list (string * Json)) (known : gset string),
            normalized_keys ms ∩ known ≠ ∅
            ↔ ∃ k, k ∈ obj_keys ms ∧ normalize_field_name k ∈ known).
  { intros ms known. rewrite meets_iff. unfold normalized_keys. split.
    - intros (n & Hn & Hknown). apply elem_of_list_to_set, list_elem_of_fmap in Hn.
      destruct Hn as (k & -> & Hk). by exists k.
    - intros (k & Hk & Hknown). exists (normalize_field_name k). split; [|done].
      apply elem_of_list_to_set, list_elem_of_fmap. by exists k. }
  unfold direction. rewrite !infer_direction_cases.
  split; [|split; [|split; [|split; [|split]]]].
  - repeat case_bool_decide; compute_done.
  - rewrite <- Hmeets. repeat case_bool_decide; split; (done || discriminate).
  - assert (Hnone : (∀ k, k ∈ obj_keys members →
                          normalize_field_name k ∉ Payload.output_keys)
                    ↔ ¬ normalized_keys members ∩ Payload.output_keys ≠ ∅).
    { rewrite Hmeets. split.
      - intros Hall (k & Hk & Hout). by apply (Hall k).
      - intros Hno k Hk Hout. apply Hno. by exists k. }
    rewrite Hnone, <- Hmeets.
    destruct (decide (normalized_keys members ∩ Payload.output_keys ≠ ∅)) as [HA|HA].
    { rewrite bool_decide_eq_true_2 by done. split; [discriminate|].
      intros [HnA _]. by destruct HnA. }
    rewrite (bool_decide_eq_false_2 _ HA).
    destruct (decide (normalized_keys members ∩ Payload.input_keys ≠ ∅)) as [HB|HB].
    { rewrite bool_decide_eq_true_2 by done. split; [intros _; by split|done]. }
    rewrite (bool_decide_eq_false_2 _ HB). split; [discriminate|].
    intros [_ HB']. by destruct HB.
  - intros ->. done.
  - assert (Hgrow : ∀ known : gset string,
              normalized_keys members ∩ known ≠ ∅ →
              normalized_keys (members ++ more) ∩ known ≠ ∅).
    { intros known. rewrite !Hmeets. intros (k & Hk & Hknown). exists k.
      split; [|done]. unfold obj_keys in *. rewrite fmap_app. apply elem_of_app. by left. }
    destruct (decide (normalized_keys members ∩ Payload.output_keys ≠ ∅)) as [Ho|Ho].
    { rewrite (bool_decide_eq_true_2 _ Ho), (bool_decide_eq_true_2 _ (Hgrow _ Ho)). done. }
    rewrite (bool_decide_eq_false_2 _ Ho).
    destruct (decide (normalized_keys members ∩ Payload.input_keys ≠ ∅)) as [Hi|Hi].
    { rewrite (bool_decide_eq_true_2 _ Hi), (bool_decide_eq_true_2 _ (Hgrow _ Hi)).
      case_bool_decide; cbn; lia. }
    rewrite (bool_decide_eq_false_2 _ Hi). cbn. lia.
  - intros k [Hk|Hk]%elem_of_union; apply elem_of_list_to_set in Hk;
      repeat (apply elem_of_cons in Hk as [->|Hk]; [vm_compute; reflexivity|]);
      by apply elem_of_nil in Hk.
Qed.

Lemma infer_direction_by_normalized_keys_witness :
  Payload.infer_direction_from_payload (JObj [("path", JStr "/"); ("Exit Code", JNum 0)])
  = "output".
Proof.
  apply (proj1 (proj2 (proj2 (proj2
           (infer_direction_by_normalized_keys [("exitCode", JNum 1); ("path", JStr "x")]
              [("path", JStr "/"); ("Exit Code", JNum 0)]))))).
  vm_compute. reflexivity.
Defined.

(** ** The items of an array *)

Lemma lstrip_snoc_nonempty (p : ascii → bool) (x : text) (c : ascii) :
  p c = false → lstrip p (x ++ [c]) ≠ [].
Proof.
  intros Hc. induction x as [|d x IH]; cbn.
  - by rewrite Hc.
  - by destruct (p d).
Qed.

Lemma strip_trimmed (l : text) (c : ascii) :
  is_space c = false → trimmed_item (strip is_space (c :: l)).
Proof.
  intros Hc. split; [|apply strip_ends].
  unfold strip. cbn [lstrip]. rewrite Hc, reverse_cons.
  intros Hnil. apply (f_equal reverse) in Hnil. rewrite reverse_involutive in Hnil.
  by apply (lstrip_snoc_nonempty is_space (reverse l) c).
Qed.

Lemma slice_cons (t : text) (s i : nat) (c : ascii) :
  s < i → t !! s = Some c → slice t s i = c :: take (i - S s) (drop (S s) t).
Proof.
  intros Hlt Hc. unfold slice. rewrite (drop_S _ _ _ Hc).
  replace (i - s) with (S (i - S s)) by lia. done.
Qed.

Lemma slice_middle (t pre a post : text) :
  t = pre ++ a ++ post → slice t (length pre) (length pre + length a) = a.
Proof.
  intros ->. unfold slice. rewrite drop_app_length.
  replace (length pre + length a - length pre) with (length a) by lia.
  by rewrite take_app_length.
Qed.

(** The invariant of the loop: a pending item starts before the current
    index, at a character that is not white space; the items found are
    trimmed. *)
Lemma split_items_trimmed (t : text) (rest : text) :
  ∀ (i : nat) (in_string escape : bool) (depth : Z) (item_start : option nat)
    (items : list text),
    rest = drop i t →
    (∀ s, item_start = Some s → s < i ∧ ∃ c, t !! s = Some c ∧ is_space c = false) →
    Forall trimmed_item items →
    Forall trimmed_item (split_items t i rest in_string escape depth item_start items).
Proof.
  induction rest as [|ch rest IH]; intros i ins esc depth item_start items Hrest Hstart Hitems;
    [done|].
  assert (Hch : t !! i = Some ch).
  { rewrite <- (Nat.add_0_r i), <- lookup_drop, <- Hrest. done. }
  assert (Htail : rest = drop (S i) t).
  { rewrite (drop_S _ _ _ Hch) in Hrest. by injection Hrest. }
  assert (Hkeep : ∀ s, item_start = Some s →
                       S s ≤ S i ∧ ∃ c, t !! s = Some c ∧ is_space c = false).
  { intros s Hs. destruct (Hstart s Hs) as [Hlt Hc]. split; [lia|done]. }
  assert (Hnext : ∀ ins' esc' depth',
            Forall trimmed_item
              (split_items t (S i) rest ins' esc' depth' item_start items)).
  { intros. apply IH; [done| |done]. intros s Hs. destruct (Hstart s Hs). split; [lia|done]. }
  assert (Hitem : ∀ s, item_start = Some s →
                       trimmed_item (strip is_space (slice t s i))).
  { intros s Hs. destruct (Hstart s Hs) as (Hlt & c & Hc & Hsp).
    rewrite (slice_cons t s i c Hlt Hc). by apply strip_trimmed. }
  cbn [split_items].
  destruct ins.
  { destruct esc; [apply Hnext|].
    destruct (Ascii.eqb ch backslash); [apply Hnext|].
    destruct (Ascii.eqb ch dquote); apply Hnext. }
  destruct (Ascii.eqb ch dquote); [apply Hnext|]. cbv zeta.
  set (depth1 := if Ascii.eqb ch lbracket then (depth + 1)%Z else depth).
  destruct (Ascii.eqb ch lbracket && (depth1 =? 1)%Z); [apply Hnext|].
  assert (Hgo : Forall trimmed_item
            (let depth := if Ascii.eqb ch rbracket then (depth1 - 1)%Z else depth1 in
             if (depth =? 1)%Z then
               if Ascii.eqb ch comma then
                 match item_start with
                 | Some s =>
                     split_items t (S i) rest false esc depth None
                       (items ++ [strip is_space (slice t s i)])
                 | None => split_items t (S i) rest false esc depth item_start items
                 end
               else if negb (is_space ch) then
                 match item_start with
                 | None => split_items t (S i) rest false esc depth (Some i) items
                 | Some _ => split_items t (S i) rest false esc depth item_start items
                 end
               else split_items t (S i) rest false esc depth item_start items
             else split_items t (S i) rest false esc depth item_start items)).
  { cbv zeta. set (depth2 := if Ascii.eqb ch rbracket then _ else _).
    destruct (depth2 =? 1)%Z; [|apply Hnext].
    destruct (Ascii.eqb ch comma).
    - destruct item_start as [s|] eqn:Es; [|apply Hnext].
      apply IH; [done|done|]. apply Forall_app. split; [done|].
      apply Forall_singleton. by apply Hitem.
    - destruct (negb (is_space ch)) eqn:Esp; [|apply Hnext].
      destruct item_start as [s|] eqn:Es; [apply Hnext|].
      apply IH; [done| |done]. intros s [= <-]. split; [lia|].
      exists ch. split; [done|]. by apply negb_true_iff. }
  destruct (Ascii.eqb ch rbracket && (depth1 =? 1)%Z); [|exact Hgo].
  destruct item_start as [s|] eqn:Es; [|exact Hgo].
  apply Forall_app. split; [done|]. apply Forall_singleton. by apply Hitem.
Qed.

(** Without an opening bracket the depth never reaches one. *)
Lemma split_items_no_bracket (t : text) (rest : text) :
  ∀ (i : nat) (in_string escape : bool) (depth : Z) (item_start : option nat),
    lbracket ∉ rest → (depth ≤ 0)%Z →
    split_items t i rest in_string escape depth item_start [] = [].
Proof.
  induction rest as [|ch rest IH]; intros i ins esc depth item_start Hno Hdepth; [done|].
  apply not_elem_of_cons in Hno as [Hch Hno].
  assert (El : Ascii.eqb ch lbracket = false) by (apply Ascii.eqb_neq; congruence).
  cbn [split_items].
  destruct ins.
  { destruct esc; [by apply IH|].
    destruct (Ascii.eqb ch backslash); [by apply IH|].
    destruct (Ascii.eqb ch dquote); by apply IH. }
  destruct (Ascii.eqb ch dquote); [by apply IH|]. cbv zeta.
  rewrite El. cbn [andb].
  replace (depth =? 1)%Z with false by (symmetry; apply Z.eqb_neq; lia).
  rewrite andb_false_r.
  destruct (Ascii.eqb ch rbracket).
  - replace (depth - 1 =? 1)%Z with false by (symmetry; apply Z.eqb_neq; lia).
    apply IH; [done|lia].
  - replace (depth =? 1)%Z with false by (symmetry; apply Z.eqb_neq; lia).
    by apply IH.
Qed.

Lemma plain_char_tests (c : ascii) :
  c ∉ [dquote; lbracket; rbracket; comma] →
  Ascii.eqb c dquote = false ∧ Ascii.eqb c lbracket = false
  ∧ Ascii.eqb c rbracket = false ∧ Ascii.eqb c comma = false.
Proof.
  intros Hc. repeat split; apply Ascii.eqb_neq; intros ->; apply Hc; compute_done.
Qed.

(** Inside an item that has started, plain characters are passed over. *)
Lemma split_items_plain (t : text) (a tail : text) :
  ∀ (i s : nat) (escape : bool) (items : list text),
    Forall (λ c, c ∉ [dquote; lbracket; rbracket; comma]) a →
    split_items t i (a ++ tail) false escape 1 (Some s) items
    = split_items t (i + length a) tail false escape 1 (Some s) items.
Proof.
  induction a as [|c a IH]; intros i s esc items Hplain.
  - cbn. by rewrite Nat.add_0_r.
  - apply Forall_cons in Hplain as [Hc Hplain].
    destruct (plain_char_tests c Hc) as (Eq & El & Er & Ec).
    rewrite <- app_comm_cons. cbn [split_items length].
    rewrite Eq, El, Er, Ec. cbn.
    replace (i + S (length a)) with (S i + length a) by lia.
    destruct (negb (is_space c)); by apply IH.
Qed.

Lemma split_items_item (t : text) (a tail : text) (i : nat) (escape : bool)
    (items : list text) :
  plain_item a →
  split_items t i (a ++ tail) false escape 1 None items
  = split_items t (i + length a) tail false escape 1 (Some i) items.
Proof.
  intros [[Hne Hends] Hplain]. destruct a as [|c a]; [done|].
  apply Forall_cons in Hplain as [Hc Hplain].
  destruct (plain_char_tests c Hc) as (Eq & El & Er & Ec).
  rewrite <- app_comm_cons. cbn [split_items length].
  rewrite Eq, El, Er, Ec. cbn.
  rewrite (Hends c) by (by left). cbn.
  replace (i + S (length a)) with (S i + length a) by lia.
  by apply split_items_plain.
Qed.

Lemma split_items_join (t : text) (atoms : list text) :
  ∀ (pre post : text) (escape : bool) (items : list text),
    atoms ≠ [] → Forall plain_item atoms →
    t = pre ++ join_items atoms ++ rbracket :: post →
    split_items t (length pre) (join_items atoms ++ rbracket :: post) false escape 1 None
      items
    = items ++ atoms.
Proof.
  induction atoms as [|a atoms IH]; intros pre post esc items Hne Hplain Ht; [done|].
  apply Forall_cons in Hplain as [Ha Hplain].
  assert (Hstrip : strip is_space a = a).
  { apply strip_id. apply Ha. }
  destruct atoms as [|b atoms].
  - cbn [join_items] in *. rewrite split_items_item by done.
    cbn [split_items]. cbn -[slice strip].
    by rewrite (slice_middle t pre a _ Ht), Hstrip.
  - change (join_items (a :: b :: atoms)) with (a ++ comma :: join_items (b :: atoms)) in *.
    rewrite <- app_assoc. rewrite split_items_item by done.
    rewrite <- app_comm_cons. cbn [split_items]. cbn -[slice strip join_items].
    rewrite <- app_assoc, <- app_comm_cons in Ht.
    rewrite (slice_middle t pre a _ Ht), Hstrip.
    replace (S (length pre + length a)) with (length (pre ++ a ++ [comma]))
      by (rewrite !length_app; cbn; lia).
    rewrite (IH (pre ++ a ++ [comma]) post esc (items ++ [a])); [|done|done|].
    + by rewrite <- app_assoc.
    + rewrite Ht. by rewrite <- !app_assoc.
Qed.

Lemma split_items_open (t : text) (i : nat) (rest : text) (escape : bool) :
  split_items t i (lbracket :: rest) false escape 0 None []
  = split_items t (S i) rest false escape 1 None [].
Proof. reflexivity. Qed.

(** X20. What [split_json_array_items] returns.  From an offset past the end
    of the text, or with no opening bracket after the offset, there is no
    item.  Every item is non-empty and carries no white space at either end.
    And an array of items free of quotes, brackets, commas and surrounding
    white space is split into exactly these items, whatever stands before
    the offset and after the closing bracket. *)
Theorem split_json_array_items_trims (t : text) (start_index : nat) :
  (length t ≤ start_index → split_json_array_items t start_index = [])
  ∧ (lbracket ∉ drop start_index t → split_json_array_items t start_index = [])
  ∧ Forall trimmed_item (split_json_array_items t start_index)
  ∧ (∀ before atoms post,
       atoms ≠ [] → Forall plain_item atoms →
       t = before ++ lbracket :: join_items atoms ++ rbracket :: post →
       start_index = length before →
       split_json_array_items t start_index = atoms).
Proof.
  unfold split_json_array_items. split; [|split; [|split]].
  - intros Hge. by rewrite drop_ge.
  - intros Hno. by apply split_items_no_bracket.
  - apply split_items_trimmed; [done| |done]. intros s Hs. discriminate Hs.
  - intros before atoms post Hne Hplain Ht ->.
    rewrite Ht at 2. rewrite drop_app_length, split_items_open.
    replace (S (length before)) with (length (before ++ [lbracket]))
      by (rewrite length_app; cbn; lia).
    rewrite (split_items_join t atoms (before ++ [lbracket]) post false []); [done..|].
    rewrite Ht. by rewrite <- app_assoc.
Qed.

(** A closed item is plain by inspection of its characters. *)
Ltac plain_item_by_inspection :=
  split;
  [ split; [discriminate|intros c [Hc|Hc]; injection Hc as <-; reflexivity]
  | repeat (constructor; [compute_done|]); constructor ].

Lemma split_json_array_items_trims_witness :
  split_json_array_items array_text 2
  = [list_ascii_of_string "1"; list_ascii_of_string "true"; list_ascii_of_string "null"].
Proof.
  apply (proj2 (proj2 (proj2 (split_json_array_items_trims array_text 2)))
           (list_ascii_of_string "x ") _ (list_ascii_of_string " tail"));
    [discriminate| |reflexivity|reflexivity].
  repeat (constructor; [plain_item_by_inspection|]). constructor.
Defined.
